(** * Jacobi iterative solver and separable convolution (SYCL migration samples)

    A shallow embedding of the two numerical kernels of the repository and of
    their host-side drivers:

    - [jacobi.dp.cpp]: the per-iteration kernel [JacobiMethod], the error
      kernel [finalError], the reference driver [JacobiMethodGpu] and its two
      graph-based variants;
    - [convolutionSeparable.dp.cpp]: [convolutionRowsKernel],
      [convolutionColumnsKernel] and the host entry points
      [convolutionRowsGPU] and [convolutionColumnsGPU].

    Modelling conventions.

    - Numbers.  [float] and [double] values are elements of a type [F] with
      the operations of the class [Arith]; every definition is generic in
      it.  Two instances are given: exact rationals ([Qc]) and IEEE-754
      binary32 ([spec_float] with precision 24).  Theorems about reductions
      that re-associate additions assume the laws collected in [ExactArith];
      they are stated as hypotheses, never built into a definition.
    - SPMD execution.  A work-group runs phase by phase, the phases being
      separated by the barriers of the source; inside a phase the work-items
      are run one after the other in the order of their local id, and the
      work-groups of a dispatch are run in the order of their group id.
      Sub-group shuffles are modelled on the vector of the registers of the
      lanes of the sub-group.
    - Global memory is a store indexed by a pointer and an offset, so that the
      drivers can pass the same kernel the two iterate buffers in either
      order.  Stores and atomic additions of kernels are logged in a trace.
    - [int] values are integers.  In the convolution kernels every [int]
      expression that depends on the size of the image (the base
      coordinates, the offsets into the buffers, the distances to the
      border) is checked to lie in the range of [int], and the kernel
      faults when it does not: signed overflow is undefined behaviour.  The
      loop counters and the indices of the Jacobi kernels are bounded by
      constants and by [N_ROWS].
    - Constants of headers that are not part of the repository files
      ([N_ROWS], [KERNEL_RADIUS]) are parameters. *)

From Stdlib Require Import Arith ZArith Bool List Lia.
From Stdlib Require Import QArith Qcanon Qcabs.
From Stdlib Require Import Floats.SpecFloat.
Import ListNotations.

Close Scope Q_scope.
Close Scope Qc_scope.
Local Open Scope nat_scope.

(** ** Arithmetic *)

(** The operations the kernels apply to [float] and [double] values. *)
Class Arith (F : Type) : Type := {
  zero : F;
  one : F;
  add : F -> F -> F;
  sub : F -> F -> F;
  mul : F -> F -> F;
  div : F -> F -> F;
  opp : F -> F;
  fabs : F -> F;
  leb : F -> F -> bool
}.

Declare Scope arith_scope.
Delimit Scope arith_scope with F.
Notation "a [+] b" := (add a b) (at level 50, left associativity) : arith_scope.
Notation "a [-] b" := (sub a b) (at level 50, left associativity) : arith_scope.
Notation "a [*] b" := (mul a b) (at level 40, left associativity) : arith_scope.
Notation "a [/] b" := (div a b) (at level 40, left associativity) : arith_scope.
Notation "[~] a" := (opp a) (at level 35, right associativity) : arith_scope.
Local Open Scope arith_scope.

(** The laws of exact arithmetic that the parallel reductions rely on:
    addition is a commutative monoid and negation distributes over it. *)
Class ExactArith (F : Type) {AF : Arith F} : Prop := {
  add_comm : forall a b : F, a [+] b = b [+] a;
  add_assoc : forall a b c : F, a [+] (b [+] c) = (a [+] b) [+] c;
  add_zero_l : forall a : F, zero [+] a = a;
  sub_def : forall a b : F, a [-] b = a [+] [~] b;
  opp_add : forall a b : F, [~] (a [+] b) = [~] a [+] [~] b;
  opp_zero : [~] zero = zero
}.

(** Exact rational arithmetic. *)
#[export] Instance Qc_Arith : Arith Qc := {
  zero := Q2Qc 0;
  one := Q2Qc 1;
  add := Qcplus;
  sub := Qcminus;
  mul := Qcmult;
  div := Qcdiv;
  opp := Qcopp;
  fabs := Qcabs;
  leb := fun a b => Qle_bool (this a) (this b)
}.

(** IEEE-754 binary32, the [float] of the convolution kernels. *)
Definition binary32_prec : Z := 24.
Definition binary32_emax : Z := 128.

#[export] Instance binary32_Arith : Arith spec_float := {
  zero := S754_zero false;
  one := S754_finite false 8388608 (-23);
  add := SFadd binary32_prec binary32_emax;
  sub := SFsub binary32_prec binary32_emax;
  mul := SFmul binary32_prec binary32_emax;
  div := SFdiv binary32_prec binary32_emax;
  opp := SFopp;
  fabs := SFabs;
  leb := SFleb
}.

(** ** Sums and loops *)

Section Loops.
Context {F : Type} {AF : Arith F}.

(** [sumF f n] is the sum of [f 0], ..., [f (n-1)], added from left to right
    starting from zero. *)
Fixpoint sumF (f : nat -> F) (n : nat) : F :=
  match n with
  | O => zero
  | S k => sumF f k [+] f k
  end.

(** [for (i = start; i < bound; i += step) s = body i s;] *)
Fixpoint for_stride {St : Type} (fuel i bound step : nat)
    (body : nat -> St -> St) (s : St) : St :=
  match fuel with
  | O => s
  | S fuel' =>
      if i <? bound
      then for_stride fuel' (i + step) bound step body (body i s)
      else s
  end.

(** [for (...; (k < kbound) && (i < ibound); k += kstep, i += istep)
    s = body k i s;]: the loops over the rows owned by a work-group. *)
Fixpoint rows_loop {St : Type} (fuel k i kbound ibound kstep istep : nat)
    (body : nat -> nat -> St -> St) (s : St) : St :=
  match fuel with
  | O => s
  | S fuel' =>
      if (k <? kbound) && (i <? ibound)
      then rows_loop fuel' (k + kstep) (i + istep) kbound ibound kstep istep
             body (body k i s)
      else s
  end.

(** Update of one cell of an array held as a function. *)
Definition upd (f : nat -> F) (i : nat) (v : F) : nat -> F :=
  fun j => if j =? i then v else f j.

End Loops.

(** ** The Jacobi solver: model of [jacobi.dp.cpp] *)

(** [jacobi.h] is not among the repository files: the order [N_ROWS] of the
    linear system, which it defines, is a parameter (the migration tool
    inlined its value, 512, where it sizes the local accessors). *)
Class jacobi_h : Type := { N_ROWS : nat }.

(** [#define ROWS_PER_CTA 8] *)
Definition ROWS_PER_CTA : nat := 8.

(** The drivers require a sub-group size of 32 for both kernels
    ([[intel::reqd_sub_group_size(32)]]). *)
Definition SUB_GROUP_SIZE : nat := 32.

(** What the device leaves open: the value [sycl::shift_group_left] returns to
    a lane whose source lane lies outside the sub-group (given the lane, the
    shift and the lane's own value), and the initial contents of local
    memory. *)
Class Device (F : Type) : Type := {
  unspecified_shift : nat -> nat -> F -> F;
  uninitialized_local : nat -> F
}.

Section JacobiModel.
Context {F : Type} {AF : Arith F} {DEV : Device F} {JH : jacobi_h}.

(** *** Global memory *)

(** A device pointer names an allocation; a location is a pointer and an
    element offset. *)
Definition ptr : Type := nat.
Definition gmem : Type := ptr -> nat -> F.

Definition gstore (p : ptr) (i : nat) (v : F) (m : gmem) : gmem :=
  fun q j => if (q =? p) && (j =? i) then v else m q j.

(** The writes of kernels to global memory. *)
Inductive gevent : Type :=
| EvStore (p : ptr) (i : nat)
| EvAtomicAdd (p : ptr) (i : nat).

Record gstate : Type := {
  g_mem : gmem;
  g_trace : list gevent
}.

(** [p[i] = v;] *)
Definition do_store (p : ptr) (i : nat) (v : F) (st : gstate) : gstate :=
  {| g_mem := gstore p i v (g_mem st);
     g_trace := g_trace st ++ [EvStore p i] |}.

(** [dpct::atomic_fetch_add(&p[i], v);] *)
Definition do_atomic_add (p : ptr) (i : nat) (v : F) (st : gstate) : gstate :=
  {| g_mem := gstore p i (g_mem st p i [+] v) (g_mem st);
     g_trace := g_trace st ++ [EvAtomicAdd p i] |}.

(** [stream->memset(p, 0, sizeof(double))]: the all-zero bit pattern is the
    double 0.0.  A host-side operation, not logged. *)
Definition memset_zero (p : ptr) (st : gstate) : gstate :=
  {| g_mem := gstore p 0 zero (g_mem st); g_trace := g_trace st |}.

(** *** Work-groups and sub-groups *)

(** The part of [sycl::nd_item<3>] shared by the work-items of a work-group;
    only dimension 2 is used. *)
Record nd_item : Type := {
  get_group : nat;
  get_local_range : nat;
  get_group_range : nat
}.

(** The local ids of the lanes of sub-group [s], and the sub-groups of a
    work-group. *)
Definition sub_group_lanes (item : nd_item) (s : nat) : list nat :=
  seq (s * SUB_GROUP_SIZE)
      (Nat.min SUB_GROUP_SIZE (get_local_range item - s * SUB_GROUP_SIZE)).

Definition sub_groups (item : nd_item) : list nat :=
  seq 0 ((get_local_range item + SUB_GROUP_SIZE - 1) / SUB_GROUP_SIZE).

(** [sycl::shift_group_left(sg, x, delta)] seen from lane [lane], [vals]
    holding the [x] of every lane of the sub-group. *)
Definition shift_group_left (vals : list F) (lane delta : nat) : F :=
  match nth_error vals (lane + delta) with
  | Some v => v
  | None => unspecified_shift lane delta (nth lane vals zero)
  end.

(** [dpct::shift_sub_group_left(sg, x, delta, logical_sub_group_size)]: a lane
    whose source lies outside its logical sub-group keeps its own value. *)
Definition shift_sub_group_left (logical_sub_group_size : nat)
    (vals : list F) (lane delta : nat) : F :=
  let end_index := (lane / logical_sub_group_size + 1) * logical_sub_group_size in
  let result := shift_group_left vals lane delta in
  if end_index <=? lane + delta then nth lane vals zero else result.

(** [for (offset = size / 2; offset > 0; offset /= 2) x += shift(x, offset);]
    run by all the lanes together; the result holds the [x] of every lane. *)
Fixpoint shuffle_reduce (shift : list F -> nat -> nat -> F)
    (fuel offset : nat) (vals : list F) : list F :=
  match fuel with
  | O => vals
  | S fuel' =>
      if 0 <? offset
      then shuffle_reduce shift fuel' (offset / 2)
             (map (fun lane => nth lane vals zero [+] shift vals lane offset)
                  (seq 0 (length vals)))
      else vals
  end.

(** The reduction over a sub-group, [get_local_linear_range()] being the
    number of its lanes. *)
Definition sub_group_reduce (vals : list F) : list F :=
  shuffle_reduce shift_group_left (length vals) (length vals / 2) vals.

(** *** The kernel [JacobiMethod] (lines 57-157) *)

(** The local accessors [x_shared] and [b_shared]. *)
Record lmem : Type := {
  x_shared : nat -> F;
  b_shared : nat -> F
}.

(** Lines 66-78, work-item [t]: stage [x], and the entry of [b] of the row the
    work-item owns. *)
Definition stage_lane (m : gmem) (b x : ptr) (item : nd_item) (t : nat)
    (lm : lmem) : lmem :=
  {| x_shared :=
       for_stride N_ROWS t N_ROWS (get_local_range item)
         (fun i xs => upd xs i (m x i)) (x_shared lm);
     b_shared :=
       if t <? ROWS_PER_CTA
       then rows_loop ROWS_PER_CTA t (t + get_group item * ROWS_PER_CTA)
              ROWS_PER_CTA N_ROWS ROWS_PER_CTA ROWS_PER_CTA
              (fun _ i bs => upd bs (i mod (ROWS_PER_CTA + 1)) (m b i))
              (b_shared lm)
       else b_shared lm |}.

(** Lines 91-95, work-item [t], row [i]. *)
Definition rowThreadSum (m : gmem) (A : ptr) (item : nd_item)
    (xs : nat -> F) (i t : nat) : F :=
  for_stride N_ROWS t N_ROWS (get_local_range item)
    (fun j acc => acc [+] m A (i * N_ROWS + j) [*] xs j) zero.

(** Lines 91-106 for row [i]: every sub-group reduces the partial sums of its
    lanes and its first lane subtracts the result from the entry of
    [b_shared] of the row. *)
Definition row_step (m : gmem) (A : ptr) (item : nd_item) (xs : nat -> F)
    (i : nat) (bs : nat -> F) : nat -> F :=
  fold_left
    (fun bs s =>
       match sub_group_reduce
               (map (rowThreadSum m A item xs i) (sub_group_lanes item s)) with
       | r0 :: _ =>
           let slot := i mod (ROWS_PER_CTA + 1) in
           upd bs slot (bs slot [+] [~] r0)
       | [] => bs
       end)
    (sub_groups item) bs.

(** Lines 129-139, work-item [t]: the update of the row it owns. *)
Definition update_lane (A x_new : ptr) (item : nd_item) (lm : lmem) (t : nat)
    (st : gstate) : gstate * F :=
  rows_loop ROWS_PER_CTA t (t + get_group item * ROWS_PER_CTA)
    ROWS_PER_CTA N_ROWS ROWS_PER_CTA ROWS_PER_CTA
    (fun _ i (acc : gstate * F) =>
       let dx := b_shared lm (i mod (ROWS_PER_CTA + 1)) in
       let dx := dx [/] g_mem (fst acc) A (i * N_ROWS + i) in
       (do_store x_new i (x_shared lm i [+] dx) (fst acc),
        snd acc [+] fabs dx))
    (st, zero).

(** Lines 116-139: the work-items with [get_local_id(2) < ROWS_PER_CTA]; the
    list holds their [temp_sum] in the order of the local ids. *)
Definition update_phase (A x_new : ptr) (item : nd_item) (lm : lmem)
    (st : gstate) : gstate * list F :=
  fold_left
    (fun (acc : gstate * list F) t =>
       let r := update_lane A x_new item lm t (fst acc) in
       (fst r, snd acc ++ [snd r]))
    (filter (fun t => t <? ROWS_PER_CTA) (seq 0 (get_local_range item)))
    (st, []).

(** Lines 144-147: the reduction over [tile8], whose [size()] is
    [ROWS_PER_CTA]. *)
Definition tile_reduce (temps : list F) : list F :=
  shuffle_reduce (shift_sub_group_left ROWS_PER_CTA)
    ROWS_PER_CTA (ROWS_PER_CTA / 2) temps.

(** One work-group of [JacobiMethod]. *)
Definition JacobiMethod (A b : ptr) (conv_threshold : F) (x x_new sum : ptr)
    (item : nd_item) (lm0 : lmem) (st : gstate) : gstate :=
  let lanes := seq 0 (get_local_range item) in
  let lm1 :=
    fold_left (fun lm t => stage_lane (g_mem st) b x item t lm) lanes lm0 in
  (* item_ct1.barrier() *)
  let bs2 :=
    rows_loop ROWS_PER_CTA 0 (get_group item * ROWS_PER_CTA)
      ROWS_PER_CTA N_ROWS 1 1
      (fun _ i bs => row_step (g_mem st) A item (x_shared lm1) i bs)
      (b_shared lm1) in
  let lm2 := {| x_shared := x_shared lm1; b_shared := bs2 |} in
  (* item_ct1.barrier() *)
  let r := update_phase A x_new item lm2 st in
  (* tile8.thread_rank() == 0 *)
  match tile_reduce (snd r) with
  | r0 :: _ => do_atomic_add sum 0 r0 (fst r)
  | [] => fst r
  end.

(** *** The kernel [finalError] (lines 160-213) *)

(** Lines 165-174, work-item [t]. *)
Definition finalError_lane_sum (m : gmem) (x : ptr) (item : nd_item)
    (t : nat) : F :=
  let globalThreadId := get_group item * get_local_range item + t in
  for_stride N_ROWS globalThreadId N_ROWS
    (get_local_range item * get_group_range item)
    (fun i sum => let d := m x i [-] one in sum [+] fabs d) zero.

(** [get_sub_group().get_local_range().get(0)] for work-item [t]. *)
Definition sub_group_range (item : nd_item) (t : nat) : nat :=
  length (sub_group_lanes item (t / SUB_GROUP_SIZE)).

(** One work-group of [finalError]; [warpSum0] is the local memory passed as
    [dpct_local]. *)
Definition finalError (x g_sum : ptr) (item : nd_item) (warpSum0 : nat -> F)
    (st : gstate) : gstate :=
  let m := g_mem st in
  (* lines 176-186 *)
  let warpSum :=
    fold_left
      (fun ws s =>
         let lanes := sub_group_lanes item s in
         match sub_group_reduce (map (finalError_lane_sum m x item) lanes),
               lanes with
         | r0 :: _, t0 :: _ => upd ws (t0 / sub_group_range item t0) r0
         | _, _ => ws
         end)
      (sub_groups item) warpSum0 in
  (* item_ct1.barrier(); lines 195-200 *)
  let blockSum t :=
    if t <? get_local_range item / sub_group_range item t
    then warpSum t else zero in
  (* lines 202-212 *)
  match sub_group_reduce
          (map blockSum
               (filter (fun t => t <? 32) (seq 0 (get_local_range item)))) with
  | r0 :: _ => do_atomic_add g_sum 0 r0 st
  | [] => st
  end.

(** *** Dispatch *)

(** [cgh.parallel_for(sycl::nd_range<3>(nblocks * nthreads, nthreads), ...)]:
    every work-group runs the kernel. *)
Definition parallel_for (nblocks nthreads : nat)
    (kernel : nd_item -> gstate -> gstate) (st : gstate) : gstate :=
  fold_left
    (fun st g =>
       kernel {| get_group := g; get_local_range := nthreads;
                 get_group_range := nblocks |} st)
    (seq 0 nblocks) st.

(** The submission of [JacobiMethod] with its two local accessors. *)
Definition launch_JacobiMethod (nblocks nthreads : nat) (A b : ptr)
    (conv_threshold : F) (x x_new d_sum : ptr) (st : gstate) : gstate :=
  parallel_for nblocks nthreads
    (fun item =>
       JacobiMethod A b conv_threshold x x_new d_sum item
         {| x_shared := uninitialized_local;
            b_shared := uninitialized_local |})
    st.

(** The submission of [finalError] with its local accessor. *)
Definition launch_finalError (nblocks nthreads : nat) (x d_sum : ptr)
    (st : gstate) : gstate :=
  parallel_for nblocks nthreads
    (fun item => finalError x d_sum item uninitialized_local) st.

(** *** The drivers *)

(** [dpct::dim3 nthreads(256, 1, 1)] and
    [dpct::dim3 nblocks((N_ROWS / ROWS_PER_CTA) + 2, 1, 1)]. *)
Definition nthreads : nat := 256.
Definition nblocks : nat := N_ROWS / ROWS_PER_CTA + 2.

(** What a driver leaves behind: device memory, the returned [sum], the final
    value of the loop counter [k], and the two values it prints when the
    iteration converged (["GPU iterations"] and ["GPU error"]). *)
Record host_result : Type := {
  res_state : gstate;
  res_sum : F;
  res_k : nat;
  res_printed : option (nat * F)
}.

(** [(k & 1) == 0] *)
Definition even_iteration (k : nat) : bool := Nat.land k 1 =? 0.

(** Lines 757-827 of [JacobiMethodGpu], shared word for word by the three
    drivers: the convergence test and the final error. *)
Definition convergence_check (conv_threshold : F) (x x_new d_sum : ptr)
    (k : nat) (st : gstate) (sum : F) : option host_result :=
  if leb sum conv_threshold then
    let st := memset_zero d_sum st in
    (* nblocks.x = (N_ROWS / nthreads.x) + 1; *)
    let nblocks := N_ROWS / nthreads + 1 in
    let st :=
      if even_iteration k
      then launch_finalError nblocks nthreads x_new d_sum st
      else launch_finalError nblocks nthreads x d_sum st in
    let sum := g_mem st d_sum 0 in
    Some {| res_state := st; res_sum := sum; res_k := k;
            res_printed := Some (k + 1, sum) |}
  else None.

(** The loop of [JacobiMethodGpu] (lines 672-828); [fuel] is the number of
    values of [k] left below [max_iter]. *)
Fixpoint JacobiMethodGpu_loop (A b : ptr) (conv_threshold : F)
    (x x_new d_sum : ptr) (fuel k : nat) (st : gstate) (sum : F)
    : host_result :=
  match fuel with
  | O => {| res_state := st; res_sum := sum; res_k := k;
            res_printed := None |}
  | S fuel' =>
      let st := memset_zero d_sum st in
      let st :=
        if even_iteration k
        then launch_JacobiMethod nblocks nthreads A b conv_threshold
               x x_new d_sum st
        else launch_JacobiMethod nblocks nthreads A b conv_threshold
               x_new x d_sum st in
      let sum := g_mem st d_sum 0 in
      match convergence_check conv_threshold x x_new d_sum k st sum with
      | Some r => r
      | None =>
          JacobiMethodGpu_loop A b conv_threshold x x_new d_sum fuel' (S k)
            st sum
      end
  end.

(** [JacobiMethodGpu] (lines 658-833).  [d_sum] is the pointer
    [sycl::malloc_device] returns; [sum] starts at 0.0. *)
Definition JacobiMethodGpu (A b : ptr) (conv_threshold : F) (max_iter : Z)
    (x x_new d_sum : ptr) (st : gstate) : host_result :=
  JacobiMethodGpu_loop A b conv_threshold x x_new d_sum
    (Z.to_nat max_iter) 0 st zero.

(** *** Execution graphs *)

(** [cudaKernelNodeParams] for [func = JacobiMethod]: the launch dimensions
    and the six kernel arguments. *)
Record cudaKernelNodeParams : Type := {
  gridDim : nat;
  blockDim : nat;
  arg_A : ptr;
  arg_b : ptr;
  arg_conv_threshold : F;
  arg_x : ptr;
  arg_x_new : ptr;
  arg_sum : ptr
}.

(** The three kinds of node the drivers use.  The memset node clears one
    double; the memcpy node copies one double from the device into the
    host variable [sum]. *)
Inductive cudaGraphNode : Type :=
| MemsetNode (dst : ptr)
| KernelNode (params : cudaKernelNodeParams)
| MemcpyNode (src : ptr).

(** A graph whose nodes form a chain, in the order of the dependencies. *)
Definition cudaGraph : Type := list cudaGraphNode.

Definition exec_node (hs : gstate * F) (n : cudaGraphNode) : gstate * F :=
  match n with
  | MemsetNode dst => (memset_zero dst (fst hs), snd hs)
  | KernelNode p =>
      (launch_JacobiMethod (gridDim p) (blockDim p) (arg_A p) (arg_b p)
         (arg_conv_threshold p) (arg_x p) (arg_x_new p) (arg_sum p) (fst hs),
       snd hs)
  | MemcpyNode src => (fst hs, g_mem (fst hs) src 0)
  end.

(** [cudaGraphLaunch] followed by [stream->wait()]. *)
Definition cudaGraphLaunch (graphExec : cudaGraph) (hs : gstate * F)
    : gstate * F :=
  fold_left exec_node graphExec hs.

(** [cudaGraphExecKernelNodeSetParams(graphExec, node, params)], [node] being
    the position of the kernel node in the chain. *)
Fixpoint cudaGraphExecKernelNodeSetParams (graphExec : cudaGraph)
    (node : nat) (params : cudaKernelNodeParams) : cudaGraph :=
  match graphExec, node with
  | [], _ => []
  | KernelNode _ :: rest, O => KernelNode params :: rest
  | n :: rest, O => n :: rest
  | n :: rest, S node' =>
      n :: cudaGraphExecKernelNodeSetParams rest node' params
  end.

(** The loop of [JacobiMethodGpuCudaGraphExecKernelSetParams]
    (lines 325-410). *)
Fixpoint KernelSetParams_loop (graphExec : cudaGraph) (jacobiKernelNode : nat)
    (NodeParams0 NodeParams1 : cudaKernelNodeParams) (conv_threshold : F)
    (x x_new d_sum : ptr) (fuel k : nat) (st : gstate) (sum : F)
    : host_result :=
  match fuel with
  | O => {| res_state := st; res_sum := sum; res_k := k;
            res_printed := None |}
  | S fuel' =>
      let graphExec :=
        cudaGraphExecKernelNodeSetParams graphExec jacobiKernelNode
          (if even_iteration k then NodeParams0 else NodeParams1) in
      let hs := cudaGraphLaunch graphExec (st, sum) in
      match convergence_check conv_threshold x x_new d_sum k (fst hs)
              (snd hs) with
      | Some r => r
      | None =>
          KernelSetParams_loop graphExec jacobiKernelNode NodeParams0
            NodeParams1 conv_threshold x x_new d_sum fuel' (S k)
            (fst hs) (snd hs)
      end
  end.

(** [JacobiMethodGpuCudaGraphExecKernelSetParams] (lines 215-415): the graph
    memset -> kernel -> memcpy is built and instantiated once, and the
    arguments of its kernel node are replaced before every launch. *)
Definition JacobiMethodGpuCudaGraphExecKernelSetParams (A b : ptr)
    (conv_threshold : F) (max_iter : Z) (x x_new d_sum : ptr) (st : gstate)
    : host_result :=
  (* cudaGraphCreate, cudaGraphAddMemsetNode *)
  let graph : cudaGraph := [] in
  let memsetNode := length graph in
  let graph := graph ++ [MemsetNode d_sum] in
  let NodeParams0 :=
    {| gridDim := nblocks; blockDim := nthreads; arg_A := A; arg_b := b;
       arg_conv_threshold := conv_threshold; arg_x := x; arg_x_new := x_new;
       arg_sum := d_sum |} in
  (* cudaGraphAddKernelNode *)
  let jacobiKernelNode := length graph in
  let graph := graph ++ [KernelNode NodeParams0] in
  (* cudaGraphAddMemcpyNode *)
  let graph := graph ++ [MemcpyNode d_sum] in
  (* cudaGraphInstantiate *)
  let graphExec := graph in
  let NodeParams1 :=
    {| gridDim := nblocks; blockDim := nthreads; arg_A := A; arg_b := b;
       arg_conv_threshold := conv_threshold; arg_x := x_new; arg_x_new := x;
       arg_sum := d_sum |} in
  KernelSetParams_loop graphExec jacobiKernelNode NodeParams0 NodeParams1
    conv_threshold x x_new d_sum (Z.to_nat max_iter) 0 st zero.

(** Lines 448-536: what the stream records between [cudaStreamBeginCapture]
    and [cudaStreamEndCapture] in iteration [k]; nothing runs meanwhile. *)
Definition captured_graph (A b : ptr) (conv_threshold : F)
    (x x_new d_sum : ptr) (k : nat) : cudaGraph :=
  let graph : cudaGraph := [] in
  let graph := graph ++ [MemsetNode d_sum] in
  let graph :=
    if even_iteration k
    then graph ++ [KernelNode
           {| gridDim := nblocks; blockDim := nthreads; arg_A := A;
              arg_b := b; arg_conv_threshold := conv_threshold; arg_x := x;
              arg_x_new := x_new; arg_sum := d_sum |}]
    else graph ++ [KernelNode
           {| gridDim := nblocks; blockDim := nthreads; arg_A := A;
              arg_b := b; arg_conv_threshold := conv_threshold;
              arg_x := x_new; arg_x_new := x; arg_sum := d_sum |}] in
  graph ++ [MemcpyNode d_sum].

(** Lines 538-572: the executable graph after [cudaGraphInstantiate], or
    after [cudaGraphExecUpdate], which either succeeds or is followed by a
    new instantiation. *)
Definition instantiate_or_update (graphExec : option cudaGraph)
    (graph : cudaGraph) (update_succeeds : bool) : cudaGraph :=
  match graphExec with
  | None => graph
  | Some old => if update_succeeds then graph else graph
  end.

(** The loop of [JacobiMethodGpuCudaGraphExecUpdate] (lines 443-651);
    [updateResult_out k] tells whether the update of iteration [k]
    succeeds. *)
Fixpoint ExecUpdate_loop (updateResult_out : nat -> bool) (A b : ptr)
    (conv_threshold : F) (x x_new d_sum : ptr)
    (graphExec : option cudaGraph) (fuel k : nat) (st : gstate) (sum : F)
    : host_result :=
  match fuel with
  | O => {| res_state := st; res_sum := sum; res_k := k;
            res_printed := None |}
  | S fuel' =>
      let graph := captured_graph A b conv_threshold x x_new d_sum k in
      let exec := instantiate_or_update graphExec graph (updateResult_out k) in
      let hs := cudaGraphLaunch exec (st, sum) in
      match convergence_check conv_threshold x x_new d_sum k (fst hs)
              (snd hs) with
      | Some r => r
      | None =>
          ExecUpdate_loop updateResult_out A b conv_threshold x x_new d_sum
            (Some exec) fuel' (S k) (fst hs) (snd hs)
      end
  end.

(** [JacobiMethodGpuCudaGraphExecUpdate] (lines 417-656). *)
Definition JacobiMethodGpuCudaGraphExecUpdate (updateResult_out : nat -> bool)
    (A b : ptr) (conv_threshold : F) (max_iter : Z) (x x_new d_sum : ptr)
    (st : gstate) : host_result :=
  ExecUpdate_loop updateResult_out A b conv_threshold x x_new d_sum None
    (Z.to_nat max_iter) 0 st zero.

End JacobiModel.

(** ** Separable convolution: model of [convolutionSeparable.dp.cpp] *)

(** [convolutionSeparable_common.h] is not among the repository files: the
    kernel radius it defines is a parameter, and [KERNEL_LENGTH] is
    [2 * KERNEL_RADIUS + 1]. *)
Class convolutionSeparable_common_h : Type := { KERNEL_RADIUS : Z }.

(** Whether the translation unit is compiled with [NDEBUG], which turns
    [assert] into a no-op. *)
Class build_flags : Type := { NDEBUG : bool }.

Section ConvolutionModel.
Context {F : Type} {AF : Arith F}.
Context {CH : convolutionSeparable_common_h} {BF : build_flags}.
Local Open Scope Z_scope.

Definition KERNEL_LENGTH : Z := 2 * KERNEL_RADIUS + 1.

(** *** Device buffers, with their bounds *)

Record buffer : Type := {
  buf_len : Z;
  buf_data : Z -> F
}.

Definition in_bounds (p : buffer) (i : Z) : bool :=
  (0 <=? i) && (i <? buf_len p).

(** [p[i]], [None] when the access is out of bounds. *)
Definition load (p : buffer) (i : Z) : option F :=
  if in_bounds p i then Some (buf_data p i) else None.

(** [p[i] = v], [None] when the access is out of bounds. *)
Definition store (p : buffer) (i : Z) (v : F) : option buffer :=
  if in_bounds p i
  then Some {| buf_len := buf_len p;
               buf_data := fun j => if j =? i then v else buf_data p j |}
  else None.

(** The local array [s_Data]. *)
Definition tile : Type := Z -> Z -> F.

Definition tile_set (s : tile) (r c : Z) (v : F) : tile :=
  fun r' c' => if (r' =? r) && (c' =? c) then v else s r' c'.

(** *** Loops *)

Definition bind {A B : Type} (o : option A) (k : A -> option B) : option B :=
  match o with
  | Some a => k a
  | None => None
  end.

Fixpoint mfold {St A : Type} (f : St -> A -> option St) (l : list A) (s : St)
    : option St :=
  match l with
  | [] => Some s
  | a :: l' => bind (f s a) (mfold f l')
  end.

(** The values [lo], [lo + 1], ..., [hi - 1]. *)
Definition zrange (lo hi : Z) : list Z :=
  map (fun k => lo + Z.of_nat k) (seq 0 (Z.to_nat (hi - lo))).

(** [for (int i = lo; i < hi; i++) s = body i s;] with a body that may
    fault. *)
Definition for_range {St : Type} (lo hi : Z) (body : Z -> St -> option St)
    (s : St) : option St :=
  mfold (fun s i => body i s) (zrange lo hi) s.

(** [setConvolutionKernel]: [KERNEL_LENGTH] weights are copied into the
    constant memory [c_Kernel]. *)
Definition setConvolutionKernel (h_Kernel : Z -> F) (c_Kernel : Z -> F)
    : Z -> F :=
  fun i => if (0 <=? i) && (i <? KERNEL_LENGTH) then h_Kernel i
           else c_Kernel i.

(** A work-item of a two-dimensional dispatch: [get_group(2)],
    [get_group(1)], [get_local_id(2)] and [get_local_id(1)]. *)
Record nd_item2 : Type := {
  group_x : Z;
  group_y : Z;
  local_x : Z;
  local_y : Z
}.

(** The work-items of work-group [(gx, gy)] for a block of [bx] by [by_]
    threads. *)
Definition work_items (bx by_ gx gy : Z) : list nd_item2 :=
  flat_map
    (fun ly =>
       map (fun lx => {| group_x := gx; group_y := gy;
                         local_x := lx; local_y := ly |})
           (zrange 0 bx))
    (zrange 0 by_).

(** The work-groups of a grid of [nx] by [ny] blocks. *)
Definition work_groups (nx ny : Z) : list (Z * Z) :=
  flat_map (fun gy => map (fun gx => (gx, gy)) (zrange 0 nx)) (zrange 0 ny).

(** [sum] after the loop over [j] (lines 116-120 and 247-251); [tap j] is
    the element of [s_Data] the iteration reads. *)
Definition weighted_sum (c_Kernel : Z -> F) (tap : Z -> F) : F :=
  fold_left
    (fun sum j => sum [+] c_Kernel (KERNEL_RADIUS - j) [*] tap j)
    (zrange (- KERNEL_RADIUS) (KERNEL_RADIUS + 1)) zero.

(** *** The type [int] *)

Definition INT_MAX : Z := 2147483647.
Definition INT_MIN : Z := -2147483648.

(** A value of type [int], [None] when [int] cannot hold it.  The sum, the
    difference or the product of two [int]s that [int] cannot hold is an
    overflow, which is undefined behaviour: the kernel faults.  The ids of
    a work-item are converted to [int] when [baseX] and [baseY] are
    initialised; they lie below the dimensions of the grid, which the host
    function builds from [int]s, so that a converted value that [int]
    cannot hold does not arise, and the model faults on it as well. *)
Definition checked_int (z : Z) : option Z :=
  if (INT_MIN <=? z) && (z <=? INT_MAX) then Some z else None.

(** The [int] expression [baseY * pitch + baseX]. *)
Definition base_offset (baseY pitch baseX : Z) : option Z :=
  bind (checked_int (baseY * pitch)) (fun row => checked_int (row + baseX)).

(** *** Row convolution filter *)

Definition ROWS_BLOCKDIM_X : Z := 16.
Definition ROWS_BLOCKDIM_Y : Z := 4.
Definition ROWS_RESULT_STEPS : Z := 8.
Definition ROWS_HALO_STEPS : Z := 1.

(** Lines 63-100 of [convolutionRowsKernel], one work-item: the loads into
    [s_Data]. *)
Definition rows_load (d_Src : buffer) (imageW pitch : Z) (it : nd_item2)
    (s_Data : tile) : option tile :=
  bind (checked_int
          ((group_x it * ROWS_RESULT_STEPS - ROWS_HALO_STEPS)
           * ROWS_BLOCKDIM_X + local_x it))
  (fun baseX =>
  bind (checked_int (group_y it * ROWS_BLOCKDIM_Y + local_y it))
  (fun baseY =>
  (* d_Src += baseY * pitch + baseX; *)
  bind (base_offset baseY pitch baseX)
  (fun src =>
  let put s i v :=
    tile_set s (local_y it) (local_x it + i * ROWS_BLOCKDIM_X) v in
  (* load main data *)
  bind (for_range ROWS_HALO_STEPS (ROWS_HALO_STEPS + ROWS_RESULT_STEPS)
          (fun i s =>
             bind (load d_Src (src + i * ROWS_BLOCKDIM_X))
                  (fun v => Some (put s i v)))
          s_Data)
  (fun s_Data =>
  (* load left halo *)
  bind (for_range 0 ROWS_HALO_STEPS
          (fun i s =>
             bind (if baseX >=? - i * ROWS_BLOCKDIM_X
                   then load d_Src (src + i * ROWS_BLOCKDIM_X)
                   else Some zero)
                  (fun v => Some (put s i v)))
          s_Data)
  (fun s_Data =>
  (* load right halo *)
  for_range (ROWS_HALO_STEPS + ROWS_RESULT_STEPS)
    (ROWS_HALO_STEPS + ROWS_RESULT_STEPS + ROWS_HALO_STEPS)
    (fun i s =>
       bind (checked_int (imageW - baseX))
       (fun rest =>
       bind (if rest >? i * ROWS_BLOCKDIM_X
             then load d_Src (src + i * ROWS_BLOCKDIM_X)
             else Some zero)
            (fun v => Some (put s i v))))
    s_Data))))).

(** Lines 111-123 of [convolutionRowsKernel], one work-item: the results. *)
Definition rows_compute (pitch : Z) (c_Kernel : Z -> F) (s_Data : tile)
    (it : nd_item2) (d_Dst : buffer) : option buffer :=
  bind (checked_int
          ((group_x it * ROWS_RESULT_STEPS - ROWS_HALO_STEPS)
           * ROWS_BLOCKDIM_X + local_x it))
  (fun baseX =>
  bind (checked_int (group_y it * ROWS_BLOCKDIM_Y + local_y it))
  (fun baseY =>
  (* d_Dst += baseY * pitch + baseX; *)
  bind (base_offset baseY pitch baseX)
  (fun dst =>
  for_range ROWS_HALO_STEPS (ROWS_HALO_STEPS + ROWS_RESULT_STEPS)
    (fun i d_Dst =>
       let sum :=
         weighted_sum c_Kernel
           (fun j =>
              s_Data (local_y it) (local_x it + i * ROWS_BLOCKDIM_X + j)) in
       store d_Dst (dst + i * ROWS_BLOCKDIM_X) sum)
    d_Dst))).

(** One work-group of [convolutionRowsKernel] (lines 54-124); [s_Data0] is
    the content of the local array when the work-group starts. *)
Definition convolutionRowsKernel (d_Dst d_Src : buffer)
    (imageW imageH pitch : Z) (gx gy : Z) (c_Kernel : Z -> F)
    (s_Data0 : tile) : option buffer :=
  let items := work_items ROWS_BLOCKDIM_X ROWS_BLOCKDIM_Y gx gy in
  bind (mfold (fun s it => rows_load d_Src imageW pitch it s) items s_Data0)
  (fun s_Data =>
  (* item_ct1.barrier() *)
  mfold (fun d it => rows_compute pitch c_Kernel s_Data it d) items d_Dst).

(** How a host function ends. *)
Inductive outcome : Type :=
| AssertionFailed
| DeviceFault
| Completed (d_Dst : buffer).

(** [assert(e)]: execution goes on when [NDEBUG] is defined or [e] holds. *)
Definition assert (e : bool) : bool := NDEBUG || e.

(** [convolutionRowsGPU] (lines 126-168).  [%] and [/] on [int] are
    [Z.rem] and [Z.quot]. *)
Definition convolutionRowsGPU (c_Kernel : Z -> F) (s_Data0 : tile)
    (d_Dst d_Src : buffer) (imageW imageH : Z) : outcome :=
  if negb (assert (ROWS_BLOCKDIM_X * ROWS_HALO_STEPS >=? KERNEL_RADIUS))
  then AssertionFailed
  else if negb (assert (Z.rem imageW (ROWS_RESULT_STEPS * ROWS_BLOCKDIM_X)
                        =? 0))
  then AssertionFailed
  else if negb (assert (Z.rem imageH ROWS_BLOCKDIM_Y =? 0))
  then AssertionFailed
  else
    let blocks_x := Z.quot imageW (ROWS_RESULT_STEPS * ROWS_BLOCKDIM_X) in
    let blocks_y := Z.quot imageH ROWS_BLOCKDIM_Y in
    match mfold
            (fun d g =>
               convolutionRowsKernel d d_Src imageW imageH imageW
                 (fst g) (snd g) c_Kernel s_Data0)
            (work_groups blocks_x blocks_y) d_Dst with
    | Some d => Completed d
    | None => DeviceFault
    end.

(** *** Column convolution filter *)

Definition COLUMNS_BLOCKDIM_X : Z := 16.
Definition COLUMNS_BLOCKDIM_Y : Z := 8.
Definition COLUMNS_RESULT_STEPS : Z := 8.
Definition COLUMNS_HALO_STEPS : Z := 1.

(** Lines 189-231 of [convolutionColumnsKernel], one work-item. *)
Definition columns_load (d_Src : buffer) (imageH pitch : Z) (it : nd_item2)
    (s_Data : tile) : option tile :=
  bind (checked_int (group_x it * COLUMNS_BLOCKDIM_X + local_x it))
  (fun baseX =>
  bind (checked_int
          ((group_y it * COLUMNS_RESULT_STEPS - COLUMNS_HALO_STEPS)
           * COLUMNS_BLOCKDIM_Y + local_y it))
  (fun baseY =>
  (* d_Src += baseY * pitch + baseX; *)
  bind (base_offset baseY pitch baseX)
  (fun src =>
  let put s i v :=
    tile_set s (local_x it) (local_y it + i * COLUMNS_BLOCKDIM_Y) v in
  (* d_Src[i * COLUMNS_BLOCKDIM_Y * pitch] *)
  let get i :=
    bind (checked_int (i * COLUMNS_BLOCKDIM_Y * pitch))
         (fun k => load d_Src (src + k)) in
  (* main data *)
  bind (for_range COLUMNS_HALO_STEPS
          (COLUMNS_HALO_STEPS + COLUMNS_RESULT_STEPS)
          (fun i s => bind (get i) (fun v => Some (put s i v)))
          s_Data)
  (fun s_Data =>
  (* upper halo *)
  bind (for_range 0 COLUMNS_HALO_STEPS
          (fun i s =>
             bind (if baseY >=? - i * COLUMNS_BLOCKDIM_Y
                   then get i else Some zero)
                  (fun v => Some (put s i v)))
          s_Data)
  (fun s_Data =>
  (* lower halo *)
  for_range (COLUMNS_HALO_STEPS + COLUMNS_RESULT_STEPS)
    (COLUMNS_HALO_STEPS + COLUMNS_RESULT_STEPS + COLUMNS_HALO_STEPS)
    (fun i s =>
       bind (checked_int (imageH - baseY))
       (fun rest =>
       bind (if rest >? i * COLUMNS_BLOCKDIM_Y then get i else Some zero)
            (fun v => Some (put s i v))))
    s_Data))))).

(** Lines 242-254 of [convolutionColumnsKernel], one work-item. *)
Definition columns_compute (pitch : Z) (c_Kernel : Z -> F) (s_Data : tile)
    (it : nd_item2) (d_Dst : buffer) : option buffer :=
  bind (checked_int (group_x it * COLUMNS_BLOCKDIM_X + local_x it))
  (fun baseX =>
  bind (checked_int
          ((group_y it * COLUMNS_RESULT_STEPS - COLUMNS_HALO_STEPS)
           * COLUMNS_BLOCKDIM_Y + local_y it))
  (fun baseY =>
  (* d_Dst += baseY * pitch + baseX; *)
  bind (base_offset baseY pitch baseX)
  (fun dst =>
  for_range COLUMNS_HALO_STEPS (COLUMNS_HALO_STEPS + COLUMNS_RESULT_STEPS)
    (fun i d_Dst =>
       let sum :=
         weighted_sum c_Kernel
           (fun j =>
              s_Data (local_x it)
                (local_y it + i * COLUMNS_BLOCKDIM_Y + j)) in
       bind (checked_int (i * COLUMNS_BLOCKDIM_Y * pitch))
            (fun k => store d_Dst (dst + k) sum))
    d_Dst))).

(** One work-group of [convolutionColumnsKernel] (lines 178-255). *)
Definition convolutionColumnsKernel (d_Dst d_Src : buffer)
    (imageW imageH pitch : Z) (gx gy : Z) (c_Kernel : Z -> F)
    (s_Data0 : tile) : option buffer :=
  let items := work_items COLUMNS_BLOCKDIM_X COLUMNS_BLOCKDIM_Y gx gy in
  bind (mfold (fun s it => columns_load d_Src imageH pitch it s) items
          s_Data0)
  (fun s_Data =>
  (* item_ct1.barrier() *)
  mfold (fun d it => columns_compute pitch c_Kernel s_Data it d) items
    d_Dst).

(** [convolutionColumnsGPU] (lines 257-304). *)
Definition convolutionColumnsGPU (c_Kernel : Z -> F) (s_Data0 : tile)
    (d_Dst d_Src : buffer) (imageW imageH : Z) : outcome :=
  if negb (assert (COLUMNS_BLOCKDIM_Y * COLUMNS_HALO_STEPS >=? KERNEL_RADIUS))
  then AssertionFailed
  else if negb (assert (Z.rem imageW COLUMNS_BLOCKDIM_X =? 0))
  then AssertionFailed
  else if negb (assert (Z.rem imageH
                          (COLUMNS_RESULT_STEPS * COLUMNS_BLOCKDIM_Y) =? 0))
  then AssertionFailed
  else
    let blocks_x := Z.quot imageW COLUMNS_BLOCKDIM_X in
    let blocks_y :=
      Z.quot imageH (COLUMNS_RESULT_STEPS * COLUMNS_BLOCKDIM_Y) in
    match mfold
            (fun d g =>
               convolutionColumnsKernel d d_Src imageW imageH imageW
                 (fst g) (snd g) c_Kernel s_Data0)
            (work_groups blocks_x blocks_y) d_Dst with
    | Some d => Completed d
    | None => DeviceFault
    end.

End ConvolutionModel.

(** ** What the Jacobi kernels are to compute *)

Section JacobiSpec.
Context {F : Type} {AF : Arith F} {JH : jacobi_h}.

(** The sum of a list, added from left to right starting from zero. *)
Definition sum_list (l : list F) : F := fold_left add l zero.

(** [Σ_j A[i*N_ROWS+j]·x[j]] *)
Definition row_dot (m : @gmem F) (A x : ptr) (i : nat) : F :=
  sumF (fun j => m A (i * N_ROWS + j) [*] m x j) N_ROWS.

(** [dx = (b[i] - Σ_j A[i*N_ROWS+j]·x[j]) / A[i*N_ROWS+i]] *)
Definition jacobi_dx (m : @gmem F) (A b x : ptr) (i : nat) : F :=
  (m b i [-] row_dot m A x i) [/] m A (i * N_ROWS + i).

(** The rows of work-group [g] that lie inside the matrix. *)
Definition owned_rows (g : nat) : list nat :=
  filter (fun i => i <? N_ROWS) (seq (g * ROWS_PER_CTA) ROWS_PER_CTA).

(** [Σ |dx|] over the rows of work-group [g]. *)
Definition group_residual (m : @gmem F) (A b x : ptr) (g : nat) : F :=
  sum_list (map (fun i => fabs (jacobi_dx m A b x i)) (owned_rows g)).

(** [Σ_i |dx_i|] over all the rows. *)
Definition residual (m : @gmem F) (A b x : ptr) : F :=
  sumF (fun i => fabs (jacobi_dx m A b x i)) N_ROWS.

(** [Σ_i |x[i] - 1|] *)
Definition final_error (m : @gmem F) (x : ptr) : F :=
  sumF (fun i => fabs (m x i [-] one)) N_ROWS.

(** The partial sum of [finalError] for the work-item with global id [u] in
    a grid of [stride] work-items. *)
Definition grid_lane_sum (m : @gmem F) (x : ptr) (stride u : nat) : F :=
  for_stride N_ROWS u N_ROWS stride
    (fun i acc => acc [+] fabs (m x i [-] one)) zero.

End JacobiSpec.

(** *** The iterations of the drivers *)

Section JacobiIterations.
Context {F : Type} {AF : Arith F} {DEV : Device F} {JH : jacobi_h}.
Variables (A b : ptr) (conv_threshold : F) (x x_new d_sum : ptr).

(** The buffer iteration [k] reads the iterate from, and the one it writes
    the next iterate to. *)
Definition current_iterate (k : nat) : ptr :=
  if even_iteration k then x else x_new.

Definition next_iterate (k : nat) : ptr :=
  if even_iteration k then x_new else x.

(** Iteration [k] up to the copy of the accumulator: the memset and the
    dispatch of [JacobiMethod]. *)
Definition jacobi_iteration (k : nat) (st : gstate) : gstate :=
  launch_JacobiMethod nblocks nthreads A b conv_threshold
    (current_iterate k) (next_iterate k) d_sum (memset_zero d_sum st).

(** Device memory after the iterations [0 .. k-1]. *)
Fixpoint jacobi_state (k : nat) (st : gstate) : gstate :=
  match k with
  | O => st
  | S k' => jacobi_iteration k' (jacobi_state k' st)
  end.

(** The value iteration [k] leaves in the accumulator, which the driver
    copies into [sum]. *)
Definition accumulator_after (k : nat) (st : gstate) : F :=
  g_mem (jacobi_state (S k) st) d_sum 0.

(** [Σ_i |dx_i|] for iteration [k]. *)
Definition iteration_residual (k : nat) (st : gstate) : F :=
  residual (g_mem (jacobi_state k st)) A b (current_iterate k).

(** Lines 758-823 after a convergence at iteration [k]: the accumulator is
    cleared and [finalError] is dispatched on the buffer iteration [k]
    wrote. *)
Definition final_error_pass (k : nat) (st : gstate) : gstate :=
  launch_finalError (N_ROWS / nthreads + 1) nthreads (next_iterate k) d_sum
    (memset_zero d_sum st).

End JacobiIterations.

(** *** The Jacobi iterates *)

Section JacobiReference.
Context {F : Type} {AF : Arith F} {JH : jacobi_h}.

(** One Jacobi sweep on the vector [v], for the matrix [A] and the
    right-hand side [b] held in the memory [m]:
    [v_i + (b[i] - Σ_j A[i*N_ROWS+j]·v_j) / A[i*N_ROWS+i]]. *)
Definition jacobi_sweep (m : @gmem F) (A b : ptr) (v : nat -> F)
    : nat -> F :=
  fun i =>
    v i [+] (m b i [-] sumF (fun j => m A (i * N_ROWS + j) [*] v j) N_ROWS)
            [/] m A (i * N_ROWS + i).

(** The number of dispatches of [JacobiMethod] a driver has run when it
    returns: [k + 1] when the loop broke at iteration [k], [k] when it ran
    out of iterations. *)
Definition sweeps_run (r : @host_result F) : nat :=
  match res_printed r with
  | Some _ => S (res_k r)
  | None => res_k r
  end.

End JacobiReference.

(** ** What the convolution passes are to compute *)

Section ConvolutionSpec.
Context {F : Type} {AF : Arith F} {CH : convolutionSeparable_common_h}.
Local Open Scope Z_scope.

(** The pixel of column [c] of row [y], zero when the column is outside
    [[0, imageW)]. *)
Definition padded_row (d_Src : @buffer F) (imageW pitch y c : Z) : F :=
  if (0 <=? c) && (c <? imageW) then buf_data d_Src (y * pitch + c)
  else zero.

(** [Σ_{j=-KERNEL_RADIUS}^{KERNEL_RADIUS} kernel[KERNEL_RADIUS-j]·v_j]: the
    [2 * KERNEL_RADIUS + 1] terms, the term of rank [k] being that of
    [j = k - KERNEL_RADIUS], are added in the order of [j] starting from
    zero. *)
Definition kernel_sum (kernel : Z -> F) (v : Z -> F) : F :=
  sumF (fun k =>
          kernel (KERNEL_RADIUS - (Z.of_nat k - KERNEL_RADIUS))
          [*] v (Z.of_nat k - KERNEL_RADIUS))
       (Z.to_nat (2 * KERNEL_RADIUS + 1)).

(** [Σ_{j=-KERNEL_RADIUS}^{KERNEL_RADIUS} kernel[KERNEL_RADIUS-j]·src[y*pitch+x+j]],
    the reads outside the row replaced by zero. *)
Definition row_convolution (c_Kernel : Z -> F) (d_Src : @buffer F)
    (imageW pitch x y : Z) : F :=
  kernel_sum c_Kernel (fun j => padded_row d_Src imageW pitch y (x + j)).

(** The pixel of row [r] of column [x], zero when the row is outside
    [[0, imageH)]. *)
Definition padded_column (d_Src : @buffer F) (imageH pitch x r : Z) : F :=
  if (0 <=? r) && (r <? imageH) then buf_data d_Src (r * pitch + x)
  else zero.

(** The same sum along a column. *)
Definition column_convolution (c_Kernel : Z -> F) (d_Src : @buffer F)
    (imageH pitch x y : Z) : F :=
  kernel_sum c_Kernel (fun j => padded_column d_Src imageH pitch x (y + j)).

(** The identity kernel of radius 2, [[0, 0, 1, 0, 0]]. *)
Definition identity_kernel : Z -> F :=
  fun i => if i =? 2 then one else zero.

(** What [s_Data[r][c]] holds in work-group [(gx, gy)] of the row pass once
    the loads are done. *)
Definition rows_tile (d_Src : @buffer F) (imageW pitch gx gy r c : Z) : F :=
  padded_row d_Src imageW pitch (gy * ROWS_BLOCKDIM_Y + r)
    ((gx * ROWS_RESULT_STEPS - ROWS_HALO_STEPS) * ROWS_BLOCKDIM_X + c).

(** What [s_Data[r][c]] holds in work-group [(gx, gy)] of the column pass
    once the loads are done. *)
Definition columns_tile (d_Src : @buffer F) (imageH pitch gx gy r c : Z)
    : F :=
  padded_column d_Src imageH pitch (gx * COLUMNS_BLOCKDIM_X + r)
    ((gy * COLUMNS_RESULT_STEPS - COLUMNS_HALO_STEPS) * COLUMNS_BLOCKDIM_Y
     + c).

(** The pixel [loc = (x, y)] of the destination [d] holds the row
    convolution. *)
Definition rows_done (c_Kernel : Z -> F) (d_Src : @buffer F) (imageW : Z)
    (loc : Z * Z) (d : @buffer F) : Prop :=
  0 <= fst loc < imageW /\
  buf_data d (snd loc * imageW + fst loc)
  = row_convolution c_Kernel d_Src imageW imageW (fst loc) (snd loc).

(** The pixel [loc = (x, y)] of the destination [d] holds the column
    convolution. *)
Definition columns_done (c_Kernel : Z -> F) (d_Src : @buffer F)
    (imageW imageH : Z) (loc : Z * Z) (d : @buffer F) : Prop :=
  0 <= fst loc < imageW /\
  buf_data d (snd loc * imageW + fst loc)
  = column_convolution c_Kernel d_Src imageH imageW (fst loc) (snd loc).

(** The values a tap of a pass can read: a pixel of the image, or the zero
    that pads it. *)
Definition pixel_value (d_Src : @buffer F) (imageW imageH : Z) (v : F)
    : Prop :=
  v = zero \/ exists i, 0 <= i < imageW * imageH /\ v = buf_data d_Src i.

(** What the identity kernel needs of two values [v] and [w] it meets:
    a product by zero adds nothing to zero nor to [v], and the product of
    [v] by one added to zero is [v]. *)
Definition well_behaved (v w : F) : Prop :=
  zero [+] zero [*] v = zero /\
  zero [+] one [*] v = v /\
  v [+] zero [*] w = v.

(** The offsets, in an image of pitch [imageW], of the pixels of the first
    [bw] columns and [bh] rows. *)
Definition block_pixel (imageW bw bh i : Z) : Prop :=
  exists x y, 0 <= x < bw /\ 0 <= y < bh /\ i = y * imageW + x.

(** [d] has the length of [d0] and its elements outside the region [R] are
    those of [d0]. *)
Definition same_outside (R : Z -> Prop) (d0 d : @buffer F) : Prop :=
  buf_len d = buf_len d0 /\
  forall i, ~ R i -> buf_data d i = buf_data d0 i.

(** The separable convolution at pixel [(x, y)]: the weighted sum, along the
    column, of the row convolutions, the rows outside [[0, imageH)] replaced
    by zero. *)
Definition separable_convolution (c_Kernel : Z -> F) (d_Src : @buffer F)
    (imageW imageH x y : Z) : F :=
  kernel_sum c_Kernel
    (fun i =>
       if (0 <=? y + i) && (y + i <? imageH)
       then row_convolution c_Kernel d_Src imageW imageW x (y + i)
       else zero).

End ConvolutionSpec.

(** ** A concrete system for the Jacobi solver *)

(** The system of order 512 with [A = 4·I], [b = (4, ..., 4)] and the initial
    guess [x = 0], in exact rational arithmetic; its solution is the all-ones
    vector.  The buffers [A], [b], [x], [x_new] and [d_sum] are the
    allocations 0 to 4; the diagonal of [A] is made of the elements whose
    offset [i * 512 + i] is a multiple of 513. *)
Definition system_512 : jacobi_h := {| N_ROWS := 512 |}.

Definition rational_device : Device Qc :=
  {| unspecified_shift := fun _ _ v => v;
     uninitialized_local := fun _ => Q2Qc 0 |}.

Definition system_mem : @gmem Qc :=
  fun p i =>
    match p with
    | 0 => if i mod 513 =? 0 then Q2Qc 4 else Q2Qc 0
    | 1 => Q2Qc 4
    | _ => Q2Qc 0
    end.

Definition system_state : @gstate Qc :=
  {| g_mem := system_mem; g_trace := [] |}.

(** Work-group 0 of a dispatch of [JacobiMethod] by the drivers. *)
Definition first_group : nd_item :=
  {| get_group := 0; get_local_range := 256; get_group_range := 66 |}.

(** The last work-group of a dispatch of [JacobiMethod] by the drivers: its
    rows, 520 to 527, lie below the matrix. *)
Definition last_group : nd_item :=
  {| get_group := 65; get_local_range := 256; get_group_range := 66 |}.

(** ** Concrete images for the convolution passes *)

(** Kernel radii (the sample's header is not among the files; the identity
    kernel [[0, 0, 1, 0, 0]] has radius 2), and a build in which [assert] is
    active. *)
Definition radius_8 : convolutionSeparable_common_h :=
  {| KERNEL_RADIUS := 8 |}.

Definition radius_2 : convolutionSeparable_common_h :=
  {| KERNEL_RADIUS := 2 |}.

Definition assertions_on : build_flags := {| NDEBUG := false |}.

(** A build with [-DNDEBUG]. *)
Definition assertions_off : build_flags := {| NDEBUG := true |}.

(** binary32 values. *)
Definition two32 : spec_float := S754_finite false 8388608 (-22).
Definition infinity32 : spec_float := S754_infinity false.

(** Local memory and constant memory before they are written, and a
    destination of [n] elements. *)
Definition stale_tile : @tile spec_float := fun _ _ => S754_nan.
Definition stale_kernel : Z -> spec_float := fun _ => S754_nan.
Definition blank_buffer (n : Z) : @buffer spec_float :=
  {| buf_len := n; buf_data := fun _ => S754_nan |}.

(** A kernel whose weights are 1.0 but the weight of index 0, which is
    2.0. *)
Definition ramp_kernel : Z -> spec_float :=
  fun i => if (i =? 0)%Z then two32 else one.

(** 11.0 and 101.0 in binary32. *)
Definition eleven32 : spec_float := S754_finite false 11534336 (-20).
Definition hundred_and_one32 : spec_float :=
  S754_finite false 13238272 (-17).

(** An image of [n] pixels, all 1.0 but the first, which is [v]. *)
Definition image_with (v : spec_float) (n : Z) : @buffer spec_float :=
  {| buf_len := n; buf_data := fun i => if (i =? 0)%Z then v else one |}.

(** * Proofs *)

(** ** Folds and loops *)

Section LoopFacts.
Context {F : Type} {AF : Arith F}.

Lemma fold_left_preserves {St A : Type} (f : St -> A -> St) (P : St -> Prop)
    (l : list A) (s : St) :
  (forall s a, In a l -> P s -> P (f s a)) -> P s -> P (fold_left f l s).
Proof.
  revert s. induction l as [|a l IH]; intros s Hf Hs; simpl; auto.
  apply IH.
  - intros s' b Hb. apply Hf. now right.
  - apply Hf; auto. now left.
Qed.

Lemma fold_left_establishes {St A : Type} (f : St -> A -> St)
    (Q : St -> Prop) (l : list A) (a : A) (s : St) :
  In a l ->
  (forall s, Q (f s a)) ->
  (forall s b, In b l -> Q s -> Q (f s b)) ->
  Q (fold_left f l s).
Proof.
  revert s. induction l as [|b l IH]; intros s Hin Ha Hp; simpl.
  - destruct Hin.
  - destruct Hin as [-> | Hin].
    + apply fold_left_preserves; auto.
      intros s' b Hb. apply Hp. now right.
    + apply IH; auto. intros s' c Hc. apply Hp. now right.
Qed.

(** One element of a duplicate-free list turns [P] into [Q]; the others
    leave both alone. *)
Lemma fold_left_transforms {St A : Type} (f : St -> A -> St)
    (P Q : St -> Prop) (l : list A) (a : A) (s : St) :
  NoDup l -> In a l -> P s ->
  (forall s, P s -> Q (f s a)) ->
  (forall s b, In b l -> b <> a -> P s -> P (f s b)) ->
  (forall s b, In b l -> b <> a -> Q s -> Q (f s b)) ->
  Q (fold_left f l s).
Proof.
  revert s. induction l as [|b l IH]; intros s Hnd Hin Hs Ha HP HQ; simpl.
  - destruct Hin.
  - inversion Hnd as [|? ? Hnotin Hnd']; subst.
    destruct Hin as [-> | Hin].
    + apply fold_left_preserves; auto.
      intros s' b Hb. apply HQ; [now right|].
      intros ->. contradiction.
    + assert (b <> a) by (intros ->; contradiction).
      apply IH; auto.
      * apply HP; auto. now left.
      * intros s' c Hc. apply HP. now right.
      * intros s' c Hc. apply HQ. now right.
Qed.

Lemma fold_left_map_seq {St A B : Type} (f : St -> B -> St) (g : A -> B)
    (l : list A) (s : St) :
  fold_left f (map g l) s = fold_left (fun s a => f s (g a)) l s.
Proof. revert s. induction l; simpl; auto. Qed.

Lemma fold_left_ext_in {St A : Type} (f g : St -> A -> St) (l : list A)
    (s : St) :
  (forall s a, In a l -> f s a = g s a) -> fold_left f l s = fold_left g l s.
Proof.
  revert s. induction l as [|a l IH]; intros s H; simpl; auto.
  rewrite H by now left. apply IH. intros s' b Hb. apply H. now right.
Qed.

Lemma for_stride_preserves {St : Type} (P : St -> Prop)
    (body : nat -> St -> St) (fuel i bound step : nat) (s : St) :
  (forall j s, i <= j -> j < bound -> P s -> P (body j s)) ->
  P s -> P (for_stride fuel i bound step body s).
Proof.
  revert i s. induction fuel as [|fuel IH]; intros i s Hb Hs; simpl; auto.
  destruct (Nat.ltb_spec i bound); auto.
  apply IH.
  - intros j s' Hj. apply Hb. lia.
  - apply Hb; auto.
Qed.

Lemma for_stride_establishes {St : Type} (Q : St -> Prop)
    (body : nat -> St -> St) (fuel i bound step q : nat) (s : St) :
  q < fuel -> i + q * step < bound ->
  (forall s, Q (body (i + q * step) s)) ->
  (forall j s, Q s -> Q (body j s)) ->
  Q (for_stride fuel i bound step body s).
Proof.
  revert i q s. induction fuel as [|fuel IH]; intros i q s Hq Hj He Hp.
  - lia.
  - simpl. destruct (Nat.ltb_spec i bound) as [Hi|Hi]; [|nia].
    destruct q as [|q].
    + apply for_stride_preserves; auto.
      replace (i + 0 * step) with i in He by lia. apply He.
    + apply (IH (i + step) q); try lia.
      * intros s'. replace (i + step + q * step) with (i + S q * step) by lia.
        apply He.
      * assumption.
Qed.

(** Enough fuel: beyond [bound - i] iterations the fuel does not matter. *)
Lemma for_stride_fuel {St : Type} (body : nat -> St -> St)
    (fuel fuel' i bound step : nat) (s : St) :
  0 < step -> bound - i <= fuel -> bound - i <= fuel' ->
  for_stride fuel i bound step body s = for_stride fuel' i bound step body s.
Proof.
  intros Hstep. revert fuel' i s.
  induction fuel as [|fuel IH]; intros fuel' i s H1 H2.
  - destruct fuel'; simpl; auto.
    destruct (Nat.ltb_spec i bound); auto; lia.
  - destruct fuel' as [|fuel']; simpl.
    + destruct (Nat.ltb_spec i bound); auto; lia.
    + destruct (Nat.ltb_spec i bound); auto.
      apply IH; lia.
Qed.

(** A loop over the rows of a work-group whose step is the number of rows
    runs its body at most once. *)
Lemma rows_loop_once {St : Type} (body : nat -> nat -> St -> St)
    (fuel k i kbound ibound kstep istep : nat) (s : St) :
  kbound <= k + kstep ->
  rows_loop (S fuel) k i kbound ibound kstep istep body s =
  if (k <? kbound) && (i <? ibound) then body k i s else s.
Proof.
  intros Hk. simpl.
  destruct ((k <? kbound) && (i <? ibound)); auto.
  destruct fuel; simpl; auto.
  destruct (Nat.ltb_spec (k + kstep) kbound); auto; lia.
Qed.

(** A loop over the rows with unit steps visits the rows one by one. *)
Lemma rows_loop_unit {St : Type} (body : nat -> nat -> St -> St)
    (fuel k i kbound ibound : nat) (s : St) :
  rows_loop fuel k i kbound ibound 1 1 body s =
  fold_left (fun s d => body (k + d) (i + d) s)
    (seq 0 (Nat.min fuel (Nat.min (kbound - k) (ibound - i)))) s.
Proof.
  revert k i s. induction fuel as [|fuel IH]; intros k i s; simpl; auto.
  destruct (Nat.ltb_spec k kbound) as [Hk|Hk];
    destruct (Nat.ltb_spec i ibound) as [Hi|Hi]; simpl.
  - rewrite IH.
    replace (Nat.min (kbound - k) (ibound - i))
      with (S (Nat.min (kbound - (k + 1)) (ibound - (i + 1)))) by lia.
    simpl. rewrite !Nat.add_0_r.
    rewrite <- seq_shift, fold_left_map_seq.
    apply fold_left_ext_in. intros s' d _.
    now replace (k + 1 + d) with (k + S d) by lia;
        replace (i + 1 + d) with (i + S d) by lia.
  - replace (ibound - i) with 0 by lia. now rewrite Nat.min_0_r.
  - replace (kbound - k) with 0 by lia. reflexivity.
  - replace (kbound - k) with 0 by lia. reflexivity.
Qed.

Lemma upd_same (f : nat -> F) (i : nat) (v : F) : upd f i v i = v.
Proof. unfold upd. now rewrite Nat.eqb_refl. Qed.

Lemma upd_other (f : nat -> F) (i j : nat) (v : F) :
  j <> i -> upd f i v j = f j.
Proof. unfold upd. intros H. now apply Nat.eqb_neq in H as ->. Qed.

Lemma sumF_ext (f g : nat -> F) (n : nat) :
  (forall i, i < n -> f i = g i) -> sumF f n = sumF g n.
Proof.
  induction n as [|n IH]; intros H; simpl; auto.
  rewrite IH, H; auto.
Qed.

End LoopFacts.

(** ** Sums in exact arithmetic *)

Section SumFacts.
Context {F : Type} {AF : Arith F} {EA : ExactArith F}.

Lemma add_zero_r (a : F) : a [+] zero = a.
Proof. rewrite add_comm. apply add_zero_l. Qed.

(** [(a + b) + (c + d) = (a + c) + (b + d)] *)
Lemma add_swap (a b c d : F) :
  (a [+] b) [+] (c [+] d) = (a [+] c) [+] (b [+] d).
Proof.
  rewrite <- (add_assoc a b), (add_assoc b c d), (add_comm b c).
  now rewrite <- (add_assoc c b d), (add_assoc a c).
Qed.

Lemma sumF_zero (n : nat) : sumF (fun _ => zero) n = zero.
Proof. induction n; simpl; auto. rewrite IHn. apply add_zero_l. Qed.

Lemma sumF_all_zero (f : nat -> F) (n : nat) :
  (forall i, i < n -> f i = zero) -> sumF f n = zero.
Proof.
  intros H. rewrite (sumF_ext f (fun _ => zero)); auto using sumF_zero.
Qed.

Lemma sumF_add (f g : nat -> F) (n : nat) :
  sumF (fun i => f i [+] g i) n = sumF f n [+] sumF g n.
Proof.
  induction n; simpl.
  - now rewrite add_zero_l.
  - rewrite IHn. apply add_swap.
Qed.

Lemma sumF_app (f : nat -> F) (n m : nat) :
  sumF f (n + m) = sumF f n [+] sumF (fun i => f (n + i)) m.
Proof.
  induction m; simpl.
  - now rewrite Nat.add_0_r, add_zero_r.
  - rewrite Nat.add_succ_r. simpl. rewrite IHm. now rewrite add_assoc.
Qed.

Lemma sumF_first (f : nat -> F) (n : nat) :
  sumF f (S n) = f 0 [+] sumF (fun i => f (S i)) n.
Proof.
  change (S n) with (1 + n). rewrite sumF_app. simpl. now rewrite add_zero_l.
Qed.

(** Terms beyond [n] that are zero do not count. *)
Lemma sumF_truncate (f : nat -> F) (n m : nat) :
  n <= m -> (forall i, n <= i -> i < m -> f i = zero) ->
  sumF f m = sumF f n.
Proof.
  intros Hle Hz. replace m with (n + (m - n)) by lia.
  rewrite sumF_app, (sumF_all_zero (fun i => f (n + i))); [apply add_zero_r|].
  intros i Hi. apply Hz; lia.
Qed.

Lemma sumF_exchange (f : nat -> nat -> F) (n m : nat) :
  sumF (fun i => sumF (fun j => f i j) m) n =
  sumF (fun j => sumF (fun i => f i j) n) m.
Proof.
  induction n; simpl.
  - now rewrite sumF_zero.
  - rewrite IHn. now rewrite <- sumF_add.
Qed.

(** A sum over [n] blocks of [w] consecutive terms. *)
Lemma sumF_blocks (f : nat -> F) (w n : nat) :
  sumF (fun s => sumF (fun l => f (s * w + l)) w) n = sumF f (n * w).
Proof.
  induction n; simpl; auto.
  rewrite IHn, (Nat.add_comm w), sumF_app. reflexivity.
Qed.

(** The partial sums of [w] lanes striding through an index range add up to
    the sum over the range. *)
Lemma sumF_strided (g : nat -> F) (w q : nat) :
  sumF (fun t => sumF (fun k => g (t + k * w)) q) w = sumF g (q * w).
Proof.
  rewrite sumF_exchange, <- sumF_blocks.
  apply sumF_ext. intros k _. apply sumF_ext. intros t _.
  now rewrite Nat.add_comm.
Qed.

Lemma sumF_opp (f : nat -> F) (n : nat) :
  sumF (fun i => [~] f i) n = [~] sumF f n.
Proof.
  induction n; simpl.
  - now rewrite opp_zero.
  - now rewrite IHn, opp_add.
Qed.

(** Accumulating into [acc] over [0, n). *)
Lemma fold_left_add_sumF (h : nat -> F) (n : nat) (acc : F) :
  fold_left (fun acc a => acc [+] h a) (seq 0 n) acc = acc [+] sumF h n.
Proof.
  induction n.
  - simpl. now rewrite add_zero_r.
  - rewrite seq_S, fold_left_app. simpl. rewrite IHn. now rewrite add_assoc.
Qed.

(** The accumulation of a strided loop, as a sum over the iteration count. *)
Lemma for_stride_sum (f : nat -> F) (fuel i bound step : nat) (acc : F) :
  for_stride fuel i bound step (fun j acc => acc [+] f j) acc =
  acc [+] sumF (fun q => if i + q * step <? bound
                         then f (i + q * step) else zero) fuel.
Proof.
  revert i acc. induction fuel as [|fuel IH]; intros i acc.
  - simpl. now rewrite add_zero_r.
  - rewrite sumF_first. cbn [for_stride].
    replace (i + 0 * step) with i by lia.
    destruct (Nat.ltb_spec i bound) as [Hi|Hi].
    + rewrite IH, <- add_assoc. f_equal. f_equal.
      apply sumF_ext. intros q _.
      now replace (i + step + q * step) with (i + S q * step) by lia.
    + rewrite sumF_all_zero.
      * now rewrite !add_zero_r.
      * intros q _. destruct (Nat.ltb_spec (i + S q * step) bound); auto; lia.
Qed.

(** The lanes [0 .. w-1] of a work-group (or of a grid), each running the
    loop [for (j = t; j < n; j += w)], accumulate the whole sum. *)
Lemma strided_lanes_sum (f : nat -> F) (n w : nat) :
  0 < w ->
  sumF (fun t => for_stride n t n w (fun j acc => acc [+] f j) zero) w =
  sumF f n.
Proof.
  intros Hw.
  set (g := fun j => if j <? n then f j else zero).
  transitivity (sumF (fun t => sumF (fun q => g (t + q * w)) n) w).
  - apply sumF_ext. intros t _. rewrite for_stride_sum. apply add_zero_l.
  - rewrite (sumF_strided g w n), (sumF_truncate g n (n * w)).
    + apply sumF_ext. intros i Hi. unfold g.
      now destruct (Nat.ltb_spec i n); [|lia].
    + nia.
    + intros i Hi _. unfold g. now destruct (Nat.ltb_spec i n); [lia|].
Qed.

End SumFacts.

(** ** Sub-group reductions *)

Section ShuffleFacts.
Context {F : Type} {AF : Arith F} {DEV : Device F}.

Lemma nth_map_seq (g : nat -> F) (n l : nat) (d : F) :
  l < n -> nth l (map g (seq 0 n)) d = g l.
Proof.
  intros H. rewrite (nth_indep _ d (g 0)) by now rewrite length_map, length_seq.
  rewrite map_nth, seq_nth; auto.
Qed.

Lemma nth_map_seq_from (g : nat -> F) (start n l : nat) (d : F) :
  l < n -> nth l (map g (seq start n)) d = g (start + l).
Proof.
  intros H.
  rewrite (nth_indep _ d (g 0)) by now rewrite length_map, length_seq.
  rewrite map_nth, seq_nth; auto.
Qed.

Lemma shuffle_reduce_length (shift : list F -> nat -> nat -> F)
    (fuel offset : nat) (vals : list F) :
  length (shuffle_reduce shift fuel offset vals) = length vals.
Proof.
  revert offset vals. induction fuel as [|fuel IH]; intros offset vals; auto.
  simpl. destruct (0 <? offset); auto.
  now rewrite IH, length_map, length_seq.
Qed.

Lemma head_nth (l : list F) (d : F) :
  0 < length l -> exists tl, l = nth 0 l d :: tl.
Proof. destruct l; simpl; [lia|eauto]. Qed.

Lemma shift_group_left_in_range (vals : list F) (lane delta : nat) :
  lane + delta < length vals ->
  shift_group_left vals lane delta = nth (lane + delta) vals zero.
Proof.
  intros H. unfold shift_group_left.
  now rewrite (nth_error_nth' vals zero H).
Qed.

Lemma shift_sub_group_left_in_range (w : nat) (vals : list F)
    (lane delta : nat) :
  lane + delta < w -> w <= length vals ->
  shift_sub_group_left w vals lane delta = nth (lane + delta) vals zero.
Proof.
  intros H Hw. unfold shift_sub_group_left.
  rewrite Nat.div_small by lia. simpl. rewrite Nat.add_0_r.
  destruct (Nat.leb_spec w (lane + delta)); [lia|].
  apply shift_group_left_in_range. lia.
Qed.

Lemma pow2_pos (m : nat) : 0 < 2 ^ m.
Proof. apply Nat.neq_0_lt_0, Nat.pow_nonzero. lia. Qed.

Lemma pow2_half (m : nat) : 2 ^ S m / 2 = 2 ^ m.
Proof. rewrite Nat.pow_succ_r', Nat.mul_comm. apply Nat.div_mul. lia. Qed.

Context {EA : ExactArith F}.

(** After the halving loop started at offset [2 ^ m], the first lane holds
    the sum of the registers of the lanes [0 .. 2 ^ (m+1) - 1]. *)
Lemma shuffle_reduce_head (shift : list F -> nat -> nat -> F) (w : nat) :
  (forall vs lane delta,
     length vs = w -> lane + delta < w ->
     shift vs lane delta = nth (lane + delta) vs zero) ->
  forall m fuel vals,
    length vals = w -> 2 ^ S m <= w -> m < fuel ->
    nth 0 (shuffle_reduce shift fuel (2 ^ m) vals) zero =
    sumF (fun l => nth l vals zero) (2 ^ S m).
Proof.
  intros Hshift. induction m as [|m IH]; intros fuel vals Hlen Hw Hfuel.
  - destruct fuel as [|fuel]; [lia|].
    cbn [shuffle_reduce]. change (2 ^ 0) with 1. change (0 <? 1) with true.
    cbv iota. change (1 / 2) with 0.
    assert (Hstop : forall vs, shuffle_reduce shift fuel 0 vs = vs)
      by (destruct fuel; reflexivity).
    rewrite Hstop, Hlen, nth_map_seq by (simpl in Hw; lia).
    rewrite Hshift by (simpl in Hw; auto; lia).
    simpl. now rewrite add_zero_l.
  - destruct fuel as [|fuel]; [lia|].
    cbn [shuffle_reduce].
    destruct (Nat.ltb_spec 0 (2 ^ S m)) as [_|Hc];
      [|pose proof (pow2_pos (S m)); lia].
    rewrite pow2_half, Hlen.
    pose proof (pow2_pos (S m)) as Hpos.
    assert (H2 : 2 ^ S (S m) = 2 ^ S m + 2 ^ S m)
      by (rewrite (Nat.pow_succ_r' 2 (S m)); lia).
    rewrite IH; try lia; [|now rewrite length_map, length_seq].
    rewrite H2, sumF_app, <- sumF_add.
    apply sumF_ext. intros l Hl.
    rewrite nth_map_seq by lia.
    now rewrite Hshift, (Nat.add_comm l) by lia.
Qed.

(** The first lane of a full sub-group ends with the sum of the registers
    of the 32 lanes. *)
Lemma sub_group_reduce_head (vals : list F) :
  length vals = SUB_GROUP_SIZE ->
  exists tl,
    sub_group_reduce vals =
    sumF (fun l => nth l vals zero) SUB_GROUP_SIZE :: tl.
Proof.
  intros Hlen. unfold sub_group_reduce.
  destruct (head_nth (shuffle_reduce shift_group_left (length vals)
                        (length vals / 2) vals) zero) as [tl Htl].
  - rewrite shuffle_reduce_length, Hlen. unfold SUB_GROUP_SIZE. lia.
  - exists tl. rewrite Htl at 1. f_equal.
    rewrite Hlen.
    assert (Hshift : forall vs lane delta,
              length vs = 32 -> lane + delta < 32 ->
              shift_group_left vs lane delta = nth (lane + delta) vs zero)
      by (intros vs lane delta Hvs Hld; apply shift_group_left_in_range; lia).
    assert (Hle : 2 ^ 5 <= 32) by (simpl; lia).
    assert (Hlt : 4 < 32) by lia.
    exact (shuffle_reduce_head shift_group_left 32 Hshift 4 32 vals Hlen Hle
             Hlt).
Qed.

(** The first lane of [tile8] ends with the sum of the registers of its
    [ROWS_PER_CTA] lanes. *)
Lemma tile_reduce_head (temps : list F) :
  length temps = ROWS_PER_CTA ->
  exists tl,
    tile_reduce temps = sumF (fun l => nth l temps zero) ROWS_PER_CTA :: tl.
Proof.
  intros Hlen. unfold tile_reduce.
  destruct (head_nth (shuffle_reduce (shift_sub_group_left ROWS_PER_CTA)
                        ROWS_PER_CTA (ROWS_PER_CTA / 2) temps) zero)
    as [tl Htl].
  - rewrite shuffle_reduce_length, Hlen. unfold ROWS_PER_CTA. lia.
  - exists tl. rewrite Htl at 1. f_equal.
    assert (Hshift : forall vs lane delta,
              length vs = 8 -> lane + delta < 8 ->
              shift_sub_group_left 8 vs lane delta
              = nth (lane + delta) vs zero)
      by (intros vs lane delta Hvs Hld;
          apply shift_sub_group_left_in_range; lia).
    assert (Hle : 2 ^ 3 <= 8) by (simpl; lia).
    assert (Hlt : 2 < 8) by lia.
    exact (shuffle_reduce_head (shift_sub_group_left 8) 8 Hshift 2 8 temps
             Hlen Hle Hlt).
Qed.

End ShuffleFacts.

(** ** The kernel [JacobiMethod] *)

Section JacobiKernelFacts.
Context {F : Type} {AF : Arith F} {DEV : Device F} {JH : jacobi_h}.
Local Abbreviation gmem := (@gmem F).
Local Abbreviation gstate := (@gstate F).
Local Abbreviation lmem := (@lmem F).

(** A work-group of [32 * nw] work-items is made of [nw] full sub-groups. *)
Lemma sub_groups_full (item : nd_item) (nw : nat) :
  get_local_range item = SUB_GROUP_SIZE * nw ->
  sub_groups item = seq 0 nw.
Proof.
  intros H. unfold sub_groups. f_equal. rewrite H. unfold SUB_GROUP_SIZE.
  replace (32 * nw + 32 - 1) with (nw * 32 + 31) by lia.
  rewrite Nat.div_add_l by lia. now rewrite Nat.add_0_r.
Qed.

Lemma sub_group_lanes_full (item : nd_item) (nw s : nat) :
  get_local_range item = SUB_GROUP_SIZE * nw -> s < nw ->
  sub_group_lanes item s = seq (s * SUB_GROUP_SIZE) SUB_GROUP_SIZE.
Proof.
  intros H Hs. unfold sub_group_lanes. f_equal. rewrite H.
  unfold SUB_GROUP_SIZE. nia.
Qed.

Lemma slot_injective (g t k : nat) :
  t < ROWS_PER_CTA -> k < ROWS_PER_CTA ->
  (t + g * ROWS_PER_CTA) mod (ROWS_PER_CTA + 1)
  = (k + g * ROWS_PER_CTA) mod (ROWS_PER_CTA + 1) ->
  t = k.
Proof.
  unfold ROWS_PER_CTA. simpl (8 + 1). intros Ht Hk H.
  pose proof (Nat.div_mod_eq (t + g * 8) 9).
  pose proof (Nat.div_mod_eq (k + g * 8) 9).
  lia.
Qed.

Lemma rows_loop_cta {St : Type} (body : nat -> nat -> St -> St)
    (k i ibound : nat) (s : St) :
  rows_loop ROWS_PER_CTA k i ROWS_PER_CTA ibound ROWS_PER_CTA ROWS_PER_CTA
    body s =
  if (k <? ROWS_PER_CTA) && (i <? ibound) then body k i s else s.
Proof. apply (rows_loop_once body 7 k i 8 ibound 8 8 s). lia. Qed.

(** *** Lines 66-78: staging *)

Lemma x_shared_fold_stage (m : gmem) (b x : ptr) (item : nd_item)
    (lanes : list nat) (lm : lmem) :
  x_shared (fold_left (fun lm t => stage_lane m b x item t lm) lanes lm) =
  fold_left
    (fun xs t =>
       for_stride N_ROWS t N_ROWS (get_local_range item)
         (fun i xs => upd xs i (m x i)) xs)
    lanes (x_shared lm).
Proof. revert lm. induction lanes; intros lm; simpl; auto. Qed.

Lemma b_shared_fold_stage (m : gmem) (b x : ptr) (item : nd_item)
    (lanes : list nat) (lm : lmem) :
  b_shared (fold_left (fun lm t => stage_lane m b x item t lm) lanes lm) =
  fold_left
    (fun bs t =>
       if t <? ROWS_PER_CTA
       then rows_loop ROWS_PER_CTA t (t + get_group item * ROWS_PER_CTA)
              ROWS_PER_CTA N_ROWS ROWS_PER_CTA ROWS_PER_CTA
              (fun _ i bs => upd bs (i mod (ROWS_PER_CTA + 1)) (m b i)) bs
       else bs)
    lanes (b_shared lm).
Proof. revert lm. induction lanes; intros lm; simpl; auto. Qed.

(** After the first barrier [x_shared] holds the current iterate. *)
Lemma staged_x (m : gmem) (b x : ptr) (item : nd_item) (lm : lmem) (j : nat) :
  0 < get_local_range item -> j < N_ROWS ->
  x_shared
    (fold_left (fun lm t => stage_lane m b x item t lm)
       (seq 0 (get_local_range item)) lm) j = m x j.
Proof.
  intros HL Hj. rewrite x_shared_fold_stage.
  set (L := get_local_range item) in *.
  apply (fold_left_establishes _ (fun xs => xs j = m x j) _ (j mod L)).
  - apply in_seq. pose proof (Nat.mod_upper_bound j L). lia.
  - intros xs.
    apply (for_stride_establishes (fun xs => xs j = m x j) _ _ _ _ _ (j / L)).
    + pose proof (Nat.Div0.div_le_upper_bound j L j).
      assert (j / L <= j) by (apply Nat.Div0.div_le_upper_bound; nia). lia.
    + pose proof (Nat.div_mod_eq j L). lia.
    + intros s. replace (j mod L + j / L * L) with j
        by (pose proof (Nat.div_mod_eq j L); lia).
      apply upd_same.
    + intros i s Hs. unfold upd. destruct (Nat.eqb_spec j i); subst; auto.
  - intros xs t _ Hxs.
    apply for_stride_preserves; auto.
    intros i s _ _ Hs. unfold upd. destruct (Nat.eqb_spec j i); subst; auto.
Qed.

(** After the first barrier the slot of every owned row holds its [b]. *)
Lemma staged_b (m : gmem) (b x : ptr) (item : nd_item) (lm : lmem) (k : nat) :
  ROWS_PER_CTA <= get_local_range item ->
  k < ROWS_PER_CTA -> k + get_group item * ROWS_PER_CTA < N_ROWS ->
  b_shared
    (fold_left (fun lm t => stage_lane m b x item t lm)
       (seq 0 (get_local_range item)) lm)
    ((k + get_group item * ROWS_PER_CTA) mod (ROWS_PER_CTA + 1))
  = m b (k + get_group item * ROWS_PER_CTA).
Proof.
  intros HL Hk Hi. rewrite b_shared_fold_stage.
  set (g := get_group item) in *.
  apply (fold_left_establishes _
           (fun bs => bs ((k + g * ROWS_PER_CTA) mod (ROWS_PER_CTA + 1))
                      = m b (k + g * ROWS_PER_CTA)) _ k).
  - apply in_seq. lia.
  - intros bs. rewrite rows_loop_cta.
    destruct (Nat.ltb_spec k ROWS_PER_CTA); [|lia].
    destruct (Nat.ltb_spec (k + g * ROWS_PER_CTA) N_ROWS); [|lia].
    simpl. apply upd_same.
  - intros bs t _ Hbs. destruct (Nat.ltb_spec t ROWS_PER_CTA) as [Ht|Ht]; auto.
    rewrite rows_loop_cta.
    destruct ((t <? ROWS_PER_CTA) && (t + g * ROWS_PER_CTA <? N_ROWS)); auto.
    unfold upd.
    destruct (Nat.eqb_spec ((k + g * ROWS_PER_CTA) mod (ROWS_PER_CTA + 1))
                ((t + g * ROWS_PER_CTA) mod (ROWS_PER_CTA + 1))) as [E|E]; auto.
    apply slot_injective in E; [now subst | lia | lia].
Qed.

(** *** Lines 89-107: the residual of every owned row *)

Lemma fold_left_upd_acc (c : nat -> F) (slot : nat) (l : list nat)
    (bs : nat -> F) :
  fold_left (fun bs s => upd bs slot (bs slot [+] c s)) l bs slot =
  fold_left (fun acc s => acc [+] c s) l (bs slot).
Proof.
  revert bs. induction l as [|s l IH]; intros bs; simpl; auto.
  now rewrite IH, upd_same.
Qed.

Lemma fold_left_upd_acc_other (c : nat -> F) (slot j : nat) (l : list nat)
    (bs : nat -> F) :
  j <> slot ->
  fold_left (fun bs s => upd bs slot (bs slot [+] c s)) l bs j = bs j.
Proof.
  intros Hj. revert bs. induction l as [|s l IH]; intros bs; simpl; auto.
  now rewrite IH, upd_other.
Qed.

(** The sub-group leaders' atomic additions, in canonical form. *)
Lemma row_step_canonical (m : gmem) (A : ptr) (item : nd_item)
    (xs : nat -> F) (i : nat) (bs : nat -> F) (nw : nat) {EA : ExactArith F} :
  get_local_range item = SUB_GROUP_SIZE * nw ->
  row_step m A item xs i bs =
  fold_left
    (fun bs s =>
       upd bs (i mod (ROWS_PER_CTA + 1))
         (bs (i mod (ROWS_PER_CTA + 1))
          [+] [~] sumF (fun l => rowThreadSum m A item xs i
                                   (s * SUB_GROUP_SIZE + l))
                    SUB_GROUP_SIZE))
    (seq 0 nw) bs.
Proof.
  intros HL. unfold row_step. rewrite (sub_groups_full item nw HL).
  apply fold_left_ext_in. intros bs' s Hs. apply in_seq in Hs.
  rewrite (sub_group_lanes_full item nw s HL) by lia.
  destruct (sub_group_reduce_head
              (map (rowThreadSum m A item xs i)
                   (seq (s * SUB_GROUP_SIZE) SUB_GROUP_SIZE))) as [tl ->].
  - now rewrite length_map, length_seq.
  - do 2 f_equal. f_equal. apply sumF_ext. intros l Hl.
    now rewrite nth_map_seq_from.
Qed.

Section Exact.
Context {EA : ExactArith F}.

(** The sum of a list filtered from a range, as a sum over the range. *)
Lemma sum_list_filter_seq (h : nat -> F) (bound base n : nat) :
  sum_list (map h (filter (fun i => i <? bound) (seq base n))) =
  sumF (fun k => if base + k <? bound then h (base + k) else zero) n.
Proof.
  unfold sum_list. induction n as [|n IH]; auto.
  rewrite seq_S, filter_app, map_app, fold_left_app, IH. simpl.
  destruct (base + n <? bound); simpl; auto. now rewrite add_zero_r.
Qed.

(** Row [i]: the slot of the row loses the dot product of the row with the
    staged iterate; the other slots are untouched. *)
Lemma row_step_slot (m : gmem) (A : ptr) (item : nd_item) (xs : nat -> F)
    (i : nat) (bs : nat -> F) (nw : nat) :
  get_local_range item = SUB_GROUP_SIZE * nw -> 0 < nw ->
  row_step m A item xs i bs (i mod (ROWS_PER_CTA + 1)) =
  bs (i mod (ROWS_PER_CTA + 1))
  [-] sumF (fun j => m A (i * N_ROWS + j) [*] xs j) N_ROWS.
Proof.
  intros HL Hnw. rewrite (row_step_canonical m A item xs i bs nw HL).
  rewrite (fold_left_upd_acc
             (fun s => [~] sumF (fun l => rowThreadSum m A item xs i
                                            (s * SUB_GROUP_SIZE + l))
                             SUB_GROUP_SIZE)).
  rewrite (fold_left_add_sumF
             (fun s => [~] sumF (fun l => rowThreadSum m A item xs i
                                            (s * SUB_GROUP_SIZE + l))
                             SUB_GROUP_SIZE)).
  rewrite (sumF_opp
             (fun s => sumF (fun l => rowThreadSum m A item xs i
                                        (s * SUB_GROUP_SIZE + l))
                         SUB_GROUP_SIZE)).
  rewrite (sumF_blocks (rowThreadSum m A item xs i) SUB_GROUP_SIZE nw).
  rewrite sub_def. do 2 f_equal.
  unfold rowThreadSum. rewrite HL, (Nat.mul_comm nw).
  apply (strided_lanes_sum (fun j => m A (i * N_ROWS + j) [*] xs j)).
  unfold SUB_GROUP_SIZE. lia.
Qed.

Lemma row_step_other (m : gmem) (A : ptr) (item : nd_item) (xs : nat -> F)
    (i j : nat) (bs : nat -> F) (nw : nat) :
  get_local_range item = SUB_GROUP_SIZE * nw ->
  j <> i mod (ROWS_PER_CTA + 1) ->
  row_step m A item xs i bs j = bs j.
Proof.
  intros HL Hj. rewrite (row_step_canonical m A item xs i bs nw HL).
  now apply (fold_left_upd_acc_other
               (fun s => [~] sumF (fun l => rowThreadSum m A item xs i
                                              (s * SUB_GROUP_SIZE + l))
                               SUB_GROUP_SIZE)).
Qed.

(** After the second barrier the slot of every owned row holds
    [b[i] - Σ_j A[i*N_ROWS+j]·x_shared[j]]. *)
Lemma reduced_b (m : gmem) (A : ptr) (item : nd_item) (xs bs : nat -> F)
    (nw k : nat) :
  get_local_range item = SUB_GROUP_SIZE * nw -> 0 < nw ->
  k < ROWS_PER_CTA -> k + get_group item * ROWS_PER_CTA < N_ROWS ->
  let i := k + get_group item * ROWS_PER_CTA in
  rows_loop ROWS_PER_CTA 0 (get_group item * ROWS_PER_CTA)
    ROWS_PER_CTA N_ROWS 1 1
    (fun _ i bs => row_step m A item xs i bs) bs
    (i mod (ROWS_PER_CTA + 1))
  = bs (i mod (ROWS_PER_CTA + 1))
    [-] sumF (fun j => m A (i * N_ROWS + j) [*] xs j) N_ROWS.
Proof.
  intros HL Hnw Hk Hi i. rewrite rows_loop_unit.
  set (g := get_group item) in *.
  set (slot := i mod (ROWS_PER_CTA + 1)).
  set (target := bs slot
                 [-] sumF (fun j => m A (i * N_ROWS + j) [*] xs j) N_ROWS).
  apply (fold_left_transforms _
           (fun bs' => bs' slot = bs slot) (fun bs' => bs' slot = target)
           _ k).
  - apply seq_NoDup.
  - apply in_seq. unfold ROWS_PER_CTA in *. lia.
  - reflexivity.
  - intros bs' Hbs'. replace (g * ROWS_PER_CTA + k) with i by (unfold i; lia).
    unfold slot. rewrite (row_step_slot m A item xs i bs' nw HL Hnw).
    fold slot. now rewrite Hbs'.
  - intros bs' d Hd Hdk Hbs'. apply in_seq in Hd.
    rewrite (row_step_other m A item xs _ slot bs' nw HL); auto.
    unfold slot, i. rewrite (Nat.add_comm (g * ROWS_PER_CTA) d).
    intros E. apply slot_injective in E; unfold ROWS_PER_CTA in *; lia.
  - intros bs' d Hd Hdk Hbs'. apply in_seq in Hd.
    rewrite (row_step_other m A item xs _ slot bs' nw HL); auto.
    unfold slot, i. rewrite (Nat.add_comm (g * ROWS_PER_CTA) d).
    intros E. apply slot_injective in E; unfold ROWS_PER_CTA in *; lia.
Qed.

End Exact.

(** *** Lines 116-139: the update of the owned rows *)

Lemma gstore_same (p : ptr) (i : nat) (v : F) (m : gmem) :
  gstore p i v m p i = v.
Proof. unfold gstore. now rewrite !Nat.eqb_refl. Qed.

Lemma gstore_other (p q : ptr) (i j : nat) (v : F) (m : gmem) :
  ~ (q = p /\ j = i) -> gstore p i v m q j = m q j.
Proof.
  unfold gstore. intros H.
  destruct (Nat.eqb_spec q p); destruct (Nat.eqb_spec j i); simpl; auto.
  tauto.
Qed.

Lemma filter_none {A : Type} (p : A -> bool) (l : list A) :
  (forall a, In a l -> p a = false) -> filter p l = [].
Proof.
  induction l as [|a l IH]; intros H; simpl; auto.
  rewrite (H a) by now left. apply IH. intros b Hb. apply H. now right.
Qed.

(** The work-items that pass [get_local_id(2) < ROWS_PER_CTA]. *)
Lemma active_lanes (L : nat) :
  ROWS_PER_CTA <= L ->
  filter (fun t => t <? ROWS_PER_CTA) (seq 0 L) = seq 0 ROWS_PER_CTA.
Proof.
  intros H. replace L with (ROWS_PER_CTA + (L - ROWS_PER_CTA)) by lia.
  rewrite seq_app, filter_app, (filter_none _ (seq _ (L - ROWS_PER_CTA))).
  - now rewrite app_nil_r.
  - intros t Ht. apply in_seq in Ht. apply Nat.ltb_ge. lia.
Qed.

Lemma update_lane_once (A x_new : ptr) (item : nd_item) (lm : lmem)
    (t : nat) (st : gstate) :
  let i := t + get_group item * ROWS_PER_CTA in
  let dx := b_shared lm (i mod (ROWS_PER_CTA + 1))
            [/] g_mem st A (i * N_ROWS + i) in
  update_lane A x_new item lm t st =
  if (t <? ROWS_PER_CTA) && (i <? N_ROWS)
  then (do_store x_new i (x_shared lm i [+] dx) st, zero [+] fabs dx)
  else (st, zero).
Proof. intros i dx. unfold update_lane. now rewrite rows_loop_cta. Qed.

(** The state and the list of [temp_sum] after the work-items [0 .. n-1]. *)
Lemma update_phase_prefix (A x_new : ptr) (item : nd_item) (lm : lmem)
    (st : gstate) (n : nat) :
  A <> x_new -> n <= ROWS_PER_CTA ->
  let g := get_group item in
  let dxk k :=
    b_shared lm ((k + g * ROWS_PER_CTA) mod (ROWS_PER_CTA + 1))
    [/] g_mem st A ((k + g * ROWS_PER_CTA) * N_ROWS
                    + (k + g * ROWS_PER_CTA)) in
  let U :=
    fold_left
      (fun (acc : gstate * list F) t =>
         let r := update_lane A x_new item lm t (fst acc) in
         (fst r, snd acc ++ [snd r]))
      (seq 0 n) (st, []) in
  (forall k, k < n -> k + g * ROWS_PER_CTA < N_ROWS ->
     g_mem (fst U) x_new (k + g * ROWS_PER_CTA)
     = x_shared lm (k + g * ROWS_PER_CTA) [+] dxk k) /\
  (forall p j,
     ~ (p = x_new /\ g * ROWS_PER_CTA <= j < g * ROWS_PER_CTA + n
        /\ j < N_ROWS) ->
     g_mem (fst U) p j = g_mem st p j) /\
  snd U = map (fun k => if k + g * ROWS_PER_CTA <? N_ROWS
                        then zero [+] fabs (dxk k) else zero) (seq 0 n) /\
  g_trace (fst U)
  = g_trace st
    ++ map (EvStore x_new)
         (filter (fun i => i <? N_ROWS) (seq (g * ROWS_PER_CTA) n)).
Proof.
  intros HA Hn g dxk. induction n as [|n IH].
  - simpl. repeat split; auto; try lia. now rewrite app_nil_r.
  - rewrite !seq_S, fold_left_app, filter_app, map_app.
    cbn [fold_left fst snd map filter app Nat.add].
    destruct IH as (IH1 & IH2 & IH3 & IH4); [lia|].
    set (U := fold_left _ (seq 0 n) (st, [])) in *.
    rewrite update_lane_once.
    assert (HAm : g_mem (fst U) A ((n + g * ROWS_PER_CTA) * N_ROWS
                                   + (n + g * ROWS_PER_CTA))
                  = g_mem st A ((n + g * ROWS_PER_CTA) * N_ROWS
                                + (n + g * ROWS_PER_CTA)))
      by (apply IH2; intros [E _]; congruence).
    fold g. rewrite HAm. fold (dxk n).
    rewrite (Nat.add_comm (g * ROWS_PER_CTA) n).
    destruct (Nat.ltb_spec n ROWS_PER_CTA) as [_|]; [|lia].
    destruct (Nat.ltb_spec (n + g * ROWS_PER_CTA) N_ROWS) as [Hin|Hout];
      cbn [andb fst snd map app do_store g_mem g_trace].
    + repeat split.
      * intros k Hk Hki. destruct (Nat.eq_dec k n) as [->|Hkn].
        -- apply gstore_same.
        -- rewrite gstore_other by lia. apply IH1; lia.
      * intros p j Hpj. rewrite gstore_other by (intros [-> ->]; lia).
        apply IH2. intros (-> & Hj & Hj'). apply Hpj. lia.
      * rewrite IH3. reflexivity.
      * rewrite IH4, map_app. now rewrite <- app_assoc.
    + repeat split.
      * intros k Hk Hki. apply IH1; lia.
      * intros p j Hpj. apply IH2. intros (-> & Hj & Hj'). apply Hpj. lia.
      * rewrite IH3. reflexivity.
      * now rewrite IH4, app_nil_r.
Qed.

End JacobiKernelFacts.

Section JacobiGroupFacts.
Context {F : Type} {AF : Arith F} {DEV : Device F} {JH : jacobi_h}.
Context {EA : ExactArith F}.
Local Abbreviation gmem := (@gmem F).
Local Abbreviation gstate := (@gstate F).
Local Abbreviation lmem := (@lmem F).

(** What a work-item divides by the diagonal coefficient is
    [b[i] - Σ_j A[i*N_ROWS+j]·x[j]]. *)
Lemma kernel_dx (A b x : ptr) (item : nd_item) (lm0 : lmem) (st : gstate)
    (nw k : nat) :
  get_local_range item = SUB_GROUP_SIZE * nw -> 0 < nw ->
  k < ROWS_PER_CTA -> k + get_group item * ROWS_PER_CTA < N_ROWS ->
  let lm1 :=
    fold_left (fun lm t => stage_lane (g_mem st) b x item t lm)
      (seq 0 (get_local_range item)) lm0 in
  let bs2 :=
    rows_loop ROWS_PER_CTA 0 (get_group item * ROWS_PER_CTA)
      ROWS_PER_CTA N_ROWS 1 1
      (fun _ i bs => row_step (g_mem st) A item (x_shared lm1) i bs)
      (b_shared lm1) in
  let i := k + get_group item * ROWS_PER_CTA in
  bs2 (i mod (ROWS_PER_CTA + 1)) [/] g_mem st A (i * N_ROWS + i)
  = jacobi_dx (g_mem st) A b x i.
Proof.
  intros HL Hnw Hk Hi lm1 bs2 i. unfold jacobi_dx. f_equal.
  unfold bs2, i.
  rewrite (reduced_b (g_mem st) A item (x_shared lm1) (b_shared lm1) nw k)
    by assumption.
  assert (HL8 : ROWS_PER_CTA <= get_local_range item)
    by (rewrite HL; unfold ROWS_PER_CTA, SUB_GROUP_SIZE; lia).
  assert (HL0 : 0 < get_local_range item)
    by (unfold ROWS_PER_CTA in HL8; lia).
  unfold lm1. rewrite staged_b by assumption. f_equal.
  unfold row_dot. apply sumF_ext. intros j Hj.
  now rewrite staged_x.
Qed.

(** One work-group of [JacobiMethod]: the owned rows of [x_new], the
    residual accumulator, every other location, and the trace. *)
Lemma JacobiMethod_group_spec (A b : ptr) (conv_threshold : F)
    (x x_new sum : ptr) (item : nd_item) (lm0 : lmem) (st : gstate)
    (nw : nat) :
  get_local_range item = SUB_GROUP_SIZE * nw -> 0 < nw ->
  A <> x_new -> sum <> x_new ->
  (forall i, In i (owned_rows (get_group item)) ->
     g_mem (JacobiMethod A b conv_threshold x x_new sum item lm0 st) x_new i
     = g_mem st x i [+] jacobi_dx (g_mem st) A b x i) /\
  g_mem (JacobiMethod A b conv_threshold x x_new sum item lm0 st) sum 0
  = g_mem st sum 0 [+] group_residual (g_mem st) A b x (get_group item) /\
  (forall p j,
     ~ (p = x_new /\ In j (owned_rows (get_group item))) ->
     ~ (p = sum /\ j = 0) ->
     g_mem (JacobiMethod A b conv_threshold x x_new sum item lm0 st) p j
     = g_mem st p j) /\
  g_trace (JacobiMethod A b conv_threshold x x_new sum item lm0 st)
  = g_trace st ++ map (EvStore x_new) (owned_rows (get_group item))
    ++ [EvAtomicAdd sum 0].
Proof.
  intros HL Hnw HA Hsum.
  assert (HL8 : ROWS_PER_CTA <= get_local_range item)
    by (rewrite HL; unfold ROWS_PER_CTA, SUB_GROUP_SIZE; lia).
  assert (HL0 : 0 < get_local_range item)
    by (unfold ROWS_PER_CTA in HL8; lia).
  unfold JacobiMethod, update_phase. cbv zeta.
  rewrite (active_lanes _ HL8).
  set (g := get_group item).
  set (lm1 := fold_left (fun lm t => stage_lane (g_mem st) b x item t lm)
                (seq 0 (get_local_range item)) lm0).
  set (bs2 := rows_loop ROWS_PER_CTA 0 (g * ROWS_PER_CTA) ROWS_PER_CTA
                N_ROWS 1 1
                (fun _ i bs => row_step (g_mem st) A item (x_shared lm1) i bs)
                (b_shared lm1)).
  set (lm2 := {| x_shared := x_shared lm1; b_shared := bs2 |}).
  destruct (update_phase_prefix A x_new item lm2 st ROWS_PER_CTA HA
              (le_n _)) as (U1 & U2 & U3 & U4).
  fold g in U1, U2, U3, U4.
  change (b_shared lm2) with bs2 in U1, U3.
  change (x_shared lm2) with (x_shared lm1) in U1.
  set (U := fold_left _ (seq 0 ROWS_PER_CTA) (st, [])) in *.
  assert (Hdx : forall k, k < ROWS_PER_CTA -> k + g * ROWS_PER_CTA < N_ROWS ->
            bs2 ((k + g * ROWS_PER_CTA) mod (ROWS_PER_CTA + 1))
            [/] g_mem st A ((k + g * ROWS_PER_CTA) * N_ROWS
                            + (k + g * ROWS_PER_CTA))
            = jacobi_dx (g_mem st) A b x (k + g * ROWS_PER_CTA))
    by (intros k Hk Hki;
        apply (kernel_dx A b x item lm0 st nw k HL Hnw Hk Hki)).
  assert (Hown : forall i, In i (owned_rows g) <->
            exists k, k < ROWS_PER_CTA /\ i = k + g * ROWS_PER_CTA
                      /\ i < N_ROWS).
  { intros i. unfold owned_rows. rewrite filter_In, in_seq, Nat.ltb_lt.
    split.
    - intros [Hi Hn]. exists (i - g * ROWS_PER_CTA). lia.
    - intros (k & Hk & -> & Hn). lia. }
  destruct (tile_reduce_head (snd U)) as [tl Htl].
  { now rewrite U3, length_map, length_seq. }
  rewrite Htl. unfold do_atomic_add. cbn [g_mem g_trace].
  repeat split.
  - intros i Hi. apply Hown in Hi as (k & Hk & -> & Hn).
    rewrite gstore_other by (intros [E _]; congruence).
    rewrite U1, Hdx by assumption. f_equal.
    unfold lm1. now apply staged_x.
  - rewrite gstore_same. f_equal.
    + apply U2. intros [E _]. congruence.
    + unfold group_residual, owned_rows.
      rewrite (sum_list_filter_seq
                 (fun i => fabs (jacobi_dx (g_mem st) A b x i))).
      apply sumF_ext. intros k Hk. rewrite U3, nth_map_seq by assumption.
      rewrite (Nat.add_comm (g * ROWS_PER_CTA) k).
      destruct (Nat.ltb_spec (k + g * ROWS_PER_CTA) N_ROWS); auto.
      now rewrite add_zero_l, Hdx.
  - intros p j Hx Hs. rewrite gstore_other by assumption.
    apply U2. intros (-> & Hj & Hn). apply Hx. split; auto.
    apply Hown. exists (j - g * ROWS_PER_CTA). lia.
  - rewrite U4. now rewrite <- app_assoc.
Qed.

End JacobiGroupFacts.

(** ** A dispatch of [JacobiMethod] *)

Section JacobiLaunchFacts.
Context {F : Type} {AF : Arith F} {DEV : Device F} {JH : jacobi_h}.
Context {EA : ExactArith F}.
Local Abbreviation gmem := (@gmem F).
Local Abbreviation gstate := (@gstate F).

Lemma row_dot_ext (m1 m2 : gmem) (A x : ptr) (i : nat) :
  (forall j, m1 A j = m2 A j) -> (forall j, m1 x j = m2 x j) ->
  row_dot m1 A x i = row_dot m2 A x i.
Proof.
  intros HA Hx. unfold row_dot. apply sumF_ext. intros j _.
  now rewrite HA, Hx.
Qed.

Lemma jacobi_dx_ext (m1 m2 : gmem) (A b x : ptr) (i : nat) :
  (forall j, m1 A j = m2 A j) -> (forall j, m1 b j = m2 b j) ->
  (forall j, m1 x j = m2 x j) ->
  jacobi_dx m1 A b x i = jacobi_dx m2 A b x i.
Proof.
  intros HA Hb Hx. unfold jacobi_dx.
  now rewrite (row_dot_ext m1 m2 A x i HA Hx), HA, Hb.
Qed.

(** The residual of a work-group, as a sum over its eight rows. *)
Lemma group_residual_sumF (m : gmem) (A b x : ptr) (g : nat) :
  group_residual m A b x g =
  sumF (fun k => (fun i => if i <? N_ROWS
                           then fabs (jacobi_dx m A b x i) else zero)
                   (g * ROWS_PER_CTA + k)) ROWS_PER_CTA.
Proof.
  unfold group_residual, owned_rows.
  apply (sum_list_filter_seq (fun i => fabs (jacobi_dx m A b x i))).
Qed.

(** The state after the work-groups [0 .. n-1]. *)
Lemma launch_JacobiMethod_prefix (nb nthr nw : nat) (A b : ptr)
    (conv_threshold : F) (x x_new sum : ptr) (st : gstate) (n : nat) :
  nthr = SUB_GROUP_SIZE * nw -> 0 < nw ->
  A <> x_new -> b <> x_new -> x <> x_new -> sum <> x_new ->
  A <> sum -> b <> sum -> x <> sum ->
  let m := g_mem st in
  let st' :=
    fold_left
      (fun st g =>
         JacobiMethod A b conv_threshold x x_new sum
           {| get_group := g; get_local_range := nthr;
              get_group_range := nb |}
           {| x_shared := uninitialized_local;
              b_shared := uninitialized_local |} st)
      (seq 0 n) st in
  (forall i, i < n * ROWS_PER_CTA -> i < N_ROWS ->
     g_mem st' x_new i = m x i [+] jacobi_dx m A b x i) /\
  g_mem st' sum 0
  = m sum 0
    [+] sumF (fun i => if i <? N_ROWS
                       then fabs (jacobi_dx m A b x i) else zero)
          (n * ROWS_PER_CTA) /\
  (forall p j,
     ~ (p = x_new /\ j < n * ROWS_PER_CTA /\ j < N_ROWS) ->
     ~ (p = sum /\ j = 0) ->
     g_mem st' p j = m p j).
Proof.
  intros Hthr Hnw HAn Hbn Hxn Hsn HAs Hbs Hxs m.
  induction n as [|n IH].
  - simpl. repeat split; auto; try lia. now rewrite add_zero_r.
  - rewrite seq_S, fold_left_app. cbn [fold_left Nat.add].
    destruct IH as (I1 & I2 & I3).
    set (stn := fold_left _ (seq 0 n) st) in *.
    set (item := {| get_group := n; get_local_range := nthr;
                    get_group_range := nb |}).
    destruct (JacobiMethod_group_spec A b conv_threshold x x_new sum item
                {| x_shared := uninitialized_local;
                   b_shared := uninitialized_local |} stn nw)
      as (G1 & G2 & G3 & _); auto.
    change (get_group item) with n in G1, G2, G3.
    assert (Hsame : forall p, p <> x_new -> p <> sum ->
              forall j, g_mem stn p j = m p j)
      by (intros p Hp1 Hp2 j; apply I3; tauto).
    assert (Hdx : forall i, jacobi_dx (g_mem stn) A b x i
                            = jacobi_dx m A b x i)
      by (intros i; apply jacobi_dx_ext; auto).
    assert (Hown : forall i, In i (owned_rows n) <->
              n * ROWS_PER_CTA <= i < S n * ROWS_PER_CTA /\ i < N_ROWS).
    { intros i. unfold owned_rows.
      rewrite filter_In, in_seq, Nat.ltb_lt. lia. }
    repeat split.
    + intros i Hi HiN.
      destruct (Nat.lt_ge_cases i (n * ROWS_PER_CTA)) as [Hlt|Hge].
      * rewrite G3; [now apply I1| |intros [E _]; congruence].
        intros [_ Hin]. apply Hown in Hin. lia.
      * rewrite G1 by (apply Hown; lia).
        now rewrite Hdx, (Hsame x).
    + rewrite G2, I2, group_residual_sumF, <- add_assoc. f_equal.
      replace (S n * ROWS_PER_CTA) with (n * ROWS_PER_CTA + ROWS_PER_CTA)
        by lia.
      rewrite sumF_app. f_equal. apply sumF_ext. intros k _.
      cbv beta. now rewrite Hdx.
    + intros p j Hx Hs. rewrite G3; auto.
      * apply I3; auto. intros (-> & Hj & HjN). apply Hx. lia.
      * intros [-> Hin]. apply Hown in Hin. apply Hx. lia.
Qed.

(** A dispatch of [JacobiMethod] over a grid that covers the matrix: every
    row of [x_new] is updated, the accumulator grows by the residual, and
    nothing else changes. *)
Lemma launch_JacobiMethod_spec (nb nthr nw : nat) (A b : ptr)
    (conv_threshold : F) (x x_new sum : ptr) (st : gstate) :
  nthr = SUB_GROUP_SIZE * nw -> 0 < nw -> N_ROWS <= nb * ROWS_PER_CTA ->
  A <> x_new -> b <> x_new -> x <> x_new -> sum <> x_new ->
  A <> sum -> b <> sum -> x <> sum ->
  let m := g_mem st in
  let st' :=
    launch_JacobiMethod nb nthr A b conv_threshold x x_new sum st in
  (forall i, i < N_ROWS ->
     g_mem st' x_new i = m x i [+] jacobi_dx m A b x i) /\
  g_mem st' sum 0 = m sum 0 [+] residual m A b x /\
  (forall p j,
     ~ (p = x_new /\ j < N_ROWS) -> ~ (p = sum /\ j = 0) ->
     g_mem st' p j = m p j).
Proof.
  intros Hthr Hnw Hcover HAn Hbn Hxn Hsn HAs Hbs Hxs m st'.
  destruct (launch_JacobiMethod_prefix nb nthr nw A b conv_threshold x x_new
              sum st nb Hthr Hnw HAn Hbn Hxn Hsn HAs Hbs Hxs)
    as (I1 & I2 & I3).
  fold m in I1, I2, I3. repeat split.
  - intros i Hi. apply I1; lia.
  - unfold st', launch_JacobiMethod, parallel_for. rewrite I2. f_equal.
    unfold residual. rewrite (sumF_truncate _ N_ROWS) by
      (auto; intros i Hi _; destruct (Nat.ltb_spec i N_ROWS); auto; lia).
    apply sumF_ext. intros i Hi.
    destruct (Nat.ltb_spec i N_ROWS); auto; lia.
  - intros p j Hx Hs. apply I3; auto. tauto.
Qed.

End JacobiLaunchFacts.

(** ** The kernel [finalError] and its dispatch *)

Section FinalErrorFacts.
Context {F : Type} {AF : Arith F} {DEV : Device F} {JH : jacobi_h}.
Context {EA : ExactArith F}.
Local Abbreviation gmem := (@gmem F).
Local Abbreviation gstate := (@gstate F).

Lemma filter_ltb_seq (bnd L : nat) :
  bnd <= L -> filter (fun t => t <? bnd) (seq 0 L) = seq 0 bnd.
Proof.
  intros H. replace L with (bnd + (L - bnd)) by lia.
  rewrite seq_app, filter_app, (filter_none _ (seq _ (L - bnd))).
  - rewrite app_nil_r. apply forallb_filter_id. apply forallb_forall.
    intros t Ht. apply in_seq in Ht. apply Nat.ltb_lt. lia.
  - intros t Ht. apply in_seq in Ht. apply Nat.ltb_ge. lia.
Qed.

Lemma sub_group_range_full (item : nd_item) (nw t : nat) :
  get_local_range item = SUB_GROUP_SIZE * nw -> t < get_local_range item ->
  sub_group_range item t = SUB_GROUP_SIZE.
Proof.
  intros HL Ht. unfold sub_group_range.
  rewrite (sub_group_lanes_full item nw); auto using length_seq.
  apply Nat.Div0.div_lt_upper_bound. lia.
Qed.

Lemma for_stride_ext {St : Type} (body body' : nat -> St -> St)
    (fuel i bound step : nat) (s : St) :
  (forall j s, j < bound -> body j s = body' j s) ->
  for_stride fuel i bound step body s = for_stride fuel i bound step body' s.
Proof.
  intros H. revert i s. induction fuel as [|fuel IH]; intros i s; simpl; auto.
  destruct (Nat.ltb_spec i bound); auto. now rewrite H, IH.
Qed.

(** One work-group of [finalError] adds the partial sums of its work-items
    to [g_sum] and writes nothing else. *)
Lemma finalError_group_spec (x g_sum : ptr) (item : nd_item)
    (warpSum0 : nat -> F) (st : gstate) (nw : nat) :
  get_local_range item = SUB_GROUP_SIZE * nw -> 0 < nw ->
  nw <= SUB_GROUP_SIZE ->
  g_mem (finalError x g_sum item warpSum0 st) g_sum 0
  = g_mem st g_sum 0
    [+] sumF (finalError_lane_sum (g_mem st) x item) (get_local_range item) /\
  (forall p j, ~ (p = g_sum /\ j = 0) ->
     g_mem (finalError x g_sum item warpSum0 st) p j = g_mem st p j) /\
  g_trace (finalError x g_sum item warpSum0 st)
  = g_trace st ++ [EvAtomicAdd g_sum 0].
Proof.
  intros HL Hnw Hnw32. unfold finalError. cbv zeta.
  rewrite (sub_groups_full item nw HL).
  assert (HL32 : 32 <= get_local_range item)
    by (rewrite HL; unfold SUB_GROUP_SIZE; lia).
  rewrite (filter_ltb_seq 32 _ HL32).
  set (m := g_mem st).
  set (V := fun s => sumF (fun l => finalError_lane_sum m x item
                                      (s * SUB_GROUP_SIZE + l))
                       SUB_GROUP_SIZE).
  set (warpSum := fold_left _ (seq 0 nw) warpSum0).
  assert (Hbody : forall ws s, s < nw ->
            (let lanes := sub_group_lanes item s in
             match sub_group_reduce (map (finalError_lane_sum m x item) lanes),
                   lanes with
             | r0 :: _, t0 :: _ => upd ws (t0 / sub_group_range item t0) r0
             | _, _ => ws
             end) = upd ws s (V s)).
  { intros ws s Hs. cbv zeta.
    rewrite (sub_group_lanes_full item nw s HL Hs).
    destruct (sub_group_reduce_head
                (map (finalError_lane_sum m x item)
                     (seq (s * SUB_GROUP_SIZE) SUB_GROUP_SIZE)))
      as [tl ->]; [now rewrite length_map, length_seq|].
    rewrite (sumF_ext _ (fun l => finalError_lane_sum m x item
                                    (s * SUB_GROUP_SIZE + l)))
      by (intros l Hl; now rewrite nth_map_seq_from).
    fold (V s).
    change (seq (s * SUB_GROUP_SIZE) SUB_GROUP_SIZE)
      with (s * SUB_GROUP_SIZE :: seq (S (s * SUB_GROUP_SIZE)) 31).
    cbv iota.
    rewrite (sub_group_range_full item nw) by
      (auto; rewrite HL; unfold SUB_GROUP_SIZE; nia).
    now rewrite Nat.div_mul by (unfold SUB_GROUP_SIZE; lia). }
  assert (HW : forall s, s < nw -> warpSum s = V s).
  { intros s Hs. unfold warpSum.
    apply (fold_left_establishes _ (fun ws => ws s = V s) _ s).
    - apply in_seq. lia.
    - intros ws. rewrite Hbody by assumption. apply upd_same.
    - intros ws s' Hs' Hws. apply in_seq in Hs'.
      rewrite Hbody by lia. unfold upd.
      destruct (Nat.eqb_spec s s'); subst; auto. }
  destruct (sub_group_reduce_head
              (map (fun t => if t <? get_local_range item
                                    / sub_group_range item t
                             then warpSum t else zero) (seq 0 32)))
    as [tl ->]; [now rewrite length_map, length_seq|].
  unfold do_atomic_add. cbn [g_mem g_trace]. repeat split.
  - rewrite gstore_same. fold m. f_equal.
    transitivity (sumF (fun t => if t <? nw then V t else zero)
                    SUB_GROUP_SIZE).
    + apply sumF_ext. intros t Ht. unfold SUB_GROUP_SIZE in Ht.
      rewrite nth_map_seq by assumption.
      rewrite (sub_group_range_full item nw) by (auto; lia).
      rewrite HL, Nat.mul_comm, Nat.div_mul by (unfold SUB_GROUP_SIZE; lia).
      destruct (Nat.ltb_spec t nw); auto.
    + rewrite (sumF_truncate _ nw) by
        (auto; intros t Ht _; destruct (Nat.ltb_spec t nw); auto; lia).
      rewrite (sumF_ext _ V) by
        (intros t Ht; destruct (Nat.ltb_spec t nw); auto; lia).
      unfold V.
      rewrite (sumF_blocks (finalError_lane_sum m x item) SUB_GROUP_SIZE nw).
      now rewrite HL, Nat.mul_comm.
  - intros p j Hpj. now rewrite gstore_other.
Qed.

(** A dispatch of [finalError] adds [Σ_i |x[i] - 1|] to [d_sum] and writes
    nothing else. *)
Lemma launch_finalError_spec (nb nthr nw : nat) (x d_sum : ptr)
    (st : gstate) :
  nthr = SUB_GROUP_SIZE * nw -> 0 < nw -> nw <= SUB_GROUP_SIZE -> 0 < nb ->
  x <> d_sum ->
  g_mem (launch_finalError nb nthr x d_sum st) d_sum 0
  = g_mem st d_sum 0 [+] final_error (g_mem st) x /\
  (forall p j, ~ (p = d_sum /\ j = 0) ->
     g_mem (launch_finalError nb nthr x d_sum st) p j = g_mem st p j).
Proof.
  intros Hthr Hnw Hnw32 Hnb Hx.
  set (m := g_mem st).
  assert (Hprefix : forall n,
            let st' :=
              fold_left
                (fun st g =>
                   finalError x d_sum
                     {| get_group := g; get_local_range := nthr;
                        get_group_range := nb |} uninitialized_local st)
                (seq 0 n) st in
            g_mem st' d_sum 0
            = m d_sum 0
              [+] sumF (fun g => sumF (fun t => grid_lane_sum m x (nthr * nb)
                                                  (g * nthr + t)) nthr) n /\
            (forall p j, ~ (p = d_sum /\ j = 0) -> g_mem st' p j = m p j)).
  { induction n as [|n IH]; cbv zeta.
    - simpl. split; auto. now rewrite add_zero_r.
    - rewrite seq_S, fold_left_app. cbn [fold_left Nat.add].
      cbv zeta in IH. destruct IH as (I1 & I2).
      set (stn := fold_left _ (seq 0 n) st) in *.
      set (item := {| get_group := n; get_local_range := nthr;
                      get_group_range := nb |}).
      destruct (finalError_group_spec x d_sum item uninitialized_local stn nw)
        as (G1 & G2 & _); auto.
      split.
      + rewrite G1, I1, <- add_assoc. f_equal.
        cbn [sumF]. f_equal. apply sumF_ext. intros t Ht.
        unfold finalError_lane_sum, grid_lane_sum. cbv zeta.
        apply for_stride_ext. intros i acc Hi.
        rewrite I2 by (intros [E _]; congruence). reflexivity.
      + intros p j Hpj. rewrite G2 by assumption. now apply I2. }
  destruct (Hprefix nb) as (I1 & I2). split; auto.
  unfold launch_finalError, parallel_for. rewrite I1. f_equal.
  rewrite (sumF_blocks (grid_lane_sum m x (nthr * nb)) nthr nb).
  unfold grid_lane_sum, final_error. rewrite (Nat.mul_comm nthr nb).
  apply (strided_lanes_sum (fun i => fabs (m x i [-] one))).
  rewrite Hthr. unfold SUB_GROUP_SIZE. nia.
Qed.

End FinalErrorFacts.

(** ** The drivers *)

Section DriverFacts.
Context {F : Type} {AF : Arith F} {DEV : Device F} {JH : jacobi_h}.
Local Abbreviation gmem := (@gmem F).
Local Abbreviation gstate := (@gstate F).
Variables (A b : ptr) (conv_threshold : F) (x x_new d_sum : ptr).

Lemma even_iteration_even (k : nat) : even_iteration k = Nat.even k.
Proof.
  unfold even_iteration. change 1 with (Nat.ones 1).
  rewrite Nat.land_ones. change (2 ^ 1) with 2.
  rewrite <- Nat.negb_odd. unfold Nat.odd.
  destruct (Nat.even k) eqn:E.
  - apply Nat.even_spec in E as [q ->].
    rewrite Nat.mul_comm, Nat.Div0.mod_mul. reflexivity.
  - assert (Ho : Nat.odd k = true) by (unfold Nat.odd; now rewrite E).
    apply Nat.odd_spec in Ho as [q ->].
    replace (2 * q + 1) with (1 + q * 2) by lia.
    rewrite Nat.Div0.mod_add. reflexivity.
Qed.

(** One turn of the loop of [JacobiMethodGpu]. *)
Lemma JacobiMethodGpu_loop_step (fuel k : nat) (st : gstate) (sum : F) :
  JacobiMethodGpu_loop A b conv_threshold x x_new d_sum (S fuel) k st sum =
  match convergence_check conv_threshold x x_new d_sum k
          (jacobi_iteration A b conv_threshold x x_new d_sum k st)
          (g_mem (jacobi_iteration A b conv_threshold x x_new d_sum k st)
             d_sum 0) with
  | Some r => r
  | None =>
      JacobiMethodGpu_loop A b conv_threshold x x_new d_sum fuel (S k)
        (jacobi_iteration A b conv_threshold x x_new d_sum k st)
        (g_mem (jacobi_iteration A b conv_threshold x x_new d_sum k st)
           d_sum 0)
  end.
Proof.
  cbn [JacobiMethodGpu_loop]. unfold jacobi_iteration, current_iterate,
    next_iterate.
  destruct (even_iteration k); reflexivity.
Qed.

Lemma convergence_check_spec (k : nat) (st : gstate) (sum : F) :
  convergence_check conv_threshold x x_new d_sum k st sum =
  if leb sum conv_threshold
  then Some {| res_state := final_error_pass x x_new d_sum k st;
               res_sum := g_mem (final_error_pass x x_new d_sum k st)
                            d_sum 0;
               res_k := k;
               res_printed :=
                 Some (k + 1,
                       g_mem (final_error_pass x x_new d_sum k st) d_sum 0) |}
  else None.
Proof.
  unfold convergence_check, final_error_pass, next_iterate.
  destruct (leb sum conv_threshold); auto.
  destruct (even_iteration k); reflexivity.
Qed.

(** The loop when no iteration converges: it runs out of iterations. *)
Lemma JacobiMethodGpu_loop_exhausts (st0 : gstate) (fuel k : nat) (sum : F) :
  (forall j, k <= j < k + fuel ->
     leb (accumulator_after A b conv_threshold x x_new d_sum j st0)
       conv_threshold = false) ->
  JacobiMethodGpu_loop A b conv_threshold x x_new d_sum fuel k
    (jacobi_state A b conv_threshold x x_new d_sum k st0) sum =
  {| res_state := jacobi_state A b conv_threshold x x_new d_sum (k + fuel) st0;
     res_sum :=
       match fuel with
       | O => sum
       | S f => accumulator_after A b conv_threshold x x_new d_sum (k + f) st0
       end;
     res_k := k + fuel;
     res_printed := None |}.
Proof.
  revert k sum. induction fuel as [|fuel IH]; intros k sum Hno.
  - simpl. now rewrite Nat.add_0_r.
  - rewrite JacobiMethodGpu_loop_step, convergence_check_spec.
    change (jacobi_iteration A b conv_threshold x x_new d_sum k
              (jacobi_state A b conv_threshold x x_new d_sum k st0))
      with (jacobi_state A b conv_threshold x x_new d_sum (S k) st0).
    fold (accumulator_after A b conv_threshold x x_new d_sum k st0).
    rewrite Hno by lia.
    rewrite IH by (intros j Hj; apply Hno; lia).
    replace (S k + fuel) with (k + S fuel) by lia.
    destruct fuel as [|f]; f_equal.
    + now rewrite Nat.add_0_r.
    + now replace (S k + f) with (k + S f) by lia.
Qed.

(** The loop when iteration [kc] is the first to converge. *)
Lemma JacobiMethodGpu_loop_converges (st0 : gstate) (fuel k kc : nat)
    (sum : F) :
  k <= kc < k + fuel ->
  (forall j, k <= j < kc ->
     leb (accumulator_after A b conv_threshold x x_new d_sum j st0)
       conv_threshold = false) ->
  leb (accumulator_after A b conv_threshold x x_new d_sum kc st0)
    conv_threshold = true ->
  JacobiMethodGpu_loop A b conv_threshold x x_new d_sum fuel k
    (jacobi_state A b conv_threshold x x_new d_sum k st0) sum =
  let st' :=
    final_error_pass x x_new d_sum kc
      (jacobi_state A b conv_threshold x x_new d_sum (S kc) st0) in
  {| res_state := st';
     res_sum := g_mem st' d_sum 0;
     res_k := kc;
     res_printed := Some (kc + 1, g_mem st' d_sum 0) |}.
Proof.
  revert k sum. induction fuel as [|fuel IH]; intros k sum Hk Hno Hyes.
  - lia.
  - rewrite JacobiMethodGpu_loop_step, convergence_check_spec.
    change (jacobi_iteration A b conv_threshold x x_new d_sum k
              (jacobi_state A b conv_threshold x x_new d_sum k st0))
      with (jacobi_state A b conv_threshold x x_new d_sum (S k) st0).
    fold (accumulator_after A b conv_threshold x x_new d_sum k st0).
    destruct (Nat.eq_dec k kc) as [->|Hne].
    + now rewrite Hyes.
    + rewrite Hno by lia. apply IH; try lia.
      * intros j Hj. apply Hno. lia.
      * assumption.
Qed.

End DriverFacts.

Section IterationFacts.
Context {F : Type} {AF : Arith F} {DEV : Device F} {JH : jacobi_h}.
Context {EA : ExactArith F}.
Local Abbreviation gmem := (@gmem F).
Local Abbreviation gstate := (@gstate F).
Variables (A b : ptr) (conv_threshold : F) (x x_new d_sum : ptr).
Hypothesis Hdistinct : NoDup [A; b; x; x_new; d_sum].

Lemma distinct_pointers :
  A <> x /\ A <> x_new /\ A <> d_sum /\ b <> x /\ b <> x_new /\ b <> d_sum
  /\ x <> x_new /\ x <> d_sum /\ x_new <> d_sum.
Proof.
  repeat match goal with
         | H : NoDup (_ :: _) |- _ => apply NoDup_cons_iff in H as [? ?]
         end.
  simpl in *. repeat split; intros ->; tauto.
Qed.

Lemma memset_zero_other (p : ptr) (j : nat) (st : gstate) :
  ~ (p = d_sum /\ j = 0) -> g_mem (memset_zero d_sum st) p j = g_mem st p j.
Proof. intros H. unfold memset_zero. cbn [g_mem]. now rewrite gstore_other. Qed.

Lemma memset_zero_same (st : gstate) :
  g_mem (memset_zero d_sum st) d_sum 0 = zero.
Proof. unfold memset_zero. cbn [g_mem]. apply gstore_same. Qed.

Lemma residual_ext (m1 m2 : gmem) (A' b' x' : ptr) :
  (forall j, m1 A' j = m2 A' j) -> (forall j, m1 b' j = m2 b' j) ->
  (forall j, m1 x' j = m2 x' j) ->
  residual m1 A' b' x' = residual m2 A' b' x'.
Proof.
  intros HA Hb Hx. unfold residual. apply sumF_ext. intros i _.
  now rewrite (jacobi_dx_ext m1 m2).
Qed.

Lemma final_error_ext (m1 m2 : gmem) (x' : ptr) :
  (forall j, m1 x' j = m2 x' j) -> final_error m1 x' = final_error m2 x'.
Proof.
  intros Hx. unfold final_error. apply sumF_ext. intros i _. now rewrite Hx.
Qed.

Lemma nblocks_cover : N_ROWS <= nblocks * ROWS_PER_CTA.
Proof.
  unfold nblocks, ROWS_PER_CTA. pose proof (Nat.div_mod_eq N_ROWS 8).
  pose proof (Nat.mod_upper_bound N_ROWS 8). lia.
Qed.

Lemma iterate_buffers (k : nat) :
  (current_iterate x x_new k = x /\ next_iterate x x_new k = x_new) \/
  (current_iterate x x_new k = x_new /\ next_iterate x x_new k = x).
Proof.
  unfold current_iterate, next_iterate. destruct (even_iteration k); auto.
Qed.

(** Iteration [k]: the accumulator ends with the residual of the iterate
    the iteration read, the other buffer holds the next iterate, and nothing
    else changes. *)
Lemma jacobi_iteration_spec (k : nat) (st : gstate) :
  g_mem (jacobi_iteration A b conv_threshold x x_new d_sum k st) d_sum 0
  = residual (g_mem st) A b (current_iterate x x_new k) /\
  (forall i, i < N_ROWS ->
     g_mem (jacobi_iteration A b conv_threshold x x_new d_sum k st)
       (next_iterate x x_new k) i
     = g_mem st (current_iterate x x_new k) i
       [+] jacobi_dx (g_mem st) A b (current_iterate x x_new k) i) /\
  (forall p j,
     ~ (p = next_iterate x x_new k /\ j < N_ROWS) ->
     ~ (p = d_sum /\ j = 0) ->
     g_mem (jacobi_iteration A b conv_threshold x x_new d_sum k st) p j
     = g_mem st p j).
Proof.
  destruct distinct_pointers
    as (HAx & HAn & HAs & Hbx & Hbn & Hbs & Hxn & Hxs & Hns).
  unfold jacobi_iteration.
  set (cur := current_iterate x x_new k).
  set (nxt := next_iterate x x_new k).
  assert (Hbuf : (cur = x /\ nxt = x_new) \/ (cur = x_new /\ nxt = x))
    by apply iterate_buffers.
  assert (Hcn : cur <> nxt) by (destruct Hbuf as [[-> ->]|[-> ->]]; auto).
  assert (HAnx : A <> nxt) by (destruct Hbuf as [[_ ->]|[_ ->]]; auto).
  assert (Hbnx : b <> nxt) by (destruct Hbuf as [[_ ->]|[_ ->]]; auto).
  assert (Hsnx : d_sum <> nxt) by (destruct Hbuf as [[_ ->]|[_ ->]]; auto).
  assert (Hcs : cur <> d_sum) by (destruct Hbuf as [[-> _]|[-> _]]; auto).
  destruct (launch_JacobiMethod_spec nblocks nthreads 8 A b conv_threshold
              cur nxt d_sum (memset_zero d_sum st))
    as (L1 & L2 & L3); auto using nblocks_cover; try lia.
  assert (Hm : forall p, p <> d_sum ->
            forall j, g_mem (memset_zero d_sum st) p j = g_mem st p j)
    by (intros p Hp j; apply memset_zero_other; tauto).
  repeat split.
  - rewrite L2, memset_zero_same, add_zero_l. apply residual_ext; auto.
  - intros i Hi. rewrite L1 by assumption.
    rewrite (Hm cur) by assumption. f_equal. apply jacobi_dx_ext; auto.
  - intros p j Hp Hs. rewrite L3 by assumption.
    now apply memset_zero_other.
Qed.

(** The value the driver copies into [sum] is the residual [Σ_i |dx_i|]. *)
Lemma accumulator_after_residual (k : nat) (st : gstate) :
  accumulator_after A b conv_threshold x x_new d_sum k st
  = iteration_residual A b conv_threshold x x_new d_sum k st.
Proof.
  unfold accumulator_after, iteration_residual. cbn [jacobi_state].
  apply jacobi_iteration_spec.
Qed.

(** The pass that follows a convergence leaves the final error of the
    latest iterate in the accumulator and changes nothing else. *)
Lemma final_error_pass_spec (k : nat) (st : gstate) :
  g_mem (final_error_pass x x_new d_sum k st) d_sum 0
  = final_error (g_mem st) (next_iterate x x_new k) /\
  (forall p j, ~ (p = d_sum /\ j = 0) ->
     g_mem (final_error_pass x x_new d_sum k st) p j = g_mem st p j).
Proof.
  destruct distinct_pointers
    as (HAx & HAn & HAs & Hbx & Hbn & Hbs & Hxn & Hxs & Hns).
  unfold final_error_pass.
  set (nxt := next_iterate x x_new k).
  assert (Hns' : nxt <> d_sum)
    by (destruct (iterate_buffers k) as [[_ E]|[_ E]]; unfold nxt;
        rewrite E; auto).
  destruct (launch_finalError_spec (N_ROWS / nthreads + 1) nthreads 8 nxt
              d_sum (memset_zero d_sum st))
    as (L1 & L2); auto; try (unfold SUB_GROUP_SIZE; lia).
  split.
  - rewrite L1, memset_zero_same, add_zero_l. apply final_error_ext.
    intros j. apply memset_zero_other. tauto.
  - intros p j Hp. rewrite L2 by assumption. now apply memset_zero_other.
Qed.

End IterationFacts.

(** ** The writes of [JacobiMethod] *)

Section JacobiFrameFacts.
Context {F : Type} {AF : Arith F} {DEV : Device F} {JH : jacobi_h}.
Local Abbreviation gmem := (@gmem F).
Local Abbreviation gstate := (@gstate F).
Local Abbreviation lmem := (@lmem F).

(** What the work-items [0 .. n-1] of the update phase write, whatever the
    values. *)
Lemma update_phase_frame (A x_new : ptr) (item : nd_item) (lm : lmem)
    (st : gstate) (n : nat) :
  n <= ROWS_PER_CTA ->
  let g := get_group item in
  let U :=
    fold_left
      (fun (acc : gstate * list F) t =>
         let r := update_lane A x_new item lm t (fst acc) in
         (fst r, snd acc ++ [snd r]))
      (seq 0 n) (st, []) in
  length (snd U) = n /\
  (forall p j,
     ~ (p = x_new /\ g * ROWS_PER_CTA <= j < g * ROWS_PER_CTA + n
        /\ j < N_ROWS) ->
     g_mem (fst U) p j = g_mem st p j) /\
  g_trace (fst U)
  = g_trace st
    ++ map (EvStore x_new)
         (filter (fun i => i <? N_ROWS) (seq (g * ROWS_PER_CTA) n)).
Proof.
  intros Hn g. induction n as [|n IH].
  - simpl. repeat split; auto. now rewrite app_nil_r.
  - rewrite !seq_S, fold_left_app, filter_app, map_app.
    cbn [fold_left fst snd map filter app Nat.add].
    destruct IH as (IH1 & IH2 & IH3); [lia|].
    set (U := fold_left _ (seq 0 n) (st, [])) in *.
    rewrite update_lane_once. fold g.
    rewrite (Nat.add_comm (g * ROWS_PER_CTA) n).
    destruct (Nat.ltb_spec n ROWS_PER_CTA) as [_|]; [|lia].
    destruct (Nat.ltb_spec (n + g * ROWS_PER_CTA) N_ROWS) as [Hin|Hout];
      cbn [andb fst snd map app do_store g_mem g_trace].
    + repeat split.
      * rewrite length_app, IH1. simpl. lia.
      * intros p j Hpj. rewrite gstore_other by (intros [-> ->]; lia).
        apply IH2. intros (-> & Hj & Hj'). apply Hpj. lia.
      * rewrite IH3. now rewrite <- app_assoc.
    + repeat split.
      * rewrite length_app, IH1. simpl. lia.
      * intros p j Hpj. apply IH2. intros (-> & Hj & Hj'). apply Hpj. lia.
      * now rewrite IH3, app_nil_r.
Qed.

(** The global writes of one work-group of [JacobiMethod]. *)
Lemma JacobiMethod_group_frame (A b : ptr) (conv_threshold : F)
    (x x_new sum : ptr) (item : nd_item) (lm0 : lmem) (st : gstate) :
  ROWS_PER_CTA <= get_local_range item ->
  g_trace (JacobiMethod A b conv_threshold x x_new sum item lm0 st)
  = g_trace st ++ map (EvStore x_new) (owned_rows (get_group item))
    ++ [EvAtomicAdd sum 0] /\
  (forall p j,
     ~ (p = x_new /\ In j (owned_rows (get_group item))) ->
     ~ (p = sum /\ j = 0) ->
     g_mem (JacobiMethod A b conv_threshold x x_new sum item lm0 st) p j
     = g_mem st p j).
Proof.
  intros HL8. unfold JacobiMethod, update_phase. cbv zeta.
  rewrite (active_lanes _ HL8).
  set (lm2 := {| x_shared := _; b_shared := _ |}).
  destruct (update_phase_frame A x_new item lm2 st ROWS_PER_CTA (le_n _))
    as (U1 & U2 & U3).
  set (U := fold_left _ (seq 0 ROWS_PER_CTA) (st, [])) in *.
  destruct (head_nth (tile_reduce (snd U)) zero) as [tl ->].
  { unfold tile_reduce. rewrite shuffle_reduce_length, U1.
    unfold ROWS_PER_CTA. lia. }
  unfold do_atomic_add. cbn [g_mem g_trace]. split.
  - rewrite U3. now rewrite <- app_assoc.
  - intros p j Hx Hs. rewrite gstore_other by assumption.
    apply U2. intros (-> & Hj & Hn). apply Hx. split; auto.
    unfold owned_rows. rewrite filter_In, in_seq, Nat.ltb_lt. lia.
Qed.

End JacobiFrameFacts.

(** ** Theorems on the Jacobi solver *)

Section JacobiTheorems.
Context {F : Type} {AF : Arith F} {DEV : Device F} {JH : jacobi_h}.
Local Abbreviation gmem := (@gmem F).
Local Abbreviation gstate := (@gstate F).
Local Abbreviation lmem := (@lmem F).

(** C1.  One work-group of [JacobiMethod], run with a local range of full
    sub-groups as the drivers do (256 work-items), sets
    [x_new[i] = x[i] + dx] with
    [dx = (b[i] - Σ_j A[i*N_ROWS+j]·x[j]) / A[i*N_ROWS+i]] for every row [i]
    below [N_ROWS] that it owns, and adds to the accumulator [sum] exactly
    the sum of [|dx|] over these rows.  Additions are those of exact
    arithmetic; [x_new] is a buffer of its own.  The equations need no
    assumption on the diagonal: division is a total operation of the
    arithmetic. *)
Theorem JacobiMethod_updates_owned_rows {EA : ExactArith F}
    (A b : ptr) (conv_threshold : F) (x x_new sum : ptr) (item : nd_item)
    (lm0 : lmem) (st : gstate) (nw : nat) :
  get_local_range item = SUB_GROUP_SIZE * nw -> 0 < nw ->
  A <> x_new -> sum <> x_new ->
  (forall i, In i (owned_rows (get_group item)) ->
     g_mem (JacobiMethod A b conv_threshold x x_new sum item lm0 st) x_new i
     = g_mem st x i [+] jacobi_dx (g_mem st) A b x i) /\
  g_mem (JacobiMethod A b conv_threshold x x_new sum item lm0 st) sum 0
  = g_mem st sum 0 [+] group_residual (g_mem st) A b x (get_group item).
Proof.
  intros HL Hnw HA Hs.
  destruct (JacobiMethod_group_spec A b conv_threshold x x_new sum item lm0
              st nw HL Hnw HA Hs) as (H1 & H2 & _).
  split; assumption.
Qed.

(** C10.  One work-group of [JacobiMethod] (with at least [ROWS_PER_CTA]
    work-items) writes global memory only through the stores to [x_new] at
    the rows below [N_ROWS] that it owns, in their order, followed by a
    single atomic addition to [sum]: every other location keeps its value,
    and so do [A], [b] and [x] when they are buffers other than [x_new] and
    [sum]. *)
Theorem JacobiMethod_writes_only_owned_rows_and_sum
    (A b : ptr) (conv_threshold : F) (x x_new sum : ptr) (item : nd_item)
    (lm0 : lmem) (st : gstate) :
  ROWS_PER_CTA <= get_local_range item ->
  ~ In x_new [A; b; x] -> ~ In sum [A; b; x] ->
  g_trace (JacobiMethod A b conv_threshold x x_new sum item lm0 st)
  = g_trace st ++ map (EvStore x_new) (owned_rows (get_group item))
    ++ [EvAtomicAdd sum 0] /\
  (forall j,
     g_mem (JacobiMethod A b conv_threshold x x_new sum item lm0 st) A j
     = g_mem st A j /\
     g_mem (JacobiMethod A b conv_threshold x x_new sum item lm0 st) b j
     = g_mem st b j /\
     g_mem (JacobiMethod A b conv_threshold x x_new sum item lm0 st) x j
     = g_mem st x j) /\
  (forall p j,
     ~ (p = x_new /\ In j (owned_rows (get_group item))) ->
     ~ (p = sum /\ j = 0) ->
     g_mem (JacobiMethod A b conv_threshold x x_new sum item lm0 st) p j
     = g_mem st p j).
Proof.
  intros HL Hn Hs.
  destruct (JacobiMethod_group_frame A b conv_threshold x x_new sum item lm0
              st HL) as (Ht & Hf).
  simpl in Hn, Hs. repeat split; auto; apply Hf; intros [E _]; subst; tauto.
Qed.

End JacobiTheorems.

Section DriverTheorems.
Context {F : Type} {AF : Arith F} {DEV : Device F} {JH : jacobi_h}.
Local Abbreviation gmem := (@gmem F).
Local Abbreviation gstate := (@gstate F).
Variables (A b : ptr) (conv_threshold : F) (x x_new d_sum : ptr).

(** The run of [JacobiMethodGpu] whose first converging iteration is [kc]. *)
Lemma JacobiMethodGpu_converged {EA : ExactArith F} (max_iter : Z)
    (st : gstate) (kc : nat) :
  NoDup [A; b; x; x_new; d_sum] ->
  (Z.of_nat kc < max_iter)%Z ->
  (forall j, j < kc ->
     leb (iteration_residual A b conv_threshold x x_new d_sum j st)
       conv_threshold = false) ->
  leb (iteration_residual A b conv_threshold x x_new d_sum kc st)
    conv_threshold = true ->
  JacobiMethodGpu A b conv_threshold max_iter x x_new d_sum st =
  {| res_state :=
       final_error_pass x x_new d_sum kc
         (jacobi_state A b conv_threshold x x_new d_sum (S kc) st);
     res_sum :=
       final_error
         (g_mem (jacobi_state A b conv_threshold x x_new d_sum (S kc) st))
         (next_iterate x x_new kc);
     res_k := kc;
     res_printed :=
       Some (kc + 1,
             final_error
               (g_mem (jacobi_state A b conv_threshold x x_new d_sum (S kc)
                         st))
               (next_iterate x x_new kc)) |}.
Proof.
  intros Hd Hk Hno Hyes. unfold JacobiMethodGpu.
  rewrite (JacobiMethodGpu_loop_converges A b conv_threshold x x_new d_sum
             st (Z.to_nat max_iter) 0 kc zero).
  - cbv zeta.
    destruct (final_error_pass_spec A b x x_new d_sum Hd kc
                (jacobi_state A b conv_threshold x x_new d_sum (S kc) st))
      as [-> _].
    reflexivity.
  - lia.
  - intros j Hj. rewrite (accumulator_after_residual A b conv_threshold x
                            x_new d_sum Hd). apply Hno. lia.
  - now rewrite (accumulator_after_residual A b conv_threshold x x_new d_sum
                   Hd).
Qed.

(** The run of [JacobiMethodGpu] in which no iteration converges. *)
Lemma JacobiMethodGpu_exhausted {EA : ExactArith F} (max_iter : Z)
    (st : gstate) :
  NoDup [A; b; x; x_new; d_sum] ->
  (forall j, (Z.of_nat j < max_iter)%Z ->
     leb (iteration_residual A b conv_threshold x x_new d_sum j st)
       conv_threshold = false) ->
  JacobiMethodGpu A b conv_threshold max_iter x x_new d_sum st =
  {| res_state :=
       jacobi_state A b conv_threshold x x_new d_sum (Z.to_nat max_iter) st;
     res_sum :=
       match Z.to_nat max_iter with
       | O => zero
       | S f => iteration_residual A b conv_threshold x x_new d_sum f st
       end;
     res_k := Z.to_nat max_iter;
     res_printed := None |}.
Proof.
  intros Hd Hno. unfold JacobiMethodGpu.
  rewrite (JacobiMethodGpu_loop_exhausts A b conv_threshold x x_new d_sum
             st (Z.to_nat max_iter) 0 zero).
  - cbn [Nat.add]. f_equal. destruct (Z.to_nat max_iter); auto.
    apply (accumulator_after_residual A b conv_threshold x x_new d_sum Hd).
  - intros j Hj. rewrite (accumulator_after_residual A b conv_threshold x
                            x_new d_sum Hd). apply Hno. lia.
Qed.

(** C3, as amended.  When the loop of [JacobiMethodGpu] stops by convergence
    at iteration [kc], the function returns the final error [Σ_i |v_i - 1|]
    of the iterate [v] that iteration wrote (the value it prints as
    ["GPU error"]), not the residual that met the threshold; when the loop
    runs out of iterations, it returns the residual [Σ_i |dx_i|] of the last
    iteration, and 0.0 when there was none. *)
Theorem JacobiMethodGpu_returned_value {EA : ExactArith F} (max_iter : Z)
    (st : gstate) :
  NoDup [A; b; x; x_new; d_sum] ->
  (forall kc,
     (Z.of_nat kc < max_iter)%Z ->
     (forall j, j < kc ->
        leb (iteration_residual A b conv_threshold x x_new d_sum j st)
          conv_threshold = false) ->
     leb (iteration_residual A b conv_threshold x x_new d_sum kc st)
       conv_threshold = true ->
     res_sum (JacobiMethodGpu A b conv_threshold max_iter x x_new d_sum st)
     = final_error
         (g_mem (jacobi_state A b conv_threshold x x_new d_sum (S kc) st))
         (next_iterate x x_new kc) /\
     res_printed
       (JacobiMethodGpu A b conv_threshold max_iter x x_new d_sum st)
     = Some (kc + 1,
             res_sum (JacobiMethodGpu A b conv_threshold max_iter x x_new
                        d_sum st))) /\
  ((forall j, (Z.of_nat j < max_iter)%Z ->
      leb (iteration_residual A b conv_threshold x x_new d_sum j st)
        conv_threshold = false) ->
   res_sum (JacobiMethodGpu A b conv_threshold max_iter x x_new d_sum st)
   = match Z.to_nat max_iter with
     | O => zero
     | S f => iteration_residual A b conv_threshold x x_new d_sum f st
     end).
Proof.
  intros Hd. split.
  - intros kc Hk Hno Hyes.
    rewrite (JacobiMethodGpu_converged max_iter st kc Hd Hk Hno Hyes).
    split; reflexivity.
  - intros Hno. now rewrite (JacobiMethodGpu_exhausted max_iter st Hd Hno).
Qed.

(** C5.  A dispatch of [finalError] on a buffer [buf], with work-groups of
    1 to 32 full sub-groups, adds exactly [Σ_i |buf[i] - 1|] (over the
    [N_ROWS] rows) to [g_sum]; and when the loop of [JacobiMethodGpu] stops
    by convergence at iteration [kc], what it runs is the dispatch of
    [finalError] on [x_new] when [kc] is even and on [x] when [kc] is odd,
    the buffer into which iteration [kc] has just written the latest
    iterate. *)
Theorem finalError_adds_error_of_latest_iterate {EA : ExactArith F}
    (nb nthr nw : nat) (buf g_sum : ptr) (st1 : gstate)
    (max_iter : Z) (st : gstate) (kc : nat) :
  nthr = SUB_GROUP_SIZE * nw -> 0 < nw -> nw <= SUB_GROUP_SIZE -> 0 < nb ->
  buf <> g_sum ->
  NoDup [A; b; x; x_new; d_sum] ->
  (Z.of_nat kc < max_iter)%Z ->
  (forall j, j < kc ->
     leb (iteration_residual A b conv_threshold x x_new d_sum j st)
       conv_threshold = false) ->
  leb (iteration_residual A b conv_threshold x x_new d_sum kc st)
    conv_threshold = true ->
  g_mem (launch_finalError nb nthr buf g_sum st1) g_sum 0
  = g_mem st1 g_sum 0 [+] final_error (g_mem st1) buf /\
  res_state (JacobiMethodGpu A b conv_threshold max_iter x x_new d_sum st)
  = launch_finalError (N_ROWS / nthreads + 1) nthreads
      (if Nat.even kc then x_new else x) d_sum
      (memset_zero d_sum
         (jacobi_state A b conv_threshold x x_new d_sum (S kc) st)) /\
  (forall i, i < N_ROWS ->
     g_mem (jacobi_state A b conv_threshold x x_new d_sum (S kc) st)
       (if Nat.even kc then x_new else x) i
     = g_mem (jacobi_state A b conv_threshold x x_new d_sum kc st)
         (if Nat.even kc then x else x_new) i
       [+] jacobi_dx
             (g_mem (jacobi_state A b conv_threshold x x_new d_sum kc st))
             A b (if Nat.even kc then x else x_new) i).
Proof.
  intros Hthr Hnw Hnw32 Hnb Hbuf Hd Hk Hno Hyes. repeat split.
  - now apply (launch_finalError_spec nb nthr nw).
  - rewrite (JacobiMethodGpu_converged max_iter st kc Hd Hk Hno Hyes).
    cbn [res_state]. unfold final_error_pass, next_iterate.
    now rewrite even_iteration_even.
  - intros i Hi.
    destruct (jacobi_iteration_spec A b conv_threshold x x_new d_sum Hd kc
                (jacobi_state A b conv_threshold x x_new d_sum kc st))
      as (_ & H2 & _).
    specialize (H2 i Hi). unfold next_iterate, current_iterate in H2.
    rewrite even_iteration_even in H2. exact H2.
Qed.

(** C8.  When no iteration reaches a residual below the threshold, the loop
    of [JacobiMethodGpu] ends with [k = max_iter] after [max_iter]
    iterations, the function prints nothing and returns normally, and for
    [max_iter > 0] the value it returns is the residual [Σ_i |dx_i|] of the
    last iteration. *)
Theorem JacobiMethodGpu_runs_out_of_iterations {EA : ExactArith F}
    (max_iter : Z) (st : gstate) :
  NoDup [A; b; x; x_new; d_sum] ->
  (0 <= max_iter)%Z ->
  (forall j, (Z.of_nat j < max_iter)%Z ->
     leb (iteration_residual A b conv_threshold x x_new d_sum j st)
       conv_threshold = false) ->
  Z.of_nat
    (res_k (JacobiMethodGpu A b conv_threshold max_iter x x_new d_sum st))
  = max_iter /\
  res_state (JacobiMethodGpu A b conv_threshold max_iter x x_new d_sum st)
  = jacobi_state A b conv_threshold x x_new d_sum (Z.to_nat max_iter) st /\
  res_printed (JacobiMethodGpu A b conv_threshold max_iter x x_new d_sum st)
  = None /\
  ((0 < max_iter)%Z ->
   res_sum (JacobiMethodGpu A b conv_threshold max_iter x x_new d_sum st)
   = iteration_residual A b conv_threshold x x_new d_sum
       (Z.to_nat max_iter - 1) st).
Proof.
  intros Hd Hpos Hno.
  rewrite (JacobiMethodGpu_exhausted max_iter st Hd Hno).
  cbn [res_k res_state res_printed res_sum]. repeat split.
  - lia.
  - intros Hlt. destruct (Z.to_nat max_iter) as [|f] eqn:E; [lia|].
    now rewrite Nat.sub_1_r.
Qed.

(** C9, as amended.  Called with [max_iter = 0], [JacobiMethodGpu] launches
    no kernel, leaves device memory as it was, hence [x] and [x_new]
    unchanged, and returns 0.0, the value [sum] is initialised with. *)
Theorem JacobiMethodGpu_zero_iterations (st : gstate) :
  JacobiMethodGpu A b conv_threshold 0 x x_new d_sum st =
  {| res_state := st; res_sum := zero; res_k := 0; res_printed := None |}.
Proof. reflexivity. Qed.

(** The loop of the first graph driver, against the loop of the reference
    driver. *)
Lemma KernelSetParams_loop_eq (p : cudaKernelNodeParams) (fuel k : nat)
    (st : gstate) (sum : F) :
  KernelSetParams_loop
    [MemsetNode d_sum; KernelNode p; MemcpyNode d_sum] 1
    {| gridDim := nblocks; blockDim := nthreads; arg_A := A; arg_b := b;
       arg_conv_threshold := conv_threshold; arg_x := x; arg_x_new := x_new;
       arg_sum := d_sum |}
    {| gridDim := nblocks; blockDim := nthreads; arg_A := A; arg_b := b;
       arg_conv_threshold := conv_threshold; arg_x := x_new; arg_x_new := x;
       arg_sum := d_sum |}
    conv_threshold x x_new d_sum fuel k st sum
  = JacobiMethodGpu_loop A b conv_threshold x x_new d_sum fuel k st sum.
Proof.
  revert p k st sum. induction fuel as [|fuel IH]; intros p k st sum; auto.
  cbn [KernelSetParams_loop JacobiMethodGpu_loop
       cudaGraphExecKernelNodeSetParams cudaGraphLaunch fold_left exec_node
       fst snd].
  destruct (even_iteration k);
    cbn [gridDim blockDim arg_A arg_b arg_conv_threshold arg_x arg_x_new
         arg_sum];
    destruct (convergence_check _ _ _ _ _ _ _); auto.
Qed.

(** The loop of the second graph driver, against the loop of the reference
    driver. *)
Lemma ExecUpdate_loop_eq (updateResult_out : nat -> bool)
    (graphExec : option cudaGraph) (fuel k : nat) (st : gstate) (sum : F) :
  ExecUpdate_loop updateResult_out A b conv_threshold x x_new d_sum graphExec
    fuel k st sum
  = JacobiMethodGpu_loop A b conv_threshold x x_new d_sum fuel k st sum.
Proof.
  revert graphExec k st sum.
  induction fuel as [|fuel IH]; intros graphExec k st sum; auto.
  cbn [ExecUpdate_loop JacobiMethodGpu_loop].
  assert (Hexec : instantiate_or_update graphExec
                    (captured_graph A b conv_threshold x x_new d_sum k)
                    (updateResult_out k)
                  = captured_graph A b conv_threshold x x_new d_sum k)
    by (unfold instantiate_or_update; destruct graphExec; auto;
        destruct (updateResult_out k); auto).
  rewrite Hexec. unfold captured_graph.
  destruct (even_iteration k);
    cbn [app cudaGraphLaunch fold_left exec_node fst snd
         gridDim blockDim arg_A arg_b arg_conv_threshold arg_x arg_x_new
         arg_sum];
    destruct (convergence_check _ _ _ _ _ _ _); auto.
Qed.

(** C7.  For the same arguments and the same device memory, the two
    graph-based drivers return what [JacobiMethodGpu] returns and leave
    device memory, hence [x] and [x_new], as it leaves it; for
    [JacobiMethodGpuCudaGraphExecUpdate] this holds whether the updates of
    the executable graph succeed or not. *)
Theorem graph_drivers_agree_with_JacobiMethodGpu
    (updateResult_out : nat -> bool) (max_iter : Z) (st : gstate) :
  JacobiMethodGpuCudaGraphExecKernelSetParams A b conv_threshold max_iter
    x x_new d_sum st
  = JacobiMethodGpu A b conv_threshold max_iter x x_new d_sum st /\
  JacobiMethodGpuCudaGraphExecUpdate updateResult_out A b conv_threshold
    max_iter x x_new d_sum st
  = JacobiMethodGpu A b conv_threshold max_iter x x_new d_sum st.
Proof.
  split.
  - unfold JacobiMethodGpuCudaGraphExecKernelSetParams, JacobiMethodGpu.
    cbv zeta. cbn [app length]. apply KernelSetParams_loop_eq.
  - unfold JacobiMethodGpuCudaGraphExecUpdate, JacobiMethodGpu.
    apply ExecUpdate_loop_eq.
Qed.

End DriverTheorems.

(** ** The concrete system *)

Section ConcreteSystem.
Local Existing Instance system_512.
Local Existing Instance rational_device.

#[export] Instance Qc_exact : ExactArith Qc.
Proof.
  split; simpl.
  - apply Qcplus_comm.
  - apply Qcplus_assoc.
  - apply Qcplus_0_l.
  - reflexivity.
  - intros a b. ring.
  - apply Qc_is_canon. reflexivity.
Qed.

Lemma system_pointers_distinct : NoDup [0; 1; 2; 3; 4].
Proof. repeat constructor; simpl; lia. Qed.

Lemma system_diagonal (i : nat) : system_mem 0 (i * N_ROWS + i) = Q2Qc 4.
Proof.
  unfold system_mem. cbn [N_ROWS system_512].
  replace (i * 512 + i) with (i * 513) by lia.
  now rewrite Nat.Div0.mod_mul.
Qed.

(** Every row of the first iteration has [dx = 1]. *)
Lemma system_dx (i : nat) : jacobi_dx system_mem 0 1 2 i = Q2Qc 1.
Proof.
  unfold jacobi_dx, row_dot. rewrite system_diagonal.
  rewrite sumF_all_zero.
  - apply Qc_is_canon. reflexivity.
  - intros j _. change (system_mem 2 j) with (Q2Qc 0).
    simpl. apply Qcmult_0_r.
Qed.

(** The residual of the initial guess is 512. *)
Lemma system_residual : residual system_mem 0 1 2 = Q2Qc 512.
Proof.
  unfold residual.
  rewrite (sumF_ext _ (fun _ => Q2Qc 1)).
  - apply Qc_is_canon. vm_compute. reflexivity.
  - intros i _. rewrite system_dx. apply Qc_is_canon. reflexivity.
Qed.

Lemma system_iteration_residual (thr : Qc) :
  iteration_residual 0 1 thr 2 3 4 0 system_state = Q2Qc 512.
Proof. apply system_residual. Qed.

(** The first iteration writes the all-ones vector into [x_new], whose final
    error is zero. *)
Lemma system_final_error (thr : Qc) :
  final_error (g_mem (jacobi_state 0 1 thr 2 3 4 1 system_state))
    (next_iterate 2 3 0) = Q2Qc 0.
Proof.
  unfold final_error. change (next_iterate 2 3 0) with 3.
  change (Q2Qc 0) with (@zero Qc Qc_Arith).
  apply sumF_all_zero. intros i Hi. cbn [jacobi_state].
  destruct (jacobi_iteration_spec 0 1 thr 2 3 4 system_pointers_distinct 0
              system_state) as (_ & H2 & _).
  change (next_iterate 2 3 0) with 3 in H2.
  change (current_iterate 2 3 0) with 2 in H2.
  rewrite (H2 i Hi). change (g_mem system_state) with system_mem.
  rewrite system_dx. apply Qc_is_canon. reflexivity.
Qed.

End ConcreteSystem.

Section JacobiWitnesses.
Local Existing Instance system_512.
Local Existing Instance rational_device.

Lemma Qc_0_neq_512 : Q2Qc 0 <> Q2Qc 512.
Proof. intros E. apply (f_equal this) in E. discriminate E. Qed.

(** The run of [JacobiMethodGpu] on the concrete system with threshold 1000
    and [max_iter = 1]: iteration 0 converges. *)
Lemma system_run_converges :
  JacobiMethodGpu 0 1 (Q2Qc 1000) 1 2 3 4 system_state =
  {| res_state :=
       final_error_pass 2 3 4 0
         (jacobi_state 0 1 (Q2Qc 1000) 2 3 4 1 system_state);
     res_sum := Q2Qc 0;
     res_k := 0;
     res_printed := Some (1, Q2Qc 0) |}.
Proof.
  rewrite (JacobiMethodGpu_converged 0 1 (Q2Qc 1000) 2 3 4 1 system_state 0
             system_pointers_distinct).
  - now rewrite system_final_error.
  - lia.
  - intros j Hj. lia.
  - rewrite system_iteration_residual. reflexivity.
Qed.

(** Witness of C1: work-group 0 of the first iteration on the concrete
    system. *)
Lemma JacobiMethod_updates_owned_rows_witness :
  (forall i, In i (owned_rows (get_group first_group)) ->
     g_mem (JacobiMethod 0 1 (Q2Qc 0) 2 3 4 first_group
              {| x_shared := uninitialized_local;
                 b_shared := uninitialized_local |} system_state) 3 i
     = g_mem system_state 2 i [+] jacobi_dx (g_mem system_state) 0 1 2 i) /\
  g_mem (JacobiMethod 0 1 (Q2Qc 0) 2 3 4 first_group
           {| x_shared := uninitialized_local;
              b_shared := uninitialized_local |} system_state) 4 0
  = g_mem system_state 4 0
    [+] group_residual (g_mem system_state) 0 1 2 (get_group first_group).
Proof.
  apply (JacobiMethod_updates_owned_rows (EA := Qc_exact) 0 1 (Q2Qc 0) 2 3 4
           first_group _ system_state 8).
  - reflexivity.
  - lia.
  - discriminate.
  - discriminate.
Defined.

(** Witness of C10: the same work-group. *)
Lemma JacobiMethod_writes_only_owned_rows_and_sum_witness :
  g_trace (JacobiMethod 0 1 (Q2Qc 0) 2 3 4 first_group
             {| x_shared := uninitialized_local;
                b_shared := uninitialized_local |} system_state)
  = g_trace system_state
    ++ map (EvStore 3) (owned_rows (get_group first_group))
    ++ [EvAtomicAdd 4 0] /\
  (forall j,
     g_mem (JacobiMethod 0 1 (Q2Qc 0) 2 3 4 first_group
              {| x_shared := uninitialized_local;
                 b_shared := uninitialized_local |} system_state) 0 j
     = g_mem system_state 0 j /\
     g_mem (JacobiMethod 0 1 (Q2Qc 0) 2 3 4 first_group
              {| x_shared := uninitialized_local;
                 b_shared := uninitialized_local |} system_state) 1 j
     = g_mem system_state 1 j /\
     g_mem (JacobiMethod 0 1 (Q2Qc 0) 2 3 4 first_group
              {| x_shared := uninitialized_local;
                 b_shared := uninitialized_local |} system_state) 2 j
     = g_mem system_state 2 j) /\
  (forall p j,
     ~ (p = 3 /\ In j (owned_rows (get_group first_group))) ->
     ~ (p = 4 /\ j = 0) ->
     g_mem (JacobiMethod 0 1 (Q2Qc 0) 2 3 4 first_group
              {| x_shared := uninitialized_local;
                 b_shared := uninitialized_local |} system_state) p j
     = g_mem system_state p j).
Proof.
  apply (JacobiMethod_writes_only_owned_rows_and_sum 0 1 (Q2Qc 0) 2 3 4
           first_group _ system_state).
  - unfold ROWS_PER_CTA. simpl. lia.
  - simpl. lia.
  - simpl. lia.
Defined.

(** Counterexample to C3: on the concrete system with threshold 1000 the
    loop stops by convergence at iteration 0, where the residual accumulator
    holds 512; the function returns 0, the final error of the new
    iterate. *)
Lemma JacobiMethodGpu_returns_final_error_not_residual :
  accumulator_after 0 1 (Q2Qc 1000) 2 3 4 0 system_state = Q2Qc 512 /\
  leb (accumulator_after 0 1 (Q2Qc 1000) 2 3 4 0 system_state) (Q2Qc 1000)
  = true /\
  res_k (JacobiMethodGpu 0 1 (Q2Qc 1000) 1 2 3 4 system_state) = 0 /\
  res_sum (JacobiMethodGpu 0 1 (Q2Qc 1000) 1 2 3 4 system_state) = Q2Qc 0 /\
  res_sum (JacobiMethodGpu 0 1 (Q2Qc 1000) 1 2 3 4 system_state)
  <> accumulator_after 0 1 (Q2Qc 1000) 2 3 4 0 system_state.
Proof.
  rewrite (accumulator_after_residual 0 1 (Q2Qc 1000) 2 3 4
             system_pointers_distinct),
    system_iteration_residual, system_run_converges.
  cbn [res_k res_sum]. repeat split. apply Qc_0_neq_512.
Qed.

(** Witness of C3 as amended: the concrete system. *)
Lemma JacobiMethodGpu_returned_value_witness :
  (forall kc,
     (Z.of_nat kc < 1)%Z ->
     (forall j, j < kc ->
        leb (iteration_residual 0 1 (Q2Qc 1000) 2 3 4 j system_state)
          (Q2Qc 1000) = false) ->
     leb (iteration_residual 0 1 (Q2Qc 1000) 2 3 4 kc system_state)
       (Q2Qc 1000) = true ->
     res_sum (JacobiMethodGpu 0 1 (Q2Qc 1000) 1 2 3 4 system_state)
     = final_error
         (g_mem (jacobi_state 0 1 (Q2Qc 1000) 2 3 4 (S kc) system_state))
         (next_iterate 2 3 kc) /\
     res_printed (JacobiMethodGpu 0 1 (Q2Qc 1000) 1 2 3 4 system_state)
     = Some (kc + 1,
             res_sum (JacobiMethodGpu 0 1 (Q2Qc 1000) 1 2 3 4
                        system_state))) /\
  ((forall j, (Z.of_nat j < 1)%Z ->
      leb (iteration_residual 0 1 (Q2Qc 1000) 2 3 4 j system_state)
        (Q2Qc 1000) = false) ->
   res_sum (JacobiMethodGpu 0 1 (Q2Qc 1000) 1 2 3 4 system_state)
   = match Z.to_nat 1 with
     | O => zero
     | S f => iteration_residual 0 1 (Q2Qc 1000) 2 3 4 f system_state
     end).
Proof.
  apply (JacobiMethodGpu_returned_value (EA := Qc_exact) 0 1 (Q2Qc 1000)
           2 3 4 1 system_state).
  exact system_pointers_distinct.
Defined.

(** Witness of C5: the dispatch of [finalError] by the drivers, and the run
    on the concrete system that converges at iteration 0. *)
Lemma finalError_adds_error_of_latest_iterate_witness :
  g_mem (launch_finalError 3 256 3 4 system_state) 4 0
  = g_mem system_state 4 0 [+] final_error (g_mem system_state) 3 /\
  res_state (JacobiMethodGpu 0 1 (Q2Qc 1000) 1 2 3 4 system_state)
  = launch_finalError (N_ROWS / nthreads + 1) nthreads
      (if Nat.even 0 then 3 else 2) 4
      (memset_zero 4 (jacobi_state 0 1 (Q2Qc 1000) 2 3 4 1 system_state)) /\
  (forall i, i < N_ROWS ->
     g_mem (jacobi_state 0 1 (Q2Qc 1000) 2 3 4 1 system_state)
       (if Nat.even 0 then 3 else 2) i
     = g_mem (jacobi_state 0 1 (Q2Qc 1000) 2 3 4 0 system_state)
         (if Nat.even 0 then 2 else 3) i
       [+] jacobi_dx
             (g_mem (jacobi_state 0 1 (Q2Qc 1000) 2 3 4 0 system_state))
             0 1 (if Nat.even 0 then 2 else 3) i).
Proof.
  apply (finalError_adds_error_of_latest_iterate (EA := Qc_exact) 0 1
           (Q2Qc 1000) 2 3 4 3 256 8 3 4 system_state 1 system_state 0).
  - reflexivity.
  - lia.
  - unfold SUB_GROUP_SIZE. lia.
  - lia.
  - discriminate.
  - exact system_pointers_distinct.
  - lia.
  - intros j Hj. lia.
  - rewrite system_iteration_residual. reflexivity.
Defined.

(** Witness of C8: the concrete system with threshold 0 and
    [max_iter = 1]. *)
Lemma JacobiMethodGpu_runs_out_of_iterations_witness :
  Z.of_nat (res_k (JacobiMethodGpu 0 1 (Q2Qc 0) 1 2 3 4 system_state)) = 1%Z /\
  res_state (JacobiMethodGpu 0 1 (Q2Qc 0) 1 2 3 4 system_state)
  = jacobi_state 0 1 (Q2Qc 0) 2 3 4 (Z.to_nat 1) system_state /\
  res_printed (JacobiMethodGpu 0 1 (Q2Qc 0) 1 2 3 4 system_state) = None /\
  ((0 < 1)%Z ->
   res_sum (JacobiMethodGpu 0 1 (Q2Qc 0) 1 2 3 4 system_state)
   = iteration_residual 0 1 (Q2Qc 0) 2 3 4 (Z.to_nat 1 - 1) system_state).
Proof.
  apply (JacobiMethodGpu_runs_out_of_iterations (EA := Qc_exact) 0 1
           (Q2Qc 0) 2 3 4 1 system_state).
  - exact system_pointers_distinct.
  - lia.
  - intros j Hj. assert (j = 0) as -> by lia.
    rewrite system_iteration_residual. reflexivity.
Defined.

(** Counterexample to C9: with [max_iter = 0] the function returns 0, which
    is not the residual of the initial guess (512 on the concrete system),
    and which is also what the run with [max_iter = 1] returns after it ran
    one iteration: the value does not tell that no iteration ran. *)
Lemma JacobiMethodGpu_zero_iterations_returns_no_sentinel :
  res_sum (JacobiMethodGpu 0 1 (Q2Qc 1000) 0 2 3 4 system_state) = Q2Qc 0 /\
  residual (g_mem system_state) 0 1 2 = Q2Qc 512 /\
  res_sum (JacobiMethodGpu 0 1 (Q2Qc 1000) 0 2 3 4 system_state)
  <> residual (g_mem system_state) 0 1 2 /\
  res_printed (JacobiMethodGpu 0 1 (Q2Qc 1000) 1 2 3 4 system_state)
  = Some (1, Q2Qc 0) /\
  res_sum (JacobiMethodGpu 0 1 (Q2Qc 1000) 1 2 3 4 system_state)
  = res_sum (JacobiMethodGpu 0 1 (Q2Qc 1000) 0 2 3 4 system_state).
Proof.
  rewrite system_run_converges.
  change (g_mem system_state) with system_mem. rewrite system_residual.
  cbn [res_sum res_printed]. repeat split. apply Qc_0_neq_512.
Qed.

End JacobiWitnesses.

(** ** Loops that may fault *)

Section MonadFacts.
Local Open Scope Z_scope.

Lemma in_zrange (lo hi i : Z) : In i (zrange lo hi) <-> lo <= i < hi.
Proof.
  unfold zrange. rewrite in_map_iff. split.
  - intros (k & <- & Hk). apply in_seq in Hk. lia.
  - intros H. exists (Z.to_nat (i - lo)). split; [lia|].
    apply in_seq. lia.
Qed.

(** A fold whose steps all succeed is the fold of their results. *)
Lemma mfold_pure {St A : Type} (Inv : St -> Prop) (f : St -> A -> option St)
    (g : St -> A -> St) (l : list A) (s : St) :
  (forall a s, In a l -> Inv s -> f s a = Some (g s a) /\ Inv (g s a)) ->
  Inv s ->
  mfold f l s = Some (fold_left g l s) /\ Inv (fold_left g l s).
Proof.
  revert s. induction l as [|a l IH]; intros s Hf Hs; simpl; auto.
  destruct (Hf a s (or_introl eq_refl) Hs) as [-> Hg]. simpl.
  apply IH; auto. intros a' s' Ha'. apply Hf. now right.
Qed.

End MonadFacts.

(** ** The convolution passes *)

Section MonadCover.
Local Open Scope Z_scope.

(** A fold whose steps succeed under an invariant, keep every property [Q loc]
    once it holds, and establish [Q loc] for the locations they own. *)
Lemma mfold_covers {St A Loc : Type} (f : St -> A -> option St)
    (Inv : St -> Prop) (Q : Loc -> St -> Prop) (owner : Loc -> A -> Prop)
    (l : list A) (s : St) :
  (forall a s, In a l -> Inv s ->
     exists s1, f s a = Some s1 /\ Inv s1 /\
       (forall loc, Q loc s -> Q loc s1) /\
       (forall loc, owner loc a -> Q loc s1)) ->
  Inv s ->
  exists s', mfold f l s = Some s' /\ Inv s' /\
    (forall loc, Q loc s -> Q loc s') /\
    (forall loc a, In a l -> owner loc a -> Q loc s').
Proof.
  revert s. induction l as [|a l IH]; intros s Hf Hs.
  - exists s. simpl. repeat split; auto. intros loc a [].
  - destruct (Hf a s (or_introl eq_refl) Hs) as (s1 & E1 & I1 & K1 & C1).
    destruct (IH s1) as (s' & E' & I' & K' & C'); auto.
    { intros a' s0 Ha'. apply Hf. now right. }
    exists s'. simpl. rewrite E1. simpl. repeat split; auto.
    intros loc a' [<-|Ha'] Ho; eauto.
Qed.

Lemma in_work_items (bx by_ gx gy : Z) (it : nd_item2) :
  In it (work_items bx by_ gx gy) <->
  group_x it = gx /\ group_y it = gy /\
  0 <= local_x it < bx /\ 0 <= local_y it < by_.
Proof.
  unfold work_items. rewrite in_flat_map. split.
  - intros (ly & Hly & Hit). apply in_map_iff in Hit as (lx & <- & Hlx).
    apply in_zrange in Hly, Hlx. simpl. lia.
  - intros (<- & <- & Hx & Hy). exists (local_y it). split.
    + apply in_zrange. lia.
    + apply in_map_iff. exists (local_x it). split.
      * now destruct it.
      * apply in_zrange. lia.
Qed.

Lemma in_work_groups (nx ny : Z) (g : Z * Z) :
  In g (work_groups nx ny) <-> 0 <= fst g < nx /\ 0 <= snd g < ny.
Proof.
  unfold work_groups. rewrite in_flat_map. split.
  - intros (gy & Hgy & Hg). apply in_map_iff in Hg as (gx & <- & Hgx).
    apply in_zrange in Hgy, Hgx. simpl. lia.
  - intros (Hx & Hy). exists (snd g). split.
    + apply in_zrange. lia.
    + apply in_map_iff. exists (fst g). split.
      * now destruct g.
      * apply in_zrange. lia.
Qed.

End MonadCover.

Section ConvolutionCommon.
Context {F : Type} {AF : Arith F} {CH : convolutionSeparable_common_h}.
Local Open Scope Z_scope.
Local Abbreviation buffer := (@buffer F).
Local Abbreviation tile := (@tile F).

(** A pixel of the image is inside a buffer of [imageW * imageH] elements. *)
Lemma pixel_in_bounds (imageW imageH : Z) (p : buffer) (r c : Z) :
  imageW * imageH <= buf_len p -> 0 <= r < imageH -> 0 <= c < imageW ->
  in_bounds p (r * imageW + c) = true.
Proof.
  intros Hp Hr Hc. unfold in_bounds.
  apply andb_true_intro. split; [apply Z.leb_le | apply Z.ltb_lt]; nia.
Qed.

Lemma pixel_unique (imageW r c r' c' : Z) :
  0 <= c < imageW -> 0 <= c' < imageW ->
  r * imageW + c = r' * imageW + c' -> r = r' /\ c = c'.
Proof. intros Hc Hc' E. assert (r = r') by nia. subst. lia. Qed.

Lemma tile_set_same (s : tile) (r c : Z) (v : F) : tile_set s r c v r c = v.
Proof. unfold tile_set. now rewrite !Z.eqb_refl. Qed.

(** A write of the value a cell is to hold keeps the cells that hold
    theirs. *)
Lemma tile_set_consistent (V : Z -> Z -> F) (s : tile) (r c r' c' : Z) :
  s r' c' = V r' c' -> tile_set s r c (V r c) r' c' = V r' c'.
Proof.
  intros H. unfold tile_set.
  destruct (Z.eqb_spec r' r); destruct (Z.eqb_spec c' c); subst; auto.
Qed.

(** The weighted sum reads its taps for [j] from [-KERNEL_RADIUS] to
    [KERNEL_RADIUS] only. *)
Lemma weighted_sum_ext (c_Kernel : Z -> F) (tap tap' : Z -> F) :
  (forall j, - KERNEL_RADIUS <= j <= KERNEL_RADIUS -> tap j = tap' j) ->
  weighted_sum c_Kernel tap = weighted_sum c_Kernel tap'.
Proof.
  intros H. unfold weighted_sum. apply fold_left_ext_in.
  intros acc j Hj. apply in_zrange in Hj. rewrite H by lia. reflexivity.
Qed.

(** The loop over [j] of the kernels computes the sum of the
    specification, in any arithmetic. *)
Lemma weighted_sum_kernel_sum (c_Kernel : Z -> F) (tap : Z -> F) :
  weighted_sum c_Kernel tap = kernel_sum c_Kernel tap.
Proof.
  unfold weighted_sum, kernel_sum, zrange. rewrite fold_left_map_seq.
  replace (KERNEL_RADIUS + 1 - - KERNEL_RADIUS)
    with (2 * KERNEL_RADIUS + 1) by lia.
  induction (Z.to_nat (2 * KERNEL_RADIUS + 1)) as [|n IH]; [reflexivity|].
  rewrite seq_S, fold_left_app, IH. cbn [fold_left sumF Nat.add].
  now replace (- KERNEL_RADIUS + Z.of_nat n)
    with (Z.of_nat n - KERNEL_RADIUS) by lia.
Qed.

(** Values of type [int]. *)
Lemma checked_int_in_range (z : Z) :
  INT_MIN <= z <= INT_MAX -> checked_int z = Some z.
Proof.
  intros [H1 H2]. unfold checked_int.
  apply Z.leb_le in H1, H2. now rewrite H1, H2.
Qed.

Lemma checked_int_some (z v : Z) :
  checked_int z = Some v -> v = z /\ INT_MIN <= z <= INT_MAX.
Proof.
  unfold checked_int.
  destruct (Z.leb_spec INT_MIN z); destruct (Z.leb_spec z INT_MAX);
    simpl; intros E; inversion E; lia.
Qed.

Lemma checked_int_cases (z : Z) :
  checked_int z = None \/ checked_int z = Some z.
Proof. unfold checked_int. destruct (_ && _); auto. Qed.

Lemma base_offset_in_range (baseY pitch baseX : Z) :
  INT_MIN <= baseY * pitch <= INT_MAX ->
  INT_MIN <= baseY * pitch + baseX <= INT_MAX ->
  base_offset baseY pitch baseX = Some (baseY * pitch + baseX).
Proof.
  intros H1 H2. unfold base_offset.
  rewrite (checked_int_in_range _ H1). cbn [bind].
  now apply checked_int_in_range.
Qed.

Lemma base_offset_some (baseY pitch baseX v : Z) :
  base_offset baseY pitch baseX = Some v -> v = baseY * pitch + baseX.
Proof.
  unfold base_offset.
  destruct (checked_int (baseY * pitch)) as [row|] eqn:E; [|discriminate].
  apply checked_int_some in E as [-> _]. cbn [bind].
  intros E. now apply checked_int_some in E as [-> _].
Qed.

Lemma base_offset_cases (baseY pitch baseX : Z) :
  base_offset baseY pitch baseX = None \/
  base_offset baseY pitch baseX = Some (baseY * pitch + baseX).
Proof.
  destruct (base_offset baseY pitch baseX) as [v|] eqn:E; auto.
  apply base_offset_some in E. subst. auto.
Qed.

End ConvolutionCommon.

(** A kernel that has completed has passed its [int] checks. *)
Ltac invert_check :=
  match goal with
  | |- bind (checked_int ?z) _ = Some _ -> _ =>
      let v := fresh "v" in
      let E := fresh "E" in
      destruct (checked_int z) as [v|] eqn:E; [|discriminate];
      apply checked_int_some in E as [-> _]; cbn [bind]
  | |- bind (base_offset ?y ?p ?x) _ = Some _ -> _ =>
      let v := fresh "v" in
      let E := fresh "E" in
      destruct (base_offset y p x) as [v|] eqn:E; [|discriminate];
      apply base_offset_some in E; subst v; cbn [bind]
  end.

(** A kernel faults at an [int] check or goes on with the value. *)
Ltac pass_check :=
  match goal with
  | |- bind (checked_int ?z) _ = None =>
      destruct (checked_int_cases z) as [-> | ->];
      [reflexivity | cbn [bind]]
  | |- bind (base_offset ?y ?p ?x) _ = None =>
      destruct (base_offset_cases y p x) as [-> | ->];
      [reflexivity | cbn [bind]]
  end.

(** *** The row pass *)

Section RowsFacts.
Context {F : Type} {AF : Arith F}.
Context {CH : convolutionSeparable_common_h} {BF : build_flags}.
Local Open Scope Z_scope.
Local Abbreviation buffer := (@buffer F).
Local Abbreviation tile := (@tile F).
Variables (c_Kernel : Z -> F) (d_Src : buffer) (imageW imageH : Z).
Hypothesis Hradius : 0 <= KERNEL_RADIUS <= ROWS_BLOCKDIM_X * ROWS_HALO_STEPS.
Hypothesis HW : 0 <= imageW.
Hypothesis HH : 0 <= imageH.
Hypothesis HdivW : Z.rem imageW (ROWS_RESULT_STEPS * ROWS_BLOCKDIM_X) = 0.
Hypothesis HdivH : Z.rem imageH ROWS_BLOCKDIM_Y = 0.
Hypothesis Hsrc : imageW * imageH <= buf_len d_Src.
Hypothesis Hint : imageW * imageH <= INT_MAX.

(** The blocks of the grid lie inside the image, whatever its size. *)
Lemma rows_blocks_width : 0 <= 128 * Z.quot imageW 128 <= imageW.
Proof.
  pose proof (Z.quot_rem' imageW 128) as E.
  pose proof (Z.rem_bound_pos imageW 128).
  pose proof (Z.quot_pos imageW 128). lia.
Qed.

Lemma rows_blocks_height : 0 <= 4 * Z.quot imageH 4 <= imageH.
Proof.
  pose proof (Z.quot_rem' imageH 4) as E.
  pose proof (Z.rem_bound_pos imageH 4).
  pose proof (Z.quot_pos imageH 4). lia.
Qed.

Section Group.
Variables (gx gy : Z).
Hypothesis Hgx : 0 <= gx < Z.quot imageW 128.
Hypothesis Hgy : 0 <= gy < Z.quot imageH 4.

(** The ten loads of a work-item: each succeeds and yields the value the
    cell it fills is to hold. *)
Lemma rows_load_spec (it : nd_item2) (s : tile) :
  In it (work_items ROWS_BLOCKDIM_X ROWS_BLOCKDIM_Y gx gy) ->
  exists s1,
    rows_load d_Src imageW imageW it s = Some s1 /\ True /\
    (forall loc : Z * Z,
       s (fst loc) (snd loc)
       = rows_tile d_Src imageW imageW gx gy (fst loc) (snd loc) ->
       s1 (fst loc) (snd loc)
       = rows_tile d_Src imageW imageW gx gy (fst loc) (snd loc)) /\
    (forall loc : Z * Z,
       (fst loc = local_y it /\
        exists i, 0 <= i < 10 /\ snd loc = local_x it + i * 16) ->
       s1 (fst loc) (snd loc)
       = rows_tile d_Src imageW imageW gx gy (fst loc) (snd loc)).
Proof.
  intros Hit. apply in_work_items in Hit as (Egx & Egy & Hlx & Hly).
  unfold ROWS_BLOCKDIM_X, ROWS_BLOCKDIM_Y in Hlx, Hly.
  pose proof rows_blocks_width as EW.
  pose proof rows_blocks_height as EH.
  set (V := rows_tile d_Src imageW imageW gx gy).
  set (lx := local_x it) in *. set (ly := local_y it) in *.
  assert (Hstep : forall (guard : bool) i,
            0 <= i < 10 ->
            (guard = true ->
             0 <= (gx * 8 - 1) * 16 + lx + i * 16 < imageW) ->
            (guard = false ->
             ~ 0 <= (gx * 8 - 1) * 16 + lx + i * 16 < imageW) ->
            (if guard
             then load d_Src ((gy * 4 + ly) * imageW
                              + ((gx * 8 - 1) * 16 + lx) + i * 16)
             else Some zero)
            = Some (V ly (lx + i * 16))).
  { intros guard i Hi Ht Hf. unfold V, rows_tile, padded_row.
    unfold ROWS_BLOCKDIM_X, ROWS_BLOCKDIM_Y, ROWS_RESULT_STEPS,
      ROWS_HALO_STEPS.
    replace ((gx * 8 - 1) * 16 + (lx + i * 16))
      with ((gx * 8 - 1) * 16 + lx + i * 16) by lia.
    destruct guard.
    - specialize (Ht eq_refl).
      replace ((gy * 4 + ly) * imageW + ((gx * 8 - 1) * 16 + lx) + i * 16)
        with ((gy * 4 + ly) * imageW + ((gx * 8 - 1) * 16 + lx + i * 16))
        by lia.
      unfold load. rewrite (pixel_in_bounds imageW imageH) by (auto; lia).
      destruct (Z.leb_spec 0 ((gx * 8 - 1) * 16 + lx + i * 16));
        destruct (Z.ltb_spec ((gx * 8 - 1) * 16 + lx + i * 16) imageW);
        simpl; auto; lia.
    - specialize (Hf eq_refl).
      destruct (Z.leb_spec 0 ((gx * 8 - 1) * 16 + lx + i * 16));
        destruct (Z.ltb_spec ((gx * 8 - 1) * 16 + lx + i * 16) imageW);
        simpl; auto; lia. }
  unfold rows_load. rewrite Egx, Egy. fold lx ly.
  unfold ROWS_BLOCKDIM_X, ROWS_BLOCKDIM_Y, ROWS_RESULT_STEPS,
    ROWS_HALO_STEPS, for_range.
  assert (HWmax : 4 * imageW <= INT_MAX) by nia.
  assert (HHmax : imageH <= INT_MAX) by nia.
  unfold INT_MAX in Hint, HWmax, HHmax.
  rewrite (checked_int_in_range ((gx * 8 - 1) * 16 + lx))
    by (unfold INT_MIN, INT_MAX; lia).
  cbn [bind].
  rewrite (checked_int_in_range (gy * 4 + ly))
    by (unfold INT_MIN, INT_MAX; lia).
  cbn [bind].
  rewrite base_offset_in_range by (unfold INT_MIN, INT_MAX; nia).
  cbn [bind].
  rewrite (checked_int_in_range (imageW - ((gx * 8 - 1) * 16 + lx)))
    by (unfold INT_MIN, INT_MAX; lia).
  cbn [bind].
  set (step := fun (s : tile) i =>
                 tile_set s ly (lx + i * 16) (V ly (lx + i * 16))).
  destruct (mfold_pure (fun _ : tile => True)
              (fun s i =>
                 bind (load d_Src ((gy * 4 + ly) * imageW
                                   + ((gx * 8 - 1) * 16 + lx) + i * 16))
                      (fun v => Some (tile_set s ly (lx + i * 16) v)))
              step (zrange 1 (1 + 8)) s) as [E1 _]; auto.
  { intros i s0 Hi _. apply in_zrange in Hi. split; auto.
    rewrite (Hstep true i) by lia. reflexivity. }
  rewrite E1. cbn [bind].
  destruct (mfold_pure (fun _ : tile => True)
              (fun s i =>
                 bind (if (gx * 8 - 1) * 16 + lx >=? - i * 16
                       then load d_Src ((gy * 4 + ly) * imageW
                                        + ((gx * 8 - 1) * 16 + lx) + i * 16)
                       else Some zero)
                      (fun v => Some (tile_set s ly (lx + i * 16) v)))
              step (zrange 0 1)
              (fold_left step (zrange 1 (1 + 8)) s)) as [E2 _]; auto.
  { intros i s0 Hi _. apply in_zrange in Hi. split; auto.
    rewrite (Hstep _ i) by lia. reflexivity. }
  rewrite E2. cbn [bind].
  destruct (mfold_pure (fun _ : tile => True)
              (fun s i =>
                 bind (if imageW - ((gx * 8 - 1) * 16 + lx) >? i * 16
                       then load d_Src ((gy * 4 + ly) * imageW
                                        + ((gx * 8 - 1) * 16 + lx) + i * 16)
                       else Some zero)
                      (fun v => Some (tile_set s ly (lx + i * 16) v)))
              step (zrange (1 + 8) (1 + 8 + 1))
              (fold_left step (zrange 0 1)
                 (fold_left step (zrange 1 (1 + 8)) s))) as [E3 _]; auto.
  { intros i s0 Hi _. apply in_zrange in Hi. split; auto.
    rewrite (Hstep _ i) by lia. reflexivity. }
  rewrite E3. eexists. split; [reflexivity|]. split; [exact I|].
  rewrite <- !fold_left_app.
  set (steps := zrange 1 (1 + 8) ++ zrange 0 1 ++ zrange (1 + 8) (1 + 8 + 1)).
  assert (Hkeep : forall loc : Z * Z, forall s0 i,
            s0 (fst loc) (snd loc) = V (fst loc) (snd loc) ->
            step s0 i (fst loc) (snd loc) = V (fst loc) (snd loc))
    by (intros loc s0 i H0; unfold step;
        now apply tile_set_consistent).
  split.
  - intros loc Hloc.
    apply (fold_left_preserves step
             (fun s0 => s0 (fst loc) (snd loc) = V (fst loc) (snd loc)));
      auto.
  - intros loc (Er & i & Hi & Ec).
    apply (fold_left_establishes step
             (fun s0 => s0 (fst loc) (snd loc) = V (fst loc) (snd loc))
             steps i).
    + unfold steps. rewrite !in_app_iff, !in_zrange. lia.
    + intros s0. rewrite Er, Ec. unfold step. apply tile_set_same.
    + intros s0 i' _. apply Hkeep.
Qed.

(** After the barrier [s_Data] holds the tile of the work-group with its
    halos, zero outside the image. *)
Lemma rows_load_phase (s0 : tile) :
  exists T,
    mfold (fun s it => rows_load d_Src imageW imageW it s)
      (work_items ROWS_BLOCKDIM_X ROWS_BLOCKDIM_Y gx gy) s0 = Some T /\
    forall r c, 0 <= r < 4 -> 0 <= c < 160 ->
      T r c = rows_tile d_Src imageW imageW gx gy r c.
Proof.
  destruct (mfold_covers
              (fun s it => rows_load d_Src imageW imageW it s)
              (fun _ => True)
              (fun (loc : Z * Z) (s : tile) =>
                 s (fst loc) (snd loc)
                 = rows_tile d_Src imageW imageW gx gy (fst loc) (snd loc))
              (fun (loc : Z * Z) it =>
                 fst loc = local_y it /\
                 exists i, 0 <= i < 10 /\ snd loc = local_x it + i * 16)
              (work_items ROWS_BLOCKDIM_X ROWS_BLOCKDIM_Y gx gy) s0)
    as (T & E & _ & _ & C); auto.
  { intros it s Hit _. now apply rows_load_spec. }
  exists T. split; auto. intros r c Hr Hc.
  apply (C (r, c) {| group_x := gx; group_y := gy;
                     local_x := c mod 16; local_y := r |}).
  - apply in_work_items. simpl. unfold ROWS_BLOCKDIM_X, ROWS_BLOCKDIM_Y.
    pose proof (Z.mod_pos_bound c 16). lia.
  - simpl. split; auto. exists (c / 16).
    pose proof (Z.div_mod c 16). pose proof (Z.mod_pos_bound c 16).
    assert (0 <= c / 16 < 10)
      by (split; [apply Z.div_pos | apply Z.div_lt_upper_bound]; lia).
    lia.
Qed.

(** The eight results of a work-item. *)
Lemma rows_compute_spec (T : tile) (it : nd_item2) (d : buffer) :
  (forall r c, 0 <= r < 4 -> 0 <= c < 160 ->
     T r c = rows_tile d_Src imageW imageW gx gy r c) ->
  In it (work_items ROWS_BLOCKDIM_X ROWS_BLOCKDIM_Y gx gy) ->
  imageW * imageH <= buf_len d ->
  exists d1,
    rows_compute imageW c_Kernel T it d = Some d1 /\
    imageW * imageH <= buf_len d1 /\
    (forall loc,
       rows_done c_Kernel d_Src imageW loc d ->
       rows_done c_Kernel d_Src imageW loc d1) /\
    (forall loc : Z * Z,
       (snd loc = gy * 4 + local_y it /\
        exists i, 1 <= i < 9 /\
          fst loc = (gx * 8 - 1) * 16 + local_x it + i * 16) ->
       rows_done c_Kernel d_Src imageW loc d1).
Proof.
  intros HT Hit Hd. apply in_work_items in Hit as (Egx & Egy & Hlx & Hly).
  unfold ROWS_BLOCKDIM_X, ROWS_BLOCKDIM_Y in Hlx, Hly.
  pose proof rows_blocks_width as EW.
  pose proof rows_blocks_height as EH.
  unfold ROWS_BLOCKDIM_X, ROWS_HALO_STEPS in Hradius.
  unfold rows_compute, for_range. rewrite Egx, Egy.
  set (lx := local_x it) in *. set (ly := local_y it) in *.
  unfold ROWS_BLOCKDIM_X, ROWS_BLOCKDIM_Y, ROWS_RESULT_STEPS,
    ROWS_HALO_STEPS.
  assert (HWmax : 4 * imageW <= INT_MAX) by nia.
  assert (HHmax : imageH <= INT_MAX) by nia.
  unfold INT_MAX in Hint, HWmax, HHmax.
  rewrite (checked_int_in_range ((gx * 8 - 1) * 16 + lx))
    by (unfold INT_MIN, INT_MAX; lia).
  cbn [bind].
  rewrite (checked_int_in_range (gy * 4 + ly))
    by (unfold INT_MIN, INT_MAX; lia).
  cbn [bind].
  rewrite base_offset_in_range by (unfold INT_MIN, INT_MAX; nia).
  cbn [bind].
  destruct (mfold_covers
              (fun (s : buffer) i =>
                 store s ((gy * 4 + ly) * imageW + ((gx * 8 - 1) * 16 + lx)
                          + i * 16)
                   (weighted_sum c_Kernel
                      (fun j => T ly (lx + i * 16 + j))))
              (fun s => imageW * imageH <= buf_len s)
              (rows_done c_Kernel d_Src imageW)
              (fun (loc : Z * Z) i =>
                 snd loc = gy * 4 + ly /\
                 fst loc = (gx * 8 - 1) * 16 + lx + i * 16)
              (zrange 1 (1 + 8)) d)
    as (d1 & E & I1 & K1 & C1); auto.
  - intros i s Hi Hs. apply in_zrange in Hi.
    assert (Hx : 0 <= (gx * 8 - 1) * 16 + lx + i * 16 < imageW) by lia.
    assert (Hy : 0 <= gy * 4 + ly < imageH) by lia.
    assert (Hsum : weighted_sum c_Kernel (fun j => T ly (lx + i * 16 + j))
                   = row_convolution c_Kernel d_Src imageW imageW
                       ((gx * 8 - 1) * 16 + lx + i * 16) (gy * 4 + ly)).
    { unfold row_convolution. rewrite <- weighted_sum_kernel_sum.
      apply weighted_sum_ext. intros j Hj.
      rewrite HT by lia. unfold rows_tile.
      unfold ROWS_BLOCKDIM_X, ROWS_BLOCKDIM_Y, ROWS_RESULT_STEPS,
        ROWS_HALO_STEPS. f_equal. lia. }
    replace ((gy * 4 + ly) * imageW + ((gx * 8 - 1) * 16 + lx) + i * 16)
      with ((gy * 4 + ly) * imageW + ((gx * 8 - 1) * 16 + lx + i * 16))
      by lia.
    unfold store. rewrite (pixel_in_bounds imageW imageH) by assumption.
    eexists. split; [reflexivity|]. cbn [buf_len buf_data].
    split; [assumption|]. split.
    + intros loc [Hloc Hv]. split; auto. cbn [buf_data].
      destruct (Z.eqb_spec (snd loc * imageW + fst loc)
                  ((gy * 4 + ly) * imageW
                   + ((gx * 8 - 1) * 16 + lx + i * 16))) as [Eq|]; auto.
      apply pixel_unique in Eq as [-> ->]; auto.
    + intros loc [Ey Ex]. split; [lia|]. cbn [buf_data].
      rewrite Ey, Ex, Z.eqb_refl. exact Hsum.
  - exists d1. split; [assumption|]. split; [assumption|].
    split; [assumption|].
    intros loc (Ey & i & Hi & Ex). apply (C1 loc i).
    + apply in_zrange. lia.
    + split; assumption.
Qed.

(** One work-group of the row pass: it succeeds and fills its tile of the
    destination. *)
Lemma convolutionRowsKernel_spec (s0 : tile) (d : buffer) :
  imageW * imageH <= buf_len d ->
  exists d1,
    convolutionRowsKernel d d_Src imageW imageH imageW gx gy c_Kernel s0
    = Some d1 /\
    imageW * imageH <= buf_len d1 /\
    (forall loc,
       rows_done c_Kernel d_Src imageW loc d ->
       rows_done c_Kernel d_Src imageW loc d1) /\
    (forall loc : Z * Z,
       gx * 128 <= fst loc < gx * 128 + 128 ->
       gy * 4 <= snd loc < gy * 4 + 4 ->
       rows_done c_Kernel d_Src imageW loc d1).
Proof.
  intros Hd. unfold convolutionRowsKernel.
  destruct (rows_load_phase s0) as (T & -> & HT). cbn [bind].
  destruct (mfold_covers
              (fun s it => rows_compute imageW c_Kernel T it s)
              (fun s => imageW * imageH <= buf_len s)
              (rows_done c_Kernel d_Src imageW)
              (fun (loc : Z * Z) it =>
                 snd loc = gy * 4 + local_y it /\
                 exists i, 1 <= i < 9 /\
                   fst loc = (gx * 8 - 1) * 16 + local_x it + i * 16)
              (work_items ROWS_BLOCKDIM_X ROWS_BLOCKDIM_Y gx gy) d)
    as (d1 & E & I1 & K1 & C1); auto.
  { intros it s Hit Hs. now apply rows_compute_spec. }
  exists d1. split; [assumption|]. split; [assumption|].
  split; [assumption|]. intros loc Hx Hy.
  apply (C1 loc {| group_x := gx; group_y := gy;
                   local_x := (fst loc - gx * 128) mod 16;
                   local_y := snd loc - gy * 4 |}).
  - apply in_work_items. simpl. unfold ROWS_BLOCKDIM_X, ROWS_BLOCKDIM_Y.
    pose proof (Z.mod_pos_bound (fst loc - gx * 128) 16). lia.
  - simpl. split; [lia|]. exists ((fst loc - gx * 128) / 16 + 1).
    pose proof (Z.div_mod (fst loc - gx * 128) 16).
    pose proof (Z.mod_pos_bound (fst loc - gx * 128) 16).
    assert (0 <= (fst loc - gx * 128) / 16 < 8)
      by (split; [apply Z.div_pos | apply Z.div_lt_upper_bound]; lia).
    lia.
Qed.

End Group.

(** The dispatch of the row pass, whatever the size of the image: every
    work-group succeeds, and the pixels of the blocks of the grid hold the
    row convolution. *)
Lemma rows_dispatch_spec (s_Data0 : tile) (d_Dst : buffer) :
  imageW * imageH <= buf_len d_Dst ->
  exists d,
    mfold
      (fun s (g : Z * Z) =>
         convolutionRowsKernel s d_Src imageW imageH imageW
           (fst g) (snd g) c_Kernel s_Data0)
      (work_groups (Z.quot imageW 128) (Z.quot imageH 4)) d_Dst = Some d /\
    forall x y,
      0 <= x < 128 * Z.quot imageW 128 -> 0 <= y < 4 * Z.quot imageH 4 ->
      buf_data d (y * imageW + x)
      = row_convolution c_Kernel d_Src imageW imageW x y.
Proof.
  intros Hd. pose proof rows_blocks_width as EW.
  pose proof rows_blocks_height as EH.
  destruct (mfold_covers
              (fun s (g : Z * Z) =>
                 convolutionRowsKernel s d_Src imageW imageH imageW
                   (fst g) (snd g) c_Kernel s_Data0)
              (fun s => imageW * imageH <= buf_len s)
              (rows_done c_Kernel d_Src imageW)
              (fun (loc : Z * Z) (g : Z * Z) =>
                 fst g * 128 <= fst loc < fst g * 128 + 128 /\
                 snd g * 4 <= snd loc < snd g * 4 + 4)
              (work_groups (Z.quot imageW 128) (Z.quot imageH 4)) d_Dst)
    as (d1 & -> & I1 & K1 & C1); auto.
  { intros g s Hg Hs. apply in_work_groups in Hg as [Hgx Hgy].
    destruct (convolutionRowsKernel_spec (fst g) (snd g) Hgx Hgy s_Data0 s
                Hs) as (s1 & E & I & K & C).
    exists s1. split; [assumption|]. split; [assumption|].
    split; [assumption|]. intros loc [Hx Hy]. now apply C. }
  exists d1. split; auto. intros x y Hx Hy.
  apply (C1 (x, y) (x / 128, y / 4)).
  - apply in_work_groups. simpl.
    split; (split; [apply Z.div_pos | apply Z.div_lt_upper_bound]; lia).
  - simpl. pose proof (Z.div_mod x 128). pose proof (Z.div_mod y 4).
    pose proof (Z.mod_pos_bound x 128). pose proof (Z.mod_pos_bound y 4).
    lia.
Qed.

(** The row pass under its preconditions. *)
Lemma convolutionRowsGPU_spec (s_Data0 : tile) (d_Dst : buffer) :
  imageW * imageH <= buf_len d_Dst ->
  exists d,
    convolutionRowsGPU c_Kernel s_Data0 d_Dst d_Src imageW imageH
    = Completed d /\
    forall x y, 0 <= x < imageW -> 0 <= y < imageH ->
      buf_data d (y * imageW + x)
      = row_convolution c_Kernel d_Src imageW imageW x y.
Proof.
  intros Hd.
  assert (EW : imageW = 128 * Z.quot imageW 128).
  { pose proof (Z.quot_rem' imageW 128) as E.
    change (ROWS_RESULT_STEPS * ROWS_BLOCKDIM_X) with 128 in HdivW. lia. }
  assert (EH : imageH = 4 * Z.quot imageH 4).
  { pose proof (Z.quot_rem' imageH 4) as E.
    change ROWS_BLOCKDIM_Y with 4 in HdivH. lia. }
  unfold convolutionRowsGPU, assert.
  assert (E1 : (ROWS_BLOCKDIM_X * ROWS_HALO_STEPS >=? KERNEL_RADIUS) = true)
    by (apply Z.geb_le; lia).
  rewrite E1, HdivW, HdivH, !orb_true_r. cbn [negb].
  change (ROWS_RESULT_STEPS * ROWS_BLOCKDIM_X) with 128.
  change ROWS_BLOCKDIM_Y with 4.
  destruct (rows_dispatch_spec s_Data0 d_Dst Hd) as (d & -> & Hpix).
  exists d. split; auto. intros x y Hx Hy. apply Hpix; lia.
Qed.

End RowsFacts.

(** *** The column pass *)

Section ColumnsFacts.
Context {F : Type} {AF : Arith F}.
Context {CH : convolutionSeparable_common_h} {BF : build_flags}.
Local Open Scope Z_scope.
Local Abbreviation buffer := (@buffer F).
Local Abbreviation tile := (@tile F).
Variables (c_Kernel : Z -> F) (d_Src : buffer) (imageW imageH : Z).
Hypothesis Hradius :
  0 <= KERNEL_RADIUS <= COLUMNS_BLOCKDIM_Y * COLUMNS_HALO_STEPS.
Hypothesis HW : 0 <= imageW.
Hypothesis HH : 0 <= imageH.
Hypothesis HdivW : Z.rem imageW COLUMNS_BLOCKDIM_X = 0.
Hypothesis HdivH :
  Z.rem imageH (COLUMNS_RESULT_STEPS * COLUMNS_BLOCKDIM_Y) = 0.
Hypothesis Hsrc : imageW * imageH <= buf_len d_Src.
Hypothesis Hint : imageW * imageH <= INT_MAX.
Hypothesis Hlower : 64 < imageH -> 72 * imageW <= INT_MAX.

(** The blocks of the grid lie inside the image, whatever its size. *)
Lemma columns_blocks_width : 0 <= 16 * Z.quot imageW 16 <= imageW.
Proof.
  pose proof (Z.quot_rem' imageW 16) as E.
  pose proof (Z.rem_bound_pos imageW 16).
  pose proof (Z.quot_pos imageW 16). lia.
Qed.

Lemma columns_blocks_height : 0 <= 64 * Z.quot imageH 64 <= imageH.
Proof.
  pose proof (Z.quot_rem' imageH 64) as E.
  pose proof (Z.rem_bound_pos imageH 64).
  pose proof (Z.quot_pos imageH 64). lia.
Qed.

Section Group.
Variables (gx gy : Z).
Hypothesis Hgx : 0 <= gx < Z.quot imageW 16.
Hypothesis Hgy : 0 <= gy < Z.quot imageH 64.

(** The ten loads of a work-item of the column pass. *)
Lemma columns_load_spec (it : nd_item2) (s : tile) :
  In it (work_items COLUMNS_BLOCKDIM_X COLUMNS_BLOCKDIM_Y gx gy) ->
  exists s1,
    columns_load d_Src imageH imageW it s = Some s1 /\ True /\
    (forall loc : Z * Z,
       s (fst loc) (snd loc)
       = columns_tile d_Src imageH imageW gx gy (fst loc) (snd loc) ->
       s1 (fst loc) (snd loc)
       = columns_tile d_Src imageH imageW gx gy (fst loc) (snd loc)) /\
    (forall loc : Z * Z,
       (fst loc = local_x it /\
        exists i, 0 <= i < 10 /\ snd loc = local_y it + i * 8) ->
       s1 (fst loc) (snd loc)
       = columns_tile d_Src imageH imageW gx gy (fst loc) (snd loc)).
Proof.
  intros Hit. apply in_work_items in Hit as (Egx & Egy & Hlx & Hly).
  unfold COLUMNS_BLOCKDIM_X, COLUMNS_BLOCKDIM_Y in Hlx, Hly.
  pose proof columns_blocks_width as EW.
  pose proof columns_blocks_height as EH.
  set (V := columns_tile d_Src imageH imageW gx gy).
  set (lx := local_x it) in *. set (ly := local_y it) in *.
  assert (Hstep : forall (guard : bool) i,
            0 <= i < 10 ->
            (guard = true ->
             0 <= (gy * 8 - 1) * 8 + ly + i * 8 < imageH) ->
            (guard = false ->
             ~ 0 <= (gy * 8 - 1) * 8 + ly + i * 8 < imageH) ->
            (if guard
             then bind (checked_int (i * 8 * imageW))
                    (fun k =>
                       load d_Src (((gy * 8 - 1) * 8 + ly) * imageW
                                   + (gx * 16 + lx) + k))
             else Some zero)
            = Some (V lx (ly + i * 8))).
  { intros guard i Hi Ht Hf. unfold V, columns_tile, padded_column.
    unfold COLUMNS_BLOCKDIM_X, COLUMNS_BLOCKDIM_Y, COLUMNS_RESULT_STEPS,
      COLUMNS_HALO_STEPS.
    replace ((gy * 8 - 1) * 8 + (ly + i * 8))
      with ((gy * 8 - 1) * 8 + ly + i * 8) by lia.
    destruct guard.
    - specialize (Ht eq_refl).
      rewrite checked_int_in_range
        by (unfold INT_MIN, INT_MAX in *;
            destruct (Z.eq_dec i 9) as [->|]; [lia | nia]).
      cbn [bind].
      replace (((gy * 8 - 1) * 8 + ly) * imageW + (gx * 16 + lx)
               + i * 8 * imageW)
        with (((gy * 8 - 1) * 8 + ly + i * 8) * imageW + (gx * 16 + lx))
        by lia.
      unfold load. rewrite (pixel_in_bounds imageW imageH) by (auto; lia).
      destruct (Z.leb_spec 0 ((gy * 8 - 1) * 8 + ly + i * 8));
        destruct (Z.ltb_spec ((gy * 8 - 1) * 8 + ly + i * 8) imageH);
        simpl; auto; lia.
    - specialize (Hf eq_refl).
      destruct (Z.leb_spec 0 ((gy * 8 - 1) * 8 + ly + i * 8));
        destruct (Z.ltb_spec ((gy * 8 - 1) * 8 + ly + i * 8) imageH);
        simpl; auto; lia. }
  unfold columns_load. rewrite Egx, Egy. fold lx ly.
  unfold COLUMNS_BLOCKDIM_X, COLUMNS_BLOCKDIM_Y, COLUMNS_RESULT_STEPS,
    COLUMNS_HALO_STEPS, for_range.
  assert (HWmax : 64 * imageW <= INT_MAX) by nia.
  assert (HHmax : 16 * imageH <= INT_MAX) by nia.
  rewrite (checked_int_in_range (gx * 16 + lx))
    by (unfold INT_MIN, INT_MAX in *; lia).
  cbn [bind].
  rewrite (checked_int_in_range ((gy * 8 - 1) * 8 + ly))
    by (unfold INT_MIN, INT_MAX in *; lia).
  cbn [bind].
  rewrite base_offset_in_range by (unfold INT_MIN, INT_MAX in *; nia).
  cbn [bind].
  rewrite (checked_int_in_range (imageH - ((gy * 8 - 1) * 8 + ly)))
    by (unfold INT_MIN, INT_MAX in *; lia).
  cbn [bind].
  set (step := fun (s : tile) i =>
                 tile_set s lx (ly + i * 8) (V lx (ly + i * 8))).
  destruct (mfold_pure (fun _ : tile => True)
              (fun s i =>
                 bind (bind (checked_int (i * 8 * imageW))
                         (fun k =>
                            load d_Src (((gy * 8 - 1) * 8 + ly) * imageW
                                        + (gx * 16 + lx) + k)))
                      (fun v => Some (tile_set s lx (ly + i * 8) v)))
              step (zrange 1 (1 + 8)) s) as [E1 _]; auto.
  { intros i s0 Hi _. apply in_zrange in Hi. split; auto.
    rewrite (Hstep true i) by lia. reflexivity. }
  rewrite E1. cbn [bind].
  destruct (mfold_pure (fun _ : tile => True)
              (fun s i =>
                 bind (if (gy * 8 - 1) * 8 + ly >=? - i * 8
                       then bind (checked_int (i * 8 * imageW))
                              (fun k =>
                                 load d_Src
                                   (((gy * 8 - 1) * 8 + ly) * imageW
                                    + (gx * 16 + lx) + k))
                       else Some zero)
                      (fun v => Some (tile_set s lx (ly + i * 8) v)))
              step (zrange 0 1)
              (fold_left step (zrange 1 (1 + 8)) s)) as [E2 _]; auto.
  { intros i s0 Hi _. apply in_zrange in Hi. split; auto.
    rewrite (Hstep _ i) by lia. reflexivity. }
  rewrite E2. cbn [bind].
  destruct (mfold_pure (fun _ : tile => True)
              (fun s i =>
                 bind (if imageH - ((gy * 8 - 1) * 8 + ly) >? i * 8
                       then bind (checked_int (i * 8 * imageW))
                              (fun k =>
                                 load d_Src
                                   (((gy * 8 - 1) * 8 + ly) * imageW
                                    + (gx * 16 + lx) + k))
                       else Some zero)
                      (fun v => Some (tile_set s lx (ly + i * 8) v)))
              step (zrange (1 + 8) (1 + 8 + 1))
              (fold_left step (zrange 0 1)
                 (fold_left step (zrange 1 (1 + 8)) s))) as [E3 _]; auto.
  { intros i s0 Hi _. apply in_zrange in Hi. split; auto.
    rewrite (Hstep _ i) by lia. reflexivity. }
  rewrite E3. eexists. split; [reflexivity|]. split; [exact I|].
  rewrite <- !fold_left_app.
  set (steps := zrange 1 (1 + 8) ++ zrange 0 1 ++ zrange (1 + 8) (1 + 8 + 1)).
  assert (Hkeep : forall loc : Z * Z, forall s0 i,
            s0 (fst loc) (snd loc) = V (fst loc) (snd loc) ->
            step s0 i (fst loc) (snd loc) = V (fst loc) (snd loc))
    by (intros loc s0 i H0; unfold step;
        now apply tile_set_consistent).
  split.
  - intros loc Hloc.
    apply (fold_left_preserves step
             (fun s0 => s0 (fst loc) (snd loc) = V (fst loc) (snd loc)));
      auto.
  - intros loc (Er & i & Hi & Ec).
    apply (fold_left_establishes step
             (fun s0 => s0 (fst loc) (snd loc) = V (fst loc) (snd loc))
             steps i).
    + unfold steps. rewrite !in_app_iff, !in_zrange. lia.
    + intros s0. rewrite Er, Ec. unfold step. apply tile_set_same.
    + intros s0 i' _. apply Hkeep.
Qed.

(** After the barrier [s_Data] holds the tile of the work-group with its
    halos, zero outside the image. *)
Lemma columns_load_phase (s0 : tile) :
  exists T,
    mfold (fun s it => columns_load d_Src imageH imageW it s)
      (work_items COLUMNS_BLOCKDIM_X COLUMNS_BLOCKDIM_Y gx gy) s0 = Some T /\
    forall r c, 0 <= r < 16 -> 0 <= c < 80 ->
      T r c = columns_tile d_Src imageH imageW gx gy r c.
Proof.
  destruct (mfold_covers
              (fun s it => columns_load d_Src imageH imageW it s)
              (fun _ => True)
              (fun (loc : Z * Z) (s : tile) =>
                 s (fst loc) (snd loc)
                 = columns_tile d_Src imageH imageW gx gy (fst loc)
                     (snd loc))
              (fun (loc : Z * Z) it =>
                 fst loc = local_x it /\
                 exists i, 0 <= i < 10 /\ snd loc = local_y it + i * 8)
              (work_items COLUMNS_BLOCKDIM_X COLUMNS_BLOCKDIM_Y gx gy) s0)
    as (T & E & _ & _ & C); auto.
  { intros it s Hit _. now apply columns_load_spec. }
  exists T. split; auto. intros r c Hr Hc.
  apply (C (r, c) {| group_x := gx; group_y := gy;
                     local_x := r; local_y := c mod 8 |}).
  - apply in_work_items. simpl.
    unfold COLUMNS_BLOCKDIM_X, COLUMNS_BLOCKDIM_Y.
    pose proof (Z.mod_pos_bound c 8). lia.
  - simpl. split; auto. exists (c / 8).
    pose proof (Z.div_mod c 8). pose proof (Z.mod_pos_bound c 8).
    assert (0 <= c / 8 < 10)
      by (split; [apply Z.div_pos | apply Z.div_lt_upper_bound]; lia).
    lia.
Qed.

(** The eight results of a work-item of the column pass. *)
Lemma columns_compute_spec (T : tile) (it : nd_item2) (d : buffer) :
  (forall r c, 0 <= r < 16 -> 0 <= c < 80 ->
     T r c = columns_tile d_Src imageH imageW gx gy r c) ->
  In it (work_items COLUMNS_BLOCKDIM_X COLUMNS_BLOCKDIM_Y gx gy) ->
  imageW * imageH <= buf_len d ->
  exists d1,
    columns_compute imageW c_Kernel T it d = Some d1 /\
    imageW * imageH <= buf_len d1 /\
    (forall loc,
       columns_done c_Kernel d_Src imageW imageH loc d ->
       columns_done c_Kernel d_Src imageW imageH loc d1) /\
    (forall loc : Z * Z,
       (fst loc = gx * 16 + local_x it /\
        exists i, 1 <= i < 9 /\
          snd loc = (gy * 8 - 1) * 8 + local_y it + i * 8) ->
       columns_done c_Kernel d_Src imageW imageH loc d1).
Proof.
  intros HT Hit Hd. apply in_work_items in Hit as (Egx & Egy & Hlx & Hly).
  unfold COLUMNS_BLOCKDIM_X, COLUMNS_BLOCKDIM_Y in Hlx, Hly.
  pose proof columns_blocks_width as EW.
  pose proof columns_blocks_height as EH.
  unfold COLUMNS_BLOCKDIM_Y, COLUMNS_HALO_STEPS in Hradius.
  unfold columns_compute, for_range. rewrite Egx, Egy.
  set (lx := local_x it) in *. set (ly := local_y it) in *.
  unfold COLUMNS_BLOCKDIM_X, COLUMNS_BLOCKDIM_Y, COLUMNS_RESULT_STEPS,
    COLUMNS_HALO_STEPS.
  assert (HWmax : 64 * imageW <= INT_MAX) by nia.
  assert (HHmax : 16 * imageH <= INT_MAX) by nia.
  rewrite (checked_int_in_range (gx * 16 + lx))
    by (unfold INT_MIN, INT_MAX in *; lia).
  cbn [bind].
  rewrite (checked_int_in_range ((gy * 8 - 1) * 8 + ly))
    by (unfold INT_MIN, INT_MAX in *; lia).
  cbn [bind].
  rewrite base_offset_in_range by (unfold INT_MIN, INT_MAX in *; nia).
  cbn [bind].
  destruct (mfold_covers
              (fun (s : buffer) i =>
                 bind (checked_int (i * 8 * imageW))
                   (fun k =>
                      store s (((gy * 8 - 1) * 8 + ly) * imageW
                               + (gx * 16 + lx) + k)
                        (weighted_sum c_Kernel
                           (fun j => T lx (ly + i * 8 + j)))))
              (fun s => imageW * imageH <= buf_len s)
              (columns_done c_Kernel d_Src imageW imageH)
              (fun (loc : Z * Z) i =>
                 fst loc = gx * 16 + lx /\
                 snd loc = (gy * 8 - 1) * 8 + ly + i * 8)
              (zrange 1 (1 + 8)) d)
    as (d1 & E & I1 & K1 & C1); auto.
  - intros i s Hi Hs. apply in_zrange in Hi.
    assert (Hx : 0 <= gx * 16 + lx < imageW) by lia.
    assert (Hy : 0 <= (gy * 8 - 1) * 8 + ly + i * 8 < imageH) by lia.
    assert (Hsum : weighted_sum c_Kernel (fun j => T lx (ly + i * 8 + j))
                   = column_convolution c_Kernel d_Src imageH imageW
                       (gx * 16 + lx) ((gy * 8 - 1) * 8 + ly + i * 8)).
    { unfold column_convolution. rewrite <- weighted_sum_kernel_sum.
      apply weighted_sum_ext. intros j Hj.
      rewrite HT by lia. unfold columns_tile.
      unfold COLUMNS_BLOCKDIM_X, COLUMNS_BLOCKDIM_Y, COLUMNS_RESULT_STEPS,
        COLUMNS_HALO_STEPS. f_equal. lia. }
    rewrite checked_int_in_range by (unfold INT_MIN, INT_MAX in *; nia).
    cbn [bind].
    replace (((gy * 8 - 1) * 8 + ly) * imageW + (gx * 16 + lx)
             + i * 8 * imageW)
      with (((gy * 8 - 1) * 8 + ly + i * 8) * imageW + (gx * 16 + lx))
      by lia.
    unfold store. rewrite (pixel_in_bounds imageW imageH) by assumption.
    eexists. split; [reflexivity|]. cbn [buf_len buf_data].
    split; [assumption|]. split.
    + intros loc [Hloc Hv]. split; auto. cbn [buf_data].
      destruct (Z.eqb_spec (snd loc * imageW + fst loc)
                  (((gy * 8 - 1) * 8 + ly + i * 8) * imageW
                   + (gx * 16 + lx))) as [Eq|]; auto.
      apply pixel_unique in Eq as [-> ->]; auto.
    + intros loc [Ex Ey]. split; [lia|]. cbn [buf_data].
      rewrite Ey, Ex, Z.eqb_refl. exact Hsum.
  - exists d1. split; [assumption|]. split; [assumption|].
    split; [assumption|].
    intros loc (Ex & i & Hi & Ey). apply (C1 loc i).
    + apply in_zrange. lia.
    + split; assumption.
Qed.

(** One work-group of the column pass: it succeeds and fills its tile of
    the destination. *)
Lemma convolutionColumnsKernel_spec (s0 : tile) (d : buffer) :
  imageW * imageH <= buf_len d ->
  exists d1,
    convolutionColumnsKernel d d_Src imageW imageH imageW gx gy c_Kernel s0
    = Some d1 /\
    imageW * imageH <= buf_len d1 /\
    (forall loc,
       columns_done c_Kernel d_Src imageW imageH loc d ->
       columns_done c_Kernel d_Src imageW imageH loc d1) /\
    (forall loc : Z * Z,
       gx * 16 <= fst loc < gx * 16 + 16 ->
       gy * 64 <= snd loc < gy * 64 + 64 ->
       columns_done c_Kernel d_Src imageW imageH loc d1).
Proof.
  intros Hd. unfold convolutionColumnsKernel.
  destruct (columns_load_phase s0) as (T & -> & HT). cbn [bind].
  destruct (mfold_covers
              (fun s it => columns_compute imageW c_Kernel T it s)
              (fun s => imageW * imageH <= buf_len s)
              (columns_done c_Kernel d_Src imageW imageH)
              (fun (loc : Z * Z) it =>
                 fst loc = gx * 16 + local_x it /\
                 exists i, 1 <= i < 9 /\
                   snd loc = (gy * 8 - 1) * 8 + local_y it + i * 8)
              (work_items COLUMNS_BLOCKDIM_X COLUMNS_BLOCKDIM_Y gx gy) d)
    as (d1 & E & I1 & K1 & C1); auto.
  { intros it s Hit Hs. now apply columns_compute_spec. }
  exists d1. split; [assumption|]. split; [assumption|].
  split; [assumption|]. intros loc Hx Hy.
  apply (C1 loc {| group_x := gx; group_y := gy;
                   local_x := fst loc - gx * 16;
                   local_y := (snd loc - gy * 64) mod 8 |}).
  - apply in_work_items. simpl.
    unfold COLUMNS_BLOCKDIM_X, COLUMNS_BLOCKDIM_Y.
    pose proof (Z.mod_pos_bound (snd loc - gy * 64) 8). lia.
  - simpl. split; [lia|]. exists ((snd loc - gy * 64) / 8 + 1).
    pose proof (Z.div_mod (snd loc - gy * 64) 8).
    pose proof (Z.mod_pos_bound (snd loc - gy * 64) 8).
    assert (0 <= (snd loc - gy * 64) / 8 < 8)
      by (split; [apply Z.div_pos | apply Z.div_lt_upper_bound]; lia).
    lia.
Qed.

End Group.

(** The dispatch of the column pass, whatever the size of the image: every
    work-group succeeds, and the pixels of the blocks of the grid hold the
    column convolution. *)
Lemma columns_dispatch_spec (s_Data0 : tile) (d_Dst : buffer) :
  imageW * imageH <= buf_len d_Dst ->
  exists d,
    mfold
      (fun s (g : Z * Z) =>
         convolutionColumnsKernel s d_Src imageW imageH imageW
           (fst g) (snd g) c_Kernel s_Data0)
      (work_groups (Z.quot imageW 16) (Z.quot imageH 64)) d_Dst = Some d /\
    forall x y,
      0 <= x < 16 * Z.quot imageW 16 -> 0 <= y < 64 * Z.quot imageH 64 ->
      buf_data d (y * imageW + x)
      = column_convolution c_Kernel d_Src imageH imageW x y.
Proof.
  intros Hd. pose proof columns_blocks_width as EW.
  pose proof columns_blocks_height as EH.
  destruct (mfold_covers
              (fun s (g : Z * Z) =>
                 convolutionColumnsKernel s d_Src imageW imageH imageW
                   (fst g) (snd g) c_Kernel s_Data0)
              (fun s => imageW * imageH <= buf_len s)
              (columns_done c_Kernel d_Src imageW imageH)
              (fun (loc : Z * Z) (g : Z * Z) =>
                 fst g * 16 <= fst loc < fst g * 16 + 16 /\
                 snd g * 64 <= snd loc < snd g * 64 + 64)
              (work_groups (Z.quot imageW 16) (Z.quot imageH 64)) d_Dst)
    as (d1 & -> & I1 & K1 & C1); auto.
  { intros g s Hg Hs. apply in_work_groups in Hg as [Hgx Hgy].
    destruct (convolutionColumnsKernel_spec (fst g) (snd g) Hgx Hgy s_Data0
                s Hs) as (s1 & E & I & K & C).
    exists s1. split; [assumption|]. split; [assumption|].
    split; [assumption|]. intros loc [Hx Hy]. now apply C. }
  exists d1. split; auto. intros x y Hx Hy.
  apply (C1 (x, y) (x / 16, y / 64)).
  - apply in_work_groups. simpl.
    split; (split; [apply Z.div_pos | apply Z.div_lt_upper_bound]; lia).
  - simpl. pose proof (Z.div_mod x 16). pose proof (Z.div_mod y 64).
    pose proof (Z.mod_pos_bound x 16). pose proof (Z.mod_pos_bound y 64).
    lia.
Qed.

(** The column pass under its preconditions. *)
Lemma convolutionColumnsGPU_spec (s_Data0 : tile) (d_Dst : buffer) :
  imageW * imageH <= buf_len d_Dst ->
  exists d,
    convolutionColumnsGPU c_Kernel s_Data0 d_Dst d_Src imageW imageH
    = Completed d /\
    forall x y, 0 <= x < imageW -> 0 <= y < imageH ->
      buf_data d (y * imageW + x)
      = column_convolution c_Kernel d_Src imageH imageW x y.
Proof.
  intros Hd.
  assert (EW : imageW = 16 * Z.quot imageW 16).
  { pose proof (Z.quot_rem' imageW 16) as E.
    change COLUMNS_BLOCKDIM_X with 16 in HdivW. lia. }
  assert (EH : imageH = 64 * Z.quot imageH 64).
  { pose proof (Z.quot_rem' imageH 64) as E.
    change (COLUMNS_RESULT_STEPS * COLUMNS_BLOCKDIM_Y) with 64 in HdivH.
    lia. }
  unfold convolutionColumnsGPU, assert.
  assert (E1 : (COLUMNS_BLOCKDIM_Y * COLUMNS_HALO_STEPS >=? KERNEL_RADIUS)
               = true)
    by (apply Z.geb_le; lia).
  rewrite E1, HdivW, HdivH, !orb_true_r. cbn [negb].
  change (COLUMNS_RESULT_STEPS * COLUMNS_BLOCKDIM_Y) with 64.
  change COLUMNS_BLOCKDIM_X with 16.
  destruct (columns_dispatch_spec s_Data0 d_Dst Hd) as (d & -> & Hpix).
  exists d. split; auto. intros x y Hx Hy. apply Hpix; lia.
Qed.

End ColumnsFacts.

(** ** Theorems on the convolution passes *)

Section ConvolutionTheorems.
Context {F : Type} {AF : Arith F}.
Context {CH : convolutionSeparable_common_h} {BF : build_flags}.
Local Open Scope Z_scope.
Local Abbreviation buffer := (@buffer F).
Local Abbreviation tile := (@tile F).


(** C4, as amended.  The dimension preconditions are checked at run time by
    the assertions at the head of [convolutionRowsGPU] and
    [convolutionColumnsGPU]: in a build where [assert] is active ([NDEBUG]
    not defined), for every input that violates one of them the function
    stops at the failed assertion, before any kernel is dispatched, and
    produces no output. *)
Theorem dimension_violations_fail_the_assertions
    (c_Kernel : Z -> F) (s_Data0 : tile) (d_Dst d_Src : buffer)
    (imageW imageH : Z) :
  NDEBUG = false ->
  (Z.rem imageW (ROWS_RESULT_STEPS * ROWS_BLOCKDIM_X) <> 0 \/
   Z.rem imageH ROWS_BLOCKDIM_Y <> 0 ->
   convolutionRowsGPU c_Kernel s_Data0 d_Dst d_Src imageW imageH
   = AssertionFailed) /\
  (Z.rem imageW COLUMNS_BLOCKDIM_X <> 0 \/
   Z.rem imageH (COLUMNS_RESULT_STEPS * COLUMNS_BLOCKDIM_Y) <> 0 ->
   convolutionColumnsGPU c_Kernel s_Data0 d_Dst d_Src imageW imageH
   = AssertionFailed).
Proof.
  intros HN. unfold convolutionRowsGPU, convolutionColumnsGPU, assert.
  rewrite HN. cbn [orb]. split; intros Hv.
  - destruct (ROWS_BLOCKDIM_X * ROWS_HALO_STEPS >=? KERNEL_RADIUS); auto.
    destruct (Z.eqb_spec (Z.rem imageW (ROWS_RESULT_STEPS * ROWS_BLOCKDIM_X))
                0); auto.
    destruct (Z.eqb_spec (Z.rem imageH ROWS_BLOCKDIM_Y) 0); auto.
    tauto.
  - destruct (COLUMNS_BLOCKDIM_Y * COLUMNS_HALO_STEPS >=? KERNEL_RADIUS);
      auto.
    destruct (Z.eqb_spec (Z.rem imageW COLUMNS_BLOCKDIM_X) 0); auto.
    destruct (Z.eqb_spec
                (Z.rem imageH (COLUMNS_RESULT_STEPS * COLUMNS_BLOCKDIM_Y))
                0); auto.
    tauto.
Qed.

(** For a height that is a multiple of 64, an image of at most [INT_MAX]
    pixels leaves the offset of the lower halo, [72 * imageW], within
    [int]. *)
Lemma lower_halo_offset (imageW imageH : Z) :
  0 <= imageW -> 0 <= imageH ->
  Z.rem imageH (COLUMNS_RESULT_STEPS * COLUMNS_BLOCKDIM_Y) = 0 ->
  imageW * imageH <= INT_MAX ->
  64 < imageH -> 72 * imageW <= INT_MAX.
Proof.
  intros HW HH HdH Hint Hlt.
  change (COLUMNS_RESULT_STEPS * COLUMNS_BLOCKDIM_Y) with 64 in HdH.
  pose proof (Z.quot_rem' imageH 64) as E. rewrite HdH in E.
  assert (2 <= Z.quot imageH 64) by lia. nia.
Qed.

(** The weighted sum with the identity kernel of radius 2 is the middle
    tap. *)
Lemma identity_weighted_sum (c0 : Z -> F) (tap : Z -> F) :
  KERNEL_RADIUS = 2 ->
  (forall j k, -2 <= j <= 2 -> -2 <= k <= 2 ->
     well_behaved (tap j) (tap k)) ->
  weighted_sum (setConvolutionKernel identity_kernel c0) tap = tap 0.
Proof.
  intros HR Hwb. unfold weighted_sum, setConvolutionKernel, KERNEL_LENGTH.
  rewrite HR.
  destruct (Hwb (-2) (-2)) as (H1 & _ & _); try lia.
  destruct (Hwb (-1) (-1)) as (H2 & _ & _); try lia.
  destruct (Hwb 0 1) as (_ & H3 & H4); try lia.
  destruct (Hwb 0 2) as (_ & _ & H5); try lia.
  cbv - [add mul zero one].
  now rewrite H1, H2, H3, H4, H5.
Qed.

Lemma padded_row_pixel_value (d_Src : buffer) (imageW imageH y c : Z) :
  0 <= y < imageH ->
  pixel_value d_Src imageW imageH (padded_row d_Src imageW imageW y c).
Proof.
  intros Hy. unfold padded_row, pixel_value.
  destruct (Z.leb_spec 0 c); destruct (Z.ltb_spec c imageW); simpl; auto.
  right. exists (y * imageW + c). split; auto. nia.
Qed.

Lemma padded_column_pixel_value (d_Src : buffer) (imageW imageH x r : Z) :
  0 <= x < imageW ->
  pixel_value d_Src imageW imageH (padded_column d_Src imageH imageW x r).
Proof.
  intros Hx. unfold padded_column, pixel_value.
  destruct (Z.leb_spec 0 r); destruct (Z.ltb_spec r imageH); simpl; auto.
  right. exists (r * imageW + x). split; auto. nia.
Qed.

(** C6, as amended.  For an image that satisfies the divisibility
    preconditions of a pass and whose values (with the zero that pads the
    image) are well behaved under the products by zero and one that the
    identity kernel [[0, 0, 1, 0, 0]] performs, as all values are in exact
    arithmetic, the row pass alone and the column pass alone each write a
    destination equal, pixel for pixel, to the source.  The image has at
    most [INT_MAX] pixels, so that the offsets the kernels compute in [int]
    do not overflow. *)
Theorem identity_kernel_reproduces_the_image
    (c0 : Z -> F) (s_Data0 : tile) (d_Dst d_Src : buffer)
    (imageW imageH : Z) :
  KERNEL_RADIUS = 2 ->
  0 <= imageW -> 0 <= imageH ->
  imageW * imageH <= INT_MAX ->
  imageW * imageH <= buf_len d_Src ->
  imageW * imageH <= buf_len d_Dst ->
  (forall v w,
     pixel_value d_Src imageW imageH v ->
     pixel_value d_Src imageW imageH w -> well_behaved v w) ->
  (Z.rem imageW (ROWS_RESULT_STEPS * ROWS_BLOCKDIM_X) = 0 ->
   Z.rem imageH ROWS_BLOCKDIM_Y = 0 ->
   exists d,
     convolutionRowsGPU (setConvolutionKernel identity_kernel c0) s_Data0
       d_Dst d_Src imageW imageH = Completed d /\
     forall x y, 0 <= x < imageW -> 0 <= y < imageH ->
       buf_data d (y * imageW + x) = buf_data d_Src (y * imageW + x)) /\
  (Z.rem imageW COLUMNS_BLOCKDIM_X = 0 ->
   Z.rem imageH (COLUMNS_RESULT_STEPS * COLUMNS_BLOCKDIM_Y) = 0 ->
   exists d,
     convolutionColumnsGPU (setConvolutionKernel identity_kernel c0) s_Data0
       d_Dst d_Src imageW imageH = Completed d /\
     forall x y, 0 <= x < imageW -> 0 <= y < imageH ->
       buf_data d (y * imageW + x) = buf_data d_Src (y * imageW + x)).
Proof.
  intros HR HW HH Hint Hsrc Hdst Hwb. split; intros HdW HdH.
  - destruct (convolutionRowsGPU_spec
                (setConvolutionKernel identity_kernel c0) d_Src imageW imageH)
      with (s_Data0 := s_Data0) (d_Dst := d_Dst) as (d & E & Hd); auto.
    { rewrite HR. unfold ROWS_BLOCKDIM_X, ROWS_HALO_STEPS. lia. }
    exists d. split; auto. intros x y Hx Hy. rewrite (Hd x y Hx Hy).
    unfold row_convolution.
    rewrite <- weighted_sum_kernel_sum, identity_weighted_sum; auto.
    + unfold padded_row. rewrite Z.add_0_r.
      destruct (Z.leb_spec 0 x); destruct (Z.ltb_spec x imageW); simpl;
        auto; lia.
    + intros j k _ _. apply Hwb; now apply padded_row_pixel_value.
  - destruct (convolutionColumnsGPU_spec
                (setConvolutionKernel identity_kernel c0) d_Src imageW imageH)
      with (s_Data0 := s_Data0) (d_Dst := d_Dst) as (d & E & Hd); auto.
    { rewrite HR. unfold COLUMNS_BLOCKDIM_Y, COLUMNS_HALO_STEPS. lia. }
    { now apply (lower_halo_offset imageW imageH). }
    exists d. split; auto. intros x y Hx Hy. rewrite (Hd x y Hx Hy).
    unfold column_convolution.
    rewrite <- weighted_sum_kernel_sum, identity_weighted_sum; auto.
    + unfold padded_column. rewrite Z.add_0_r.
      destruct (Z.leb_spec 0 y); destruct (Z.ltb_spec y imageH); simpl;
        auto; lia.
    + intros j k _ _. apply Hwb; now apply padded_column_pixel_value.
Qed.

End ConvolutionTheorems.

(** ** The convolution passes on concrete binary32 images *)

Section ConvolutionWitnesses.
Local Open Scope Z_scope.


(** C4, the sentence as written.  With assertions active, a width of 100
    (not a multiple of 128) makes [convolutionRowsGPU] stop at its second
    assertion: the violation is checked, and there is no output at all. *)
Lemma convolutionRowsGPU_checks_the_width :
  Z.rem 100 (ROWS_RESULT_STEPS * ROWS_BLOCKDIM_X) <> 0 /\
  convolutionRowsGPU (CH := radius_8) (BF := assertions_on)
    stale_kernel stale_tile (blank_buffer 400) (image_with two32 400) 100 4
  = AssertionFailed /\
  forall d,
    convolutionRowsGPU (CH := radius_8) (BF := assertions_on)
      stale_kernel stale_tile (blank_buffer 400) (image_with two32 400)
      100 4
    <> Completed d.
Proof.
  split; [discriminate|]. split; [reflexivity|]. discriminate.
Qed.

Lemma dimension_violations_fail_the_assertions_witness :
  (Z.rem 100 (ROWS_RESULT_STEPS * ROWS_BLOCKDIM_X) <> 0 \/
   Z.rem 4 ROWS_BLOCKDIM_Y <> 0 ->
   convolutionRowsGPU (CH := radius_8) (BF := assertions_on)
     stale_kernel stale_tile (blank_buffer 400) (image_with two32 400)
     100 4 = AssertionFailed) /\
  (Z.rem 100 COLUMNS_BLOCKDIM_X <> 0 \/
   Z.rem 4 (COLUMNS_RESULT_STEPS * COLUMNS_BLOCKDIM_Y) <> 0 ->
   convolutionColumnsGPU (CH := radius_8) (BF := assertions_on)
     stale_kernel stale_tile (blank_buffer 400) (image_with two32 400)
     100 4 = AssertionFailed).
Proof.
  apply (dimension_violations_fail_the_assertions
           (CH := radius_8) (BF := assertions_on)).
  reflexivity.
Defined.

(** In exact arithmetic every pair of values is well behaved. *)
Lemma Qc_well_behaved (v w : Qc) : well_behaved v w.
Proof. repeat split; simpl; ring. Qed.

(** The values 0.0, 1.0 and 2.0 are well behaved in binary32. *)
Lemma image_with_two32_well_behaved (n : Z) (v w : spec_float) :
  pixel_value (image_with two32 n) 128 64 v ->
  pixel_value (image_with two32 n) 128 64 w ->
  well_behaved v w.
Proof.
  assert (Hv : forall u, pixel_value (image_with two32 n) 128 64 u ->
                 u = zero \/ u = two32 \/ u = one).
  { intros u [-> | (i & _ & ->)]; auto. cbn. destruct (i =? 0); auto. }
  intros [-> | [-> | ->]]%Hv [-> | [-> | ->]]%Hv;
    repeat split; vm_compute; reflexivity.
Qed.

(** Both passes with the identity kernel on a 128 x 64 image of 1.0 and
    2.0. *)
Lemma identity_kernel_reproduces_the_image_witness :
  (exists d,
     convolutionRowsGPU (CH := radius_2) (BF := assertions_on)
       (setConvolutionKernel (CH := radius_2) identity_kernel stale_kernel)
       stale_tile (blank_buffer 8192) (image_with two32 8192) 128 64
     = Completed d /\
     forall x y, 0 <= x < 128 -> 0 <= y < 64 ->
       buf_data d (y * 128 + x)
       = buf_data (image_with two32 8192) (y * 128 + x)) /\
  (exists d,
     convolutionColumnsGPU (CH := radius_2) (BF := assertions_on)
       (setConvolutionKernel (CH := radius_2) identity_kernel stale_kernel)
       stale_tile (blank_buffer 8192) (image_with two32 8192) 128 64
     = Completed d /\
     forall x y, 0 <= x < 128 -> 0 <= y < 64 ->
       buf_data d (y * 128 + x)
       = buf_data (image_with two32 8192) (y * 128 + x)).
Proof.
  destruct (identity_kernel_reproduces_the_image
              (CH := radius_2) (BF := assertions_on)
              stale_kernel stale_tile (blank_buffer 8192)
              (image_with two32 8192) 128 64) as [HRows HCols];
    try reflexivity; try (cbn; unfold INT_MAX; lia).
  - apply image_with_two32_well_behaved.
  - split; [apply HRows | apply HCols]; reflexivity.
Defined.

(** C6, the sentence as written.  In binary32 the first pixel of a 128 x 4
    image is +infinity and the others are 1.0.  The image satisfies every
    precondition of the row pass, which completes; but the weight 0.0 of
    the identity kernel times +infinity is NaN, so the output pixel (1, 0),
    whose window contains the first pixel, is NaN and not the 1.0 of the
    source. *)
Lemma identity_kernel_spoils_the_neighbours_of_infinity :
  exists d,
    convolutionRowsGPU (CH := radius_2) (BF := assertions_on)
      (setConvolutionKernel (CH := radius_2) identity_kernel stale_kernel)
      stale_tile (blank_buffer 512) (image_with infinity32 512) 128 4
    = Completed d /\
    buf_data d 1 = S754_nan /\
    buf_data (image_with infinity32 512) 1 = one /\
    buf_data d 1 <> buf_data (image_with infinity32 512) 1.
Proof.
  destruct (convolutionRowsGPU_spec (CH := radius_2) (BF := assertions_on)
              (setConvolutionKernel (CH := radius_2) identity_kernel
                 stale_kernel)
              (image_with infinity32 512) 128 4)
    with (s_Data0 := stale_tile) (d_Dst := blank_buffer 512)
    as (d & E & Hd);
    try reflexivity;
    try (cbn; unfold ROWS_BLOCKDIM_X, ROWS_HALO_STEPS, INT_MAX; lia).
  exists d. split; [exact E|].
  assert (H1 : buf_data d 1 = S754_nan).
  { change 1 with (0 * 128 + 1). rewrite Hd by lia.
    vm_compute. reflexivity. }
  split; [exact H1|]. split; [reflexivity|].
  rewrite H1. discriminate.
Qed.

End ConvolutionWitnesses.

(** * Further properties *)

(** ** Folds that may fault, continued *)

Section MonadInvariants.

(** What every successful step keeps, a successful fold keeps. *)
Lemma mfold_invariant {St A : Type} (f : St -> A -> option St)
    (P : St -> Prop) (l : list A) (s s' : St) :
  (forall a s0 s1, In a l -> P s0 -> f s0 a = Some s1 -> P s1) ->
  P s -> mfold f l s = Some s' -> P s'.
Proof.
  revert s. induction l as [|a l IH]; intros s Hf Hs E; simpl in E.
  - now inversion E; subst.
  - destruct (f s a) as [s1|] eqn:E1; simpl in E; [|discriminate].
    apply (IH s1); auto.
    + intros a' s0 s2 Ha'. apply Hf. now right.
    + apply (Hf a s s1); auto. now left.
Qed.

(** A fold with a step that faults in every state the fold can reach
    faults. *)
Lemma mfold_fails {St A : Type} (f : St -> A -> option St)
    (P : St -> Prop) (l : list A) (a : A) (s : St) :
  In a l ->
  (forall a' s0 s1, In a' l -> P s0 -> f s0 a' = Some s1 -> P s1) ->
  (forall s0, P s0 -> f s0 a = None) ->
  P s -> mfold f l s = None.
Proof.
  revert s. induction l as [|a' l IH]; intros s Ha Hf Hfail Hs; [easy|].
  simpl. destruct (f s a') as [s1|] eqn:E1; simpl; auto.
  destruct Ha as [->|Ha].
  - rewrite Hfail in E1 by assumption. discriminate.
  - apply IH; auto.
    + intros a0 s0 s2 Ha0. apply Hf. now right.
    + apply (Hf a' s s1); auto. now left.
Qed.

End MonadInvariants.

(** ** What the convolution passes leave untouched *)

Section ConvolutionFrames.
Context {F : Type} {AF : Arith F}.
Context {CH : convolutionSeparable_common_h}.
Local Open Scope Z_scope.
Local Abbreviation buffer := (@buffer F).
Local Abbreviation tile := (@tile F).

Lemma same_outside_refl (R : Z -> Prop) (d : buffer) : same_outside R d d.
Proof. split; auto. Qed.

(** A store inside the region. *)
Lemma store_same_outside (R : Z -> Prop) (d0 s s1 : buffer) (i : Z) (v : F) :
  R i -> same_outside R d0 s -> store s i v = Some s1 ->
  same_outside R d0 s1.
Proof.
  intros Hi [Hl Hd] E. unfold store in E.
  destruct (in_bounds s i); [|discriminate]. inversion E; subst; clear E.
  split; cbn [buf_len buf_data]; auto.
  intros j Hj. destruct (Z.eqb_spec j i); subst; [tauto | auto].
Qed.

Variables (c_Kernel : Z -> F) (d_Src : buffer) (imageW imageH : Z).

(** One work-group of the row pass writes pixels of its block only. *)
Lemma convolutionRowsKernel_frame (bw bh gx gy : Z) (s0 : tile)
    (d0 d d1 : buffer) :
  0 <= gx -> gx * 128 + 128 <= bw -> 0 <= gy -> gy * 4 + 4 <= bh ->
  same_outside (block_pixel imageW bw bh) d0 d ->
  convolutionRowsKernel d d_Src imageW imageH imageW gx gy c_Kernel s0
  = Some d1 ->
  same_outside (block_pixel imageW bw bh) d0 d1.
Proof.
  intros Hgx Hbw Hgy Hbh Hd E. unfold convolutionRowsKernel in E.
  destruct (mfold _ _ s0) as [T|]; cbn [bind] in E; [|discriminate].
  revert E. apply mfold_invariant; auto.
  intros it s s1 Hit Hs E.
  apply in_work_items in Hit as (Egx & Egy & Hlx & Hly).
  unfold ROWS_BLOCKDIM_X, ROWS_BLOCKDIM_Y in Hlx, Hly.
  revert E. unfold rows_compute, for_range.
  repeat invert_check.
  apply mfold_invariant; auto.
  intros i b b1 Hi Hb E. apply in_zrange in Hi.
  unfold ROWS_HALO_STEPS, ROWS_RESULT_STEPS in Hi.
  revert E. apply store_same_outside; auto.
  rewrite Egx, Egy.
  unfold ROWS_BLOCKDIM_X, ROWS_BLOCKDIM_Y, ROWS_RESULT_STEPS,
    ROWS_HALO_STEPS.
  exists ((gx * 8 - 1) * 16 + local_x it + i * 16), (gy * 4 + local_y it).
  lia.
Qed.

(** The dispatch of the row pass writes pixels of the blocks of the grid
    only. *)
Lemma rows_dispatch_frame (s_Data0 : tile) (d_Dst d : buffer) :
  mfold
    (fun s (g : Z * Z) =>
       convolutionRowsKernel s d_Src imageW imageH imageW
         (fst g) (snd g) c_Kernel s_Data0)
    (work_groups (Z.quot imageW 128) (Z.quot imageH 4)) d_Dst = Some d ->
  same_outside
    (block_pixel imageW (128 * Z.quot imageW 128) (4 * Z.quot imageH 4))
    d_Dst d.
Proof.
  apply mfold_invariant; [|apply same_outside_refl].
  intros g s s1 Hg Hs E. apply in_work_groups in Hg as [Hgx Hgy].
  revert E. apply convolutionRowsKernel_frame; auto; lia.
Qed.

(** One work-group of the column pass writes pixels of its block only. *)
Lemma convolutionColumnsKernel_frame (bw bh gx gy : Z) (s0 : tile)
    (d0 d d1 : buffer) :
  0 <= gx -> gx * 16 + 16 <= bw -> 0 <= gy -> gy * 64 + 64 <= bh ->
  same_outside (block_pixel imageW bw bh) d0 d ->
  convolutionColumnsKernel d d_Src imageW imageH imageW gx gy c_Kernel s0
  = Some d1 ->
  same_outside (block_pixel imageW bw bh) d0 d1.
Proof.
  intros Hgx Hbw Hgy Hbh Hd E. unfold convolutionColumnsKernel in E.
  destruct (mfold _ _ s0) as [T|]; cbn [bind] in E; [|discriminate].
  revert E. apply mfold_invariant; auto.
  intros it s s1 Hit Hs E.
  apply in_work_items in Hit as (Egx & Egy & Hlx & Hly).
  unfold COLUMNS_BLOCKDIM_X, COLUMNS_BLOCKDIM_Y in Hlx, Hly.
  revert E. unfold columns_compute, for_range.
  repeat invert_check.
  apply mfold_invariant; auto.
  intros i b b1 Hi Hb E. apply in_zrange in Hi.
  unfold COLUMNS_HALO_STEPS, COLUMNS_RESULT_STEPS in Hi.
  revert E.
  invert_check.
  apply store_same_outside; auto.
  rewrite Egx, Egy.
  unfold COLUMNS_BLOCKDIM_X, COLUMNS_BLOCKDIM_Y, COLUMNS_RESULT_STEPS,
    COLUMNS_HALO_STEPS.
  exists (gx * 16 + local_x it), ((gy * 8 - 1) * 8 + local_y it + i * 8).
  lia.
Qed.

Lemma columns_dispatch_frame (s_Data0 : tile) (d_Dst d : buffer) :
  mfold
    (fun s (g : Z * Z) =>
       convolutionColumnsKernel s d_Src imageW imageH imageW
         (fst g) (snd g) c_Kernel s_Data0)
    (work_groups (Z.quot imageW 16) (Z.quot imageH 64)) d_Dst = Some d ->
  same_outside
    (block_pixel imageW (16 * Z.quot imageW 16) (64 * Z.quot imageH 64))
    d_Dst d.
Proof.
  apply mfold_invariant; [|apply same_outside_refl].
  intros g s s1 Hg Hs E. apply in_work_groups in Hg as [Hgx Hgy].
  revert E. apply convolutionColumnsKernel_frame; auto; lia.
Qed.

End ConvolutionFrames.

(** ** Further theorems on the convolution passes *)

Section ConvolutionFurther.
Context {F : Type} {AF : Arith F}.
Context {CH : convolutionSeparable_common_h} {BF : build_flags}.
Local Open Scope Z_scope.
Local Abbreviation buffer := (@buffer F).
Local Abbreviation tile := (@tile F).

(** The offsets of the pixels of a block lie inside the image. *)
Lemma block_pixel_inside (imageW imageH bw bh i : Z) :
  0 <= bw <= imageW -> 0 <= bh <= imageH ->
  block_pixel imageW bw bh i -> 0 <= i < imageW * imageH.
Proof. intros Hw Hh (x & y & Hx & Hy & ->). nia. Qed.

(** A pixel outside a block is none of its pixels. *)
Lemma not_block_pixel (imageW bw bh x y : Z) :
  0 <= x < imageW -> bw <= imageW -> ~ (x < bw /\ 0 <= y < bh) ->
  ~ block_pixel imageW bw bh (y * imageW + x).
Proof.
  intros Hx Hw Hout (x' & y' & Hx' & Hy' & E).
  apply pixel_unique in E as [-> ->]; lia.
Qed.

Lemma quot_blocks (n b : Z) : 0 <= n -> 0 < b -> 0 <= b * Z.quot n b <= n.
Proof.
  intros Hn Hb. pose proof (Z.quot_rem' n b).
  pose proof (Z.rem_bound_pos n b). pose proof (Z.quot_pos n b). lia.
Qed.

(** X1.  For an image whose width is a multiple of [COLUMNS_BLOCKDIM_X] and
    whose height is a multiple of
    [COLUMNS_RESULT_STEPS * COLUMNS_BLOCKDIM_Y], held in buffers of
    [imageW * imageH] elements, and a kernel radius that passes the first
    assertion, [convolutionColumnsGPU] completes without an out-of-bounds
    access and every pixel [(x, y)] of the destination holds
    [Σ_{j=-KERNEL_RADIUS}^{KERNEL_RADIUS} kernel[KERNEL_RADIUS-j]·src[(y+j)*pitch+x]]
    with [pitch = imageW], a read whose row [y + j] is outside
    [[0, imageH)] being replaced by zero.  The image has at most [INT_MAX]
    pixels, so that the offsets the kernel computes in [int] do not
    overflow. *)
Theorem convolutionColumnsGPU_computes_column_convolution
    (c_Kernel : Z -> F) (s_Data0 : tile) (d_Dst d_Src : buffer)
    (imageW imageH : Z) :
  0 <= KERNEL_RADIUS <= COLUMNS_BLOCKDIM_Y * COLUMNS_HALO_STEPS ->
  0 <= imageW -> 0 <= imageH ->
  Z.rem imageW COLUMNS_BLOCKDIM_X = 0 ->
  Z.rem imageH (COLUMNS_RESULT_STEPS * COLUMNS_BLOCKDIM_Y) = 0 ->
  imageW * imageH <= INT_MAX ->
  imageW * imageH <= buf_len d_Src ->
  imageW * imageH <= buf_len d_Dst ->
  exists d,
    convolutionColumnsGPU c_Kernel s_Data0 d_Dst d_Src imageW imageH
    = Completed d /\
    forall x y, 0 <= x < imageW -> 0 <= y < imageH ->
      buf_data d (y * imageW + x)
      = column_convolution c_Kernel d_Src imageH imageW x y.
Proof.
  intros HR HW HH HdW HdH Hint Hsrc Hdst.
  apply convolutionColumnsGPU_spec; auto.
  now apply lower_halo_offset.
Qed.

(** The dispatch is what is left of a host function once its assertions are
    passed. *)
Lemma convolutionRowsGPU_completed (c_Kernel : Z -> F) (s_Data0 : tile)
    (d_Dst d_Src d : buffer) (imageW imageH : Z) :
  convolutionRowsGPU c_Kernel s_Data0 d_Dst d_Src imageW imageH
  = Completed d ->
  mfold
    (fun s (g : Z * Z) =>
       convolutionRowsKernel s d_Src imageW imageH imageW
         (fst g) (snd g) c_Kernel s_Data0)
    (work_groups (Z.quot imageW 128) (Z.quot imageH 4)) d_Dst = Some d.
Proof.
  unfold convolutionRowsGPU.
  repeat match goal with
         | |- context [if ?c then AssertionFailed else _] =>
             destruct c; [discriminate|]
         end.
  change (ROWS_RESULT_STEPS * ROWS_BLOCKDIM_X) with 128.
  change ROWS_BLOCKDIM_Y with 4.
  destruct (mfold _ _ d_Dst); [|discriminate].
  intros E. now inversion E.
Qed.

Lemma convolutionColumnsGPU_completed (c_Kernel : Z -> F) (s_Data0 : tile)
    (d_Dst d_Src d : buffer) (imageW imageH : Z) :
  convolutionColumnsGPU c_Kernel s_Data0 d_Dst d_Src imageW imageH
  = Completed d ->
  mfold
    (fun s (g : Z * Z) =>
       convolutionColumnsKernel s d_Src imageW imageH imageW
         (fst g) (snd g) c_Kernel s_Data0)
    (work_groups (Z.quot imageW 16) (Z.quot imageH 64)) d_Dst = Some d.
Proof.
  unfold convolutionColumnsGPU.
  repeat match goal with
         | |- context [if ?c then AssertionFailed else _] =>
             destruct c; [discriminate|]
         end.
  change (COLUMNS_RESULT_STEPS * COLUMNS_BLOCKDIM_Y) with 64.
  change COLUMNS_BLOCKDIM_X with 16.
  destruct (mfold _ _ d_Dst); [|discriminate].
  intros E. now inversion E.
Qed.

(** X2.  Whenever [convolutionRowsGPU] completes, in any build and for any
    image size, the destination keeps its length and every element that is
    not a pixel of the blocks of the grid (the first
    [128 * (imageW / 128)] columns of the first [4 * (imageH / 4)] rows)
    keeps its value; in particular nothing is written outside the
    [imageW * imageH] elements of the image. *)
Theorem convolutionRowsGPU_writes_only_block_pixels
    (c_Kernel : Z -> F) (s_Data0 : tile) (d_Dst d_Src d : buffer)
    (imageW imageH : Z) :
  0 <= imageW -> 0 <= imageH ->
  convolutionRowsGPU c_Kernel s_Data0 d_Dst d_Src imageW imageH
  = Completed d ->
  buf_len d = buf_len d_Dst /\
  (forall i,
     ~ block_pixel imageW (128 * Z.quot imageW 128) (4 * Z.quot imageH 4) i ->
     buf_data d i = buf_data d_Dst i) /\
  (forall i, ~ 0 <= i < imageW * imageH -> buf_data d i = buf_data d_Dst i).
Proof.
  intros HW HH E. apply convolutionRowsGPU_completed in E.
  apply rows_dispatch_frame in E as [Hl Hd].
  split; [assumption|]. split; [assumption|].
  intros i Hi. apply Hd. intros Hb. apply Hi.
  apply (block_pixel_inside imageW imageH) in Hb; auto;
    apply quot_blocks; lia.
Qed.

(** X3.  Whenever [convolutionColumnsGPU] completes, in any build and for
    any image size, the destination keeps its length and every element that
    is not a pixel of the blocks of the grid (the first
    [16 * (imageW / 16)] columns of the first [64 * (imageH / 64)] rows)
    keeps its value; in particular nothing is written outside the
    [imageW * imageH] elements of the image. *)
Theorem convolutionColumnsGPU_writes_only_block_pixels
    (c_Kernel : Z -> F) (s_Data0 : tile) (d_Dst d_Src d : buffer)
    (imageW imageH : Z) :
  0 <= imageW -> 0 <= imageH ->
  convolutionColumnsGPU c_Kernel s_Data0 d_Dst d_Src imageW imageH
  = Completed d ->
  buf_len d = buf_len d_Dst /\
  (forall i,
     ~ block_pixel imageW (16 * Z.quot imageW 16) (64 * Z.quot imageH 64) i ->
     buf_data d i = buf_data d_Dst i) /\
  (forall i, ~ 0 <= i < imageW * imageH -> buf_data d i = buf_data d_Dst i).
Proof.
  intros HW HH E. apply convolutionColumnsGPU_completed in E.
  apply columns_dispatch_frame in E as [Hl Hd].
  split; [assumption|]. split; [assumption|].
  intros i Hi. apply Hd. intros Hb. apply Hi.
  apply (block_pixel_inside imageW imageH) in Hb; auto;
    apply quot_blocks; lia.
Qed.

(** X4.  In a build with [NDEBUG], where the assertions are compiled out,
    [convolutionRowsGPU] accepts an image of any width and height that has
    at most [INT_MAX] pixels: it completes without an out-of-bounds access
    and without an overflow of its [int] offsets, the pixels of the first
    [128 * (imageW / 128)] columns of the first [4 * (imageH / 4)] rows
    hold the row convolution (taken over the whole width), and the other
    pixels of the destination are left as they were. *)
Theorem convolutionRowsGPU_without_assertions
    (c_Kernel : Z -> F) (s_Data0 : tile) (d_Dst d_Src : buffer)
    (imageW imageH : Z) :
  NDEBUG = true ->
  0 <= KERNEL_RADIUS <= ROWS_BLOCKDIM_X * ROWS_HALO_STEPS ->
  0 <= imageW -> 0 <= imageH ->
  imageW * imageH <= INT_MAX ->
  imageW * imageH <= buf_len d_Src ->
  imageW * imageH <= buf_len d_Dst ->
  exists d,
    convolutionRowsGPU c_Kernel s_Data0 d_Dst d_Src imageW imageH
    = Completed d /\
    (forall x y,
       0 <= x < 128 * Z.quot imageW 128 -> 0 <= y < 4 * Z.quot imageH 4 ->
       buf_data d (y * imageW + x)
       = row_convolution c_Kernel d_Src imageW imageW x y) /\
    (forall x y,
       0 <= x < imageW -> 0 <= y < imageH ->
       ~ (x < 128 * Z.quot imageW 128 /\ y < 4 * Z.quot imageH 4) ->
       buf_data d (y * imageW + x) = buf_data d_Dst (y * imageW + x)).
Proof.
  intros HN HR HW HH Hint Hsrc Hdst.
  destruct (rows_dispatch_spec c_Kernel d_Src imageW imageH HR HW HH Hsrc
              Hint s_Data0 d_Dst Hdst) as (d & E & Hpix).
  exists d. split; [|split; [exact Hpix|]].
  - unfold convolutionRowsGPU, assert. rewrite HN. cbn [orb negb].
    change (ROWS_RESULT_STEPS * ROWS_BLOCKDIM_X) with 128.
    change ROWS_BLOCKDIM_Y with 4. now rewrite E.
  - intros x y Hx Hy Hout. apply rows_dispatch_frame in E as [_ Hd].
    apply Hd. apply not_block_pixel; auto.
    + apply quot_blocks; lia.
    + lia.
Qed.

(** X5.  In a build with [NDEBUG], [convolutionColumnsGPU] accepts an image
    of any width and height with [imageW * (imageH + 8) <= INT_MAX]: it
    completes without an out-of-bounds access and without an overflow of
    its [int] offsets, the pixels of the first [16 * (imageW / 16)] columns
    of the first [64 * (imageH / 64)] rows hold the column convolution
    (taken over the whole height), and the other pixels of the destination
    are left as they were. *)
Theorem convolutionColumnsGPU_without_assertions
    (c_Kernel : Z -> F) (s_Data0 : tile) (d_Dst d_Src : buffer)
    (imageW imageH : Z) :
  NDEBUG = true ->
  0 <= KERNEL_RADIUS <= COLUMNS_BLOCKDIM_Y * COLUMNS_HALO_STEPS ->
  0 <= imageW -> 0 <= imageH ->
  imageW * (imageH + 8) <= INT_MAX ->
  imageW * imageH <= buf_len d_Src ->
  imageW * imageH <= buf_len d_Dst ->
  exists d,
    convolutionColumnsGPU c_Kernel s_Data0 d_Dst d_Src imageW imageH
    = Completed d /\
    (forall x y,
       0 <= x < 16 * Z.quot imageW 16 -> 0 <= y < 64 * Z.quot imageH 64 ->
       buf_data d (y * imageW + x)
       = column_convolution c_Kernel d_Src imageH imageW x y) /\
    (forall x y,
       0 <= x < imageW -> 0 <= y < imageH ->
       ~ (x < 16 * Z.quot imageW 16 /\ y < 64 * Z.quot imageH 64) ->
       buf_data d (y * imageW + x) = buf_data d_Dst (y * imageW + x)).
Proof.
  intros HN HR HW HH Hbound Hsrc Hdst.
  assert (Hint : imageW * imageH <= INT_MAX) by nia.
  assert (Hlower : 64 < imageH -> 72 * imageW <= INT_MAX) by (intros; nia).
  destruct (columns_dispatch_spec c_Kernel d_Src imageW imageH HR HW HH Hsrc
              Hint Hlower s_Data0 d_Dst Hdst) as (d & E & Hpix).
  exists d. split; [|split; [exact Hpix|]].
  - unfold convolutionColumnsGPU, assert. rewrite HN. cbn [orb negb].
    change (COLUMNS_RESULT_STEPS * COLUMNS_BLOCKDIM_Y) with 64.
    change COLUMNS_BLOCKDIM_X with 16. now rewrite E.
  - intros x y Hx Hy Hout. apply columns_dispatch_frame in E as [_ Hd].
    apply Hd. apply not_block_pixel; auto.
    + apply quot_blocks; lia.
    + lia.
Qed.

(** X6.  The two passes compose into the separable convolution: for an image
    that satisfies the preconditions of both passes, the column pass run on
    the output of the row pass completes, and every pixel [(x, y)] of its
    destination holds [Σ_i kernel[R-i]·(Σ_j kernel[R-j]·src[(y+i)*W+x+j])],
    the reads outside the image replaced by zero, the sums taken in the
    order of [i] and of [j]; this holds in any arithmetic.  The image has
    at most [INT_MAX] pixels. *)
Theorem rows_then_columns_is_separable_convolution
    (c_Kernel : Z -> F) (s_Rows s_Columns : tile)
    (d_Src d_Buffer d_Dst : buffer) (imageW imageH : Z) :
  0 <= KERNEL_RADIUS <= 8 ->
  0 <= imageW -> 0 <= imageH ->
  Z.rem imageW 128 = 0 -> Z.rem imageH 64 = 0 ->
  imageW * imageH <= INT_MAX ->
  imageW * imageH <= buf_len d_Src ->
  imageW * imageH <= buf_len d_Buffer ->
  imageW * imageH <= buf_len d_Dst ->
  exists d1 d2,
    convolutionRowsGPU c_Kernel s_Rows d_Buffer d_Src imageW imageH
    = Completed d1 /\
    convolutionColumnsGPU c_Kernel s_Columns d_Dst d1 imageW imageH
    = Completed d2 /\
    forall x y, 0 <= x < imageW -> 0 <= y < imageH ->
      buf_data d2 (y * imageW + x)
      = separable_convolution c_Kernel d_Src imageW imageH x y.
Proof.
  intros HR HW HH HdW HdH Hint Hsrc Hbuf Hdst.
  assert (Hlower : 64 < imageH -> 72 * imageW <= INT_MAX)
    by now apply lower_halo_offset.
  assert (HdW16 : Z.rem imageW COLUMNS_BLOCKDIM_X = 0).
  { pose proof (Z.quot_rem' imageW 128) as E. rewrite HdW in E.
    replace imageW with (8 * Z.quot imageW 128 * 16) by lia.
    now apply Z.rem_mul. }
  assert (HdH4 : Z.rem imageH ROWS_BLOCKDIM_Y = 0).
  { pose proof (Z.quot_rem' imageH 64) as E. rewrite HdH in E.
    replace imageH with (16 * Z.quot imageH 64 * 4) by lia.
    now apply Z.rem_mul. }
  destruct (convolutionRowsGPU_spec c_Kernel d_Src imageW imageH)
    with (s_Data0 := s_Rows) (d_Dst := d_Buffer) as (d1 & E1 & H1); auto;
    try (unfold ROWS_BLOCKDIM_X, ROWS_HALO_STEPS; lia).
  pose proof (convolutionRowsGPU_completed _ _ _ _ _ _ _ E1) as L1.
  apply rows_dispatch_frame in L1 as [L1 _].
  destruct (convolutionColumnsGPU_spec c_Kernel d1 imageW imageH)
    with (s_Data0 := s_Columns) (d_Dst := d_Dst) as (d2 & E2 & H2); auto;
    try (unfold COLUMNS_BLOCKDIM_Y, COLUMNS_HALO_STEPS; lia).
  exists d1, d2. split; [assumption|]. split; [assumption|].
  intros x y Hx Hy. rewrite (H2 x y Hx Hy).
  unfold column_convolution, separable_convolution.
  rewrite <- !weighted_sum_kernel_sum.
  apply weighted_sum_ext. intros i _. unfold padded_column.
  destruct (Z.leb_spec 0 (y + i)); destruct (Z.ltb_spec (y + i) imageH);
    simpl; auto.
Qed.

End ConvolutionFurther.

Section ConvolutionBounds.
Context {F : Type} {AF : Arith F}.
Context {CH : convolutionSeparable_common_h} {BF : build_flags}.
Local Open Scope Z_scope.
Local Abbreviation buffer := (@buffer F).
Local Abbreviation tile := (@tile F).

Lemma load_out_of_bounds (p : buffer) (i : Z) :
  buf_len p <= i -> load p i = None.
Proof.
  intros H. unfold load, in_bounds.
  destruct (Z.ltb_spec i (buf_len p)); [lia|]. now rewrite andb_false_r.
Qed.

(** The work-item that loads the last pixel of the image faults when the
    source ends before it. *)
Lemma rows_load_last_pixel (d_Src : buffer) (imageW imageH : Z)
    (s : tile) :
  0 < imageW -> 0 < imageH ->
  imageW = 128 * Z.quot imageW 128 -> imageH = 4 * Z.quot imageH 4 ->
  buf_len d_Src < imageW * imageH ->
  rows_load d_Src imageW imageW
    {| group_x := Z.quot imageW 128 - 1; group_y := Z.quot imageH 4 - 1;
       local_x := 15; local_y := 3 |} s = None.
Proof.
  intros HW HH EW EH Hlen. unfold rows_load, for_range.
  cbn [group_x group_y local_x local_y].
  unfold ROWS_BLOCKDIM_X, ROWS_BLOCKDIM_Y, ROWS_RESULT_STEPS,
    ROWS_HALO_STEPS.
  repeat pass_check.
  rewrite (mfold_fails _ (fun _ => True) (zrange 1 (1 + 8)) 8 s); auto.
  - apply in_zrange. lia.
  - intros s0 _. rewrite load_out_of_bounds; [reflexivity | nia].
Qed.

Lemma store_length (d d1 : buffer) (i : Z) (v : F) :
  store d i v = Some d1 -> buf_len d1 = buf_len d.
Proof.
  unfold store. destruct (in_bounds d i); [|discriminate].
  intros E. now inversion E.
Qed.

(** The work-item that stores the last pixel of the image faults when the
    destination ends before it. *)
Lemma rows_compute_last_pixel (c_Kernel : Z -> F) (T : tile)
    (imageW imageH : Z) (d_Dst d : buffer) :
  0 < imageW -> 0 < imageH ->
  imageW = 128 * Z.quot imageW 128 -> imageH = 4 * Z.quot imageH 4 ->
  buf_len d_Dst < imageW * imageH ->
  buf_len d = buf_len d_Dst ->
  rows_compute imageW c_Kernel T
    {| group_x := Z.quot imageW 128 - 1; group_y := Z.quot imageH 4 - 1;
       local_x := 15; local_y := 3 |} d = None.
Proof.
  intros HW HH EW EH Hlen Hd. unfold rows_compute, for_range.
  cbn [group_x group_y local_x local_y].
  unfold ROWS_BLOCKDIM_X, ROWS_BLOCKDIM_Y, ROWS_RESULT_STEPS,
    ROWS_HALO_STEPS.
  repeat pass_check.
  apply (mfold_fails _ (fun s => buf_len s = buf_len d_Dst) (zrange 1 (1 + 8))
           8 d); auto.
  - apply in_zrange. lia.
  - intros i s0 s1 _ Hs E. apply store_length in E. congruence.
  - intros s0 Hs. unfold store, in_bounds.
    match goal with
    | |- context [?i <? buf_len s0] =>
        destruct (Z.ltb_spec i (buf_len s0)); [nia|]
    end.
    now rewrite andb_false_r.
Qed.

(** X7.  The row pass reads and writes the whole image: under its
    preconditions, for a non-empty image, a source or a destination buffer
    that holds fewer than [imageW * imageH] elements makes the work-item of
    the last pixel access it out of bounds, and the pass does not
    complete. *)
Theorem convolutionRowsGPU_needs_whole_buffers
    (c_Kernel : Z -> F) (s_Data0 : tile) (d_Dst d_Src : buffer)
    (imageW imageH : Z) :
  KERNEL_RADIUS <= ROWS_BLOCKDIM_X * ROWS_HALO_STEPS ->
  0 < imageW -> 0 < imageH ->
  Z.rem imageW (ROWS_RESULT_STEPS * ROWS_BLOCKDIM_X) = 0 ->
  Z.rem imageH ROWS_BLOCKDIM_Y = 0 ->
  buf_len d_Src < imageW * imageH \/ buf_len d_Dst < imageW * imageH ->
  convolutionRowsGPU c_Kernel s_Data0 d_Dst d_Src imageW imageH
  = DeviceFault.
Proof.
  intros HR HW HH HdW HdH Hlen.
  assert (EW : imageW = 128 * Z.quot imageW 128).
  { pose proof (Z.quot_rem' imageW 128) as E.
    change (ROWS_RESULT_STEPS * ROWS_BLOCKDIM_X) with 128 in HdW. lia. }
  assert (EH : imageH = 4 * Z.quot imageH 4).
  { pose proof (Z.quot_rem' imageH 4) as E.
    change ROWS_BLOCKDIM_Y with 4 in HdH. lia. }
  unfold convolutionRowsGPU, assert.
  assert (E1 : (ROWS_BLOCKDIM_X * ROWS_HALO_STEPS >=? KERNEL_RADIUS) = true)
    by (apply Z.geb_le; lia).
  rewrite E1, HdW, HdH, !orb_true_r. cbn [negb].
  change (ROWS_RESULT_STEPS * ROWS_BLOCKDIM_X) with 128.
  change ROWS_BLOCKDIM_Y with 4.
  set (last := {| group_x := Z.quot imageW 128 - 1;
                  group_y := Z.quot imageH 4 - 1;
                  local_x := 15; local_y := 3 |}).
  assert (Hlast : In last (work_items ROWS_BLOCKDIM_X ROWS_BLOCKDIM_Y
                             (Z.quot imageW 128 - 1) (Z.quot imageH 4 - 1))).
  { apply in_work_items. simpl. unfold ROWS_BLOCKDIM_X, ROWS_BLOCKDIM_Y.
    lia. }
  rewrite (mfold_fails _ (fun s => buf_len s = buf_len d_Dst) _
             (Z.quot imageW 128 - 1, Z.quot imageH 4 - 1) d_Dst); auto.
  - apply in_work_groups. simpl. lia.
  - intros g s s1 Hg Hs E. apply in_work_groups in Hg as [Hgx Hgy].
    destruct (convolutionRowsKernel_frame c_Kernel d_Src imageW imageH
                (fst g * 128 + 128) (snd g * 4 + 4) (fst g) (snd g) s_Data0
                s s s1) as [El _]; try lia; try assumption.
    apply same_outside_refl.
  - intros d Hd. unfold convolutionRowsKernel. cbn [fst snd].
    destruct Hlen as [Hlen|Hlen].
    + rewrite (mfold_fails _ (fun _ => True) _ last s_Data0); auto.
      intros s _. now apply (rows_load_last_pixel d_Src imageW imageH).
    + destruct (mfold _ _ s_Data0) as [T|]; [|reflexivity]. cbn [bind].
      apply (mfold_fails _ (fun s => buf_len s = buf_len d_Dst) _ last d);
        auto.
      * intros it s s1 _ Hs E. rewrite <- Hs. revert E.
        unfold rows_compute, for_range. repeat invert_check.
        apply (mfold_invariant _ (fun b => buf_len b = buf_len s)); auto.
        intros i b b1 _ Hb E. apply store_length in E. congruence.
      * intros s Hs.
        now apply (rows_compute_last_pixel c_Kernel T imageW imageH d_Dst).
Qed.

Lemma base_offset_overflow (baseY pitch baseX : Z) :
  INT_MAX < baseY * pitch -> base_offset baseY pitch baseX = None.
Proof.
  intros H. unfold base_offset, checked_int.
  destruct (Z.leb_spec (baseY * pitch) INT_MAX); [lia|].
  now rewrite andb_false_r.
Qed.

(** X18.  The offsets of the row pass are computed in [int]: under the
    preconditions on the dimensions, for an image so large that the offset
    [(imageH - 1) * imageW] of its last row exceeds [INT_MAX], the work-items
    of the last row overflow when they compute [baseY * pitch], whatever the
    size of the buffers, and the pass does not complete. *)
Theorem convolutionRowsGPU_offsets_overflow
    (c_Kernel : Z -> F) (s_Data0 : tile) (d_Dst d_Src : buffer)
    (imageW imageH : Z) :
  KERNEL_RADIUS <= ROWS_BLOCKDIM_X * ROWS_HALO_STEPS ->
  0 < imageW -> 0 < imageH ->
  Z.rem imageW (ROWS_RESULT_STEPS * ROWS_BLOCKDIM_X) = 0 ->
  Z.rem imageH ROWS_BLOCKDIM_Y = 0 ->
  INT_MAX < (imageH - 1) * imageW ->
  convolutionRowsGPU c_Kernel s_Data0 d_Dst d_Src imageW imageH
  = DeviceFault.
Proof.
  intros HR HW HH HdW HdH Hbig.
  assert (EW : imageW = 128 * Z.quot imageW 128).
  { pose proof (Z.quot_rem' imageW 128) as E.
    change (ROWS_RESULT_STEPS * ROWS_BLOCKDIM_X) with 128 in HdW. lia. }
  assert (EH : imageH = 4 * Z.quot imageH 4).
  { pose proof (Z.quot_rem' imageH 4) as E.
    change ROWS_BLOCKDIM_Y with 4 in HdH. lia. }
  unfold convolutionRowsGPU, assert.
  assert (E1 : (ROWS_BLOCKDIM_X * ROWS_HALO_STEPS >=? KERNEL_RADIUS) = true)
    by (apply Z.geb_le; lia).
  rewrite E1, HdW, HdH, !orb_true_r. cbn [negb].
  change (ROWS_RESULT_STEPS * ROWS_BLOCKDIM_X) with 128.
  change ROWS_BLOCKDIM_Y with 4.
  rewrite (mfold_fails _ (fun _ => True) _
             (Z.quot imageW 128 - 1, Z.quot imageH 4 - 1) d_Dst); auto.
  - apply in_work_groups. simpl. lia.
  - intros d _. unfold convolutionRowsKernel. cbn [fst snd].
    rewrite (mfold_fails _ (fun _ => True) _
               {| group_x := Z.quot imageW 128 - 1;
                  group_y := Z.quot imageH 4 - 1;
                  local_x := 15; local_y := 3 |} s_Data0); auto.
    + apply in_work_items. simpl.
      unfold ROWS_BLOCKDIM_X, ROWS_BLOCKDIM_Y. lia.
    + intros s _. unfold rows_load.
      cbn [group_x group_y local_x local_y].
      unfold ROWS_BLOCKDIM_X, ROWS_BLOCKDIM_Y, ROWS_RESULT_STEPS,
        ROWS_HALO_STEPS.
      do 2 pass_check.
      rewrite base_offset_overflow; [reflexivity | lia].
Qed.

End ConvolutionBounds.

(** ** The further theorems on concrete binary32 images *)

Section ConvolutionFurtherWitnesses.
Local Open Scope Z_scope.

Ltac image_side_conditions :=
  try reflexivity;
  cbn;
  unfold ROWS_BLOCKDIM_X, ROWS_HALO_STEPS, COLUMNS_BLOCKDIM_Y,
    COLUMNS_HALO_STEPS, INT_MAX;
  lia.

(** The column pass on a 16 x 64 image with radius 8 and a kernel of finite
    weights: the first pixel of the destination, which held NaN, holds
    2·1 + 7·1 + 1·2 = 11. *)
Lemma convolutionColumnsGPU_computes_column_convolution_witness :
  exists d,
    convolutionColumnsGPU (CH := radius_8) (BF := assertions_on)
      ramp_kernel stale_tile (blank_buffer 1024) (image_with two32 1024)
      16 64 = Completed d /\
    (forall x y, 0 <= x < 16 -> 0 <= y < 64 ->
       buf_data d (y * 16 + x)
       = column_convolution (CH := radius_8) ramp_kernel
           (image_with two32 1024) 64 16 x y) /\
    buf_data d 0 = eleven32.
Proof.
  destruct (convolutionColumnsGPU_computes_column_convolution
              (CH := radius_8) (BF := assertions_on)
              ramp_kernel stale_tile (blank_buffer 1024)
              (image_with two32 1024) 16 64) as (d & E & Hd);
    try image_side_conditions.
  exists d. split; [exact E|]. split; [exact Hd|].
  change 0 with (0 * 16 + 0). rewrite Hd by lia.
  vm_compute. reflexivity.
Defined.

(** The row pass on a 128 x 4 image, into a destination of 600 elements. *)
Lemma convolutionRowsGPU_writes_only_block_pixels_witness :
  exists d,
    convolutionRowsGPU (CH := radius_8) (BF := assertions_on)
      stale_kernel stale_tile (blank_buffer 600) (image_with two32 512)
      128 4 = Completed d /\
    buf_len d = buf_len (blank_buffer 600) /\
    (forall i,
       ~ block_pixel 128 (128 * Z.quot 128 128) (4 * Z.quot 4 4) i ->
       buf_data d i = buf_data (blank_buffer 600) i) /\
    (forall i, ~ 0 <= i < 128 * 4 ->
       buf_data d i = buf_data (blank_buffer 600) i).
Proof.
  destruct (convolutionRowsGPU_spec (CH := radius_8) (BF := assertions_on)
              stale_kernel (image_with two32 512) 128 4)
    with (s_Data0 := stale_tile) (d_Dst := blank_buffer 600)
    as (d & E & _); try image_side_conditions.
  exists d. split; [exact E|].
  apply (convolutionRowsGPU_writes_only_block_pixels
           (CH := radius_8) (BF := assertions_on) stale_kernel stale_tile
           (blank_buffer 600) (image_with two32 512) d 128 4);
    [lia | lia | exact E].
Defined.

(** The column pass on a 16 x 64 image, into a destination of 1100
    elements. *)
Lemma convolutionColumnsGPU_writes_only_block_pixels_witness :
  exists d,
    convolutionColumnsGPU (CH := radius_8) (BF := assertions_on)
      stale_kernel stale_tile (blank_buffer 1100) (image_with two32 1024)
      16 64 = Completed d /\
    buf_len d = buf_len (blank_buffer 1100) /\
    (forall i,
       ~ block_pixel 16 (16 * Z.quot 16 16) (64 * Z.quot 64 64) i ->
       buf_data d i = buf_data (blank_buffer 1100) i) /\
    (forall i, ~ 0 <= i < 16 * 64 ->
       buf_data d i = buf_data (blank_buffer 1100) i).
Proof.
  destruct (convolutionColumnsGPU_spec (CH := radius_8)
              (BF := assertions_on)
              stale_kernel (image_with two32 1024) 16 64)
    with (s_Data0 := stale_tile) (d_Dst := blank_buffer 1100)
    as (d & E & _); try image_side_conditions.
  exists d. split; [exact E|].
  apply (convolutionColumnsGPU_writes_only_block_pixels
           (CH := radius_8) (BF := assertions_on) stale_kernel stale_tile
           (blank_buffer 1100) (image_with two32 1024) d 16 64);
    [lia | lia | exact E].
Defined.

(** The row pass without assertions on a 200 x 6 image, with a kernel of
    finite weights: one block of 128 x 4 pixels is computed, its first
    pixel being 11, and pixel (130, 0) keeps the NaN it held. *)
Lemma convolutionRowsGPU_without_assertions_witness :
  exists d,
    convolutionRowsGPU (CH := radius_8) (BF := assertions_off)
      ramp_kernel stale_tile (blank_buffer 1200) (image_with two32 1200)
      200 6 = Completed d /\
    (forall x y,
       0 <= x < 128 * Z.quot 200 128 -> 0 <= y < 4 * Z.quot 6 4 ->
       buf_data d (y * 200 + x)
       = row_convolution (CH := radius_8) ramp_kernel
           (image_with two32 1200) 200 200 x y) /\
    (forall x y,
       0 <= x < 200 -> 0 <= y < 6 ->
       ~ (x < 128 * Z.quot 200 128 /\ y < 4 * Z.quot 6 4) ->
       buf_data d (y * 200 + x)
       = buf_data (blank_buffer 1200) (y * 200 + x)) /\
    buf_data d 0 = eleven32 /\
    buf_data d 130 = S754_nan.
Proof.
  destruct (convolutionRowsGPU_without_assertions
              (CH := radius_8) (BF := assertions_off)
              ramp_kernel stale_tile (blank_buffer 1200)
              (image_with two32 1200) 200 6) as (d & E & Hd & Hk);
    try image_side_conditions.
  exists d. split; [exact E|]. split; [exact Hd|]. split; [exact Hk|].
  split.
  - change 0 with (0 * 200 + 0). rewrite Hd by (cbn; lia).
    vm_compute. reflexivity.
  - change 130 with (0 * 200 + 130). rewrite Hk by (cbn; lia).
    reflexivity.
Defined.

(** The column pass without assertions on a 20 x 70 image, with a kernel of
    finite weights: one block of 16 x 64 pixels is computed, its first
    pixel being 11, and pixel (18, 0) keeps the NaN it held. *)
Lemma convolutionColumnsGPU_without_assertions_witness :
  exists d,
    convolutionColumnsGPU (CH := radius_8) (BF := assertions_off)
      ramp_kernel stale_tile (blank_buffer 1400) (image_with two32 1400)
      20 70 = Completed d /\
    (forall x y,
       0 <= x < 16 * Z.quot 20 16 -> 0 <= y < 64 * Z.quot 70 64 ->
       buf_data d (y * 20 + x)
       = column_convolution (CH := radius_8) ramp_kernel
           (image_with two32 1400) 70 20 x y) /\
    (forall x y,
       0 <= x < 20 -> 0 <= y < 70 ->
       ~ (x < 16 * Z.quot 20 16 /\ y < 64 * Z.quot 70 64) ->
       buf_data d (y * 20 + x)
       = buf_data (blank_buffer 1400) (y * 20 + x)) /\
    buf_data d 0 = eleven32 /\
    buf_data d 18 = S754_nan.
Proof.
  destruct (convolutionColumnsGPU_without_assertions
              (CH := radius_8) (BF := assertions_off)
              ramp_kernel stale_tile (blank_buffer 1400)
              (image_with two32 1400) 20 70) as (d & E & Hd & Hk);
    try image_side_conditions.
  exists d. split; [exact E|]. split; [exact Hd|]. split; [exact Hk|].
  split.
  - change 0 with (0 * 20 + 0). rewrite Hd by (cbn; lia).
    vm_compute. reflexivity.
  - change 18 with (0 * 20 + 18). rewrite Hk by (cbn; lia).
    reflexivity.
Defined.

(** The two passes on a 128 x 64 image with radius 8 and a kernel of finite
    weights: the first pixel of the final destination, which held NaN,
    holds 1·11 + 7·10 + 2·10 = 101. *)
Lemma rows_then_columns_is_separable_convolution_witness :
  exists d1 d2,
    convolutionRowsGPU (CH := radius_8) (BF := assertions_on)
      ramp_kernel stale_tile (blank_buffer 8192) (image_with two32 8192)
      128 64 = Completed d1 /\
    convolutionColumnsGPU (CH := radius_8) (BF := assertions_on)
      ramp_kernel stale_tile (blank_buffer 8192) d1 128 64
    = Completed d2 /\
    (forall x y, 0 <= x < 128 -> 0 <= y < 64 ->
       buf_data d2 (y * 128 + x)
       = separable_convolution (CH := radius_8) ramp_kernel
           (image_with two32 8192) 128 64 x y) /\
    buf_data d2 0 = hundred_and_one32.
Proof.
  destruct (rows_then_columns_is_separable_convolution
              (CH := radius_8) (BF := assertions_on)
              ramp_kernel stale_tile stale_tile (image_with two32 8192)
              (blank_buffer 8192) (blank_buffer 8192) 128 64)
    as (d1 & d2 & E1 & E2 & Hd);
    try image_side_conditions.
  exists d1, d2. split; [exact E1|]. split; [exact E2|].
  split; [exact Hd|].
  change 0 with (0 * 128 + 0). rewrite Hd by lia.
  vm_compute. reflexivity.
Defined.

(** The row pass on a 128 x 4 image whose source holds 100 elements. *)
Lemma convolutionRowsGPU_needs_whole_buffers_witness :
  convolutionRowsGPU (CH := radius_8) (BF := assertions_on)
    stale_kernel stale_tile (blank_buffer 512) (image_with two32 100) 128 4
  = DeviceFault.
Proof.
  apply (convolutionRowsGPU_needs_whole_buffers
           (CH := radius_8) (BF := assertions_on));
    image_side_conditions.
Defined.

(** The row pass on a 65536 x 32772 image. *)
Lemma convolutionRowsGPU_offsets_overflow_witness :
  convolutionRowsGPU (CH := radius_8) (BF := assertions_on)
    ramp_kernel stale_tile (blank_buffer 2147745792)
    (image_with two32 2147745792) 65536 32772
  = DeviceFault.
Proof.
  apply (convolutionRowsGPU_offsets_overflow
           (CH := radius_8) (BF := assertions_on));
    image_side_conditions.
Defined.

End ConvolutionFurtherWitnesses.

(** ** Further properties of the Jacobi solver *)

Section JacobiFrames.
Context {F : Type} {AF : Arith F} {DEV : Device F} {JH : jacobi_h}.
Local Abbreviation gmem := (@gmem F).
Local Abbreviation gstate := (@gstate F).

Lemma owned_rows_in_range (g i : nat) : In i (owned_rows g) -> i < N_ROWS.
Proof.
  unfold owned_rows. rewrite filter_In. intros [_ H].
  now apply Nat.ltb_lt.
Qed.

(** A dispatch of [JacobiMethod] changes nothing but the rows of [x_new] and
    the accumulator. *)
Lemma launch_JacobiMethod_frame (nb nthr : nat) (A b : ptr)
    (conv_threshold : F) (x x_new sum : ptr) (st : gstate) (p : ptr)
    (j : nat) :
  ROWS_PER_CTA <= nthr ->
  ~ (p = x_new /\ j < N_ROWS) -> ~ (p = sum /\ j = 0) ->
  g_mem (launch_JacobiMethod nb nthr A b conv_threshold x x_new sum st) p j
  = g_mem st p j.
Proof.
  intros Hthr Hx Hs. unfold launch_JacobiMethod, parallel_for.
  apply (fold_left_preserves _ (fun s => g_mem s p j = g_mem st p j)); auto.
  intros s g _ <-.
  apply JacobiMethod_group_frame; auto.
  intros [-> Hj]. apply Hx. split; auto.
  now apply owned_rows_in_range in Hj.
Qed.

(** One work-group of [finalError] changes nothing but the accumulator. *)
Lemma finalError_frame (x g_sum : ptr) (item : nd_item)
    (warpSum0 : nat -> F) (st : gstate) (p : ptr) (j : nat) :
  ~ (p = g_sum /\ j = 0) ->
  g_mem (finalError x g_sum item warpSum0 st) p j = g_mem st p j.
Proof.
  intros Hs. unfold finalError.
  destruct (sub_group_reduce _); auto.
  cbn [do_atomic_add g_mem]. now apply gstore_other.
Qed.

Lemma launch_finalError_frame (nb nthr : nat) (x d_sum : ptr) (st : gstate)
    (p : ptr) (j : nat) :
  ~ (p = d_sum /\ j = 0) ->
  g_mem (launch_finalError nb nthr x d_sum st) p j = g_mem st p j.
Proof.
  intros Hs. unfold launch_finalError, parallel_for.
  apply (fold_left_preserves _ (fun s => g_mem s p j = g_mem st p j)); auto.
  intros s g _ <-. now apply finalError_frame.
Qed.

(** One work-group of [finalError] with at least one work-item performs one
    atomic addition. *)
Lemma finalError_trace (x g_sum : ptr) (item : nd_item)
    (warpSum0 : nat -> F) (st : gstate) :
  0 < get_local_range item ->
  g_trace (finalError x g_sum item warpSum0 st)
  = g_trace st ++ [EvAtomicAdd g_sum 0].
Proof.
  intros Hn. unfold finalError.
  destruct (sub_group_reduce _) as [|r0 tl] eqn:E; [|reflexivity].
  apply (f_equal (@length F)) in E. unfold sub_group_reduce in E.
  rewrite shuffle_reduce_length, length_map in E.
  destruct (get_local_range item) as [|n]; [lia|]. discriminate E.
Qed.

(** What the convergence test leaves in device memory. *)
Lemma convergence_check_frame (conv_threshold : F) (x x_new d_sum : ptr)
    (k : nat) (st : gstate) (sum : F) (r : host_result) (p : ptr) (j : nat) :
  convergence_check conv_threshold x x_new d_sum k st sum = Some r ->
  ~ (p = d_sum /\ j = 0) ->
  g_mem (res_state r) p j = g_mem st p j.
Proof.
  unfold convergence_check. destruct (leb sum conv_threshold); [|discriminate].
  intros E Hs. inversion E; subst; clear E. cbn [res_state].
  destruct (even_iteration k);
    now rewrite launch_finalError_frame, memset_zero_other.
Qed.

Lemma convergence_check_result (conv_threshold : F) (x x_new d_sum : ptr)
    (k : nat) (st : gstate) (sum : F) (r : host_result) :
  convergence_check conv_threshold x x_new d_sum k st sum = Some r ->
  res_k r = k /\ res_printed r = Some (k + 1, res_sum r) /\
  res_sum r = g_mem (res_state r) d_sum 0.
Proof.
  unfold convergence_check. destruct (leb sum conv_threshold); [|discriminate].
  intros E. inversion E; subst; clear E. cbn. auto.
Qed.

(** The loop of the driver: how it ends. *)
Lemma JacobiMethodGpu_loop_ends (A b : ptr) (conv_threshold : F)
    (x x_new d_sum : ptr) (fuel k : nat) (st : gstate) (sum : F) :
  (res_printed
     (JacobiMethodGpu_loop A b conv_threshold x x_new d_sum fuel k st sum)
   = None /\
   res_k (JacobiMethodGpu_loop A b conv_threshold x x_new d_sum fuel k st sum)
   = k + fuel) \/
  (k <= res_k (JacobiMethodGpu_loop A b conv_threshold x x_new d_sum fuel k
                 st sum) < k + fuel /\
   res_printed
     (JacobiMethodGpu_loop A b conv_threshold x x_new d_sum fuel k st sum)
   = Some
       (res_k (JacobiMethodGpu_loop A b conv_threshold x x_new d_sum fuel k
                 st sum) + 1,
        res_sum (JacobiMethodGpu_loop A b conv_threshold x x_new d_sum fuel k
                   st sum)) /\
   res_sum (JacobiMethodGpu_loop A b conv_threshold x x_new d_sum fuel k st
              sum)
   = g_mem (res_state (JacobiMethodGpu_loop A b conv_threshold x x_new d_sum
                         fuel k st sum)) d_sum 0).
Proof.
  revert k st sum. induction fuel as [|fuel IH]; intros k st sum.
  - left. cbn. auto.
  - rewrite JacobiMethodGpu_loop_step.
    destruct (convergence_check _ _ _ _ _ _ _) as [r|] eqn:E.
    + right. apply convergence_check_result in E as (-> & Hp & Hs).
      split; [lia|]. split; assumption.
    + destruct (IH (S k)
                  (jacobi_iteration A b conv_threshold x x_new d_sum k st)
                  (g_mem (jacobi_iteration A b conv_threshold x x_new d_sum
                            k st) d_sum 0))
        as [[Hp Hk] | (Hk & Hp & Hs)].
      * left. split; [assumption | lia].
      * right. split; [lia|]. split; assumption.
Qed.

(** The loop of the driver: what it leaves untouched. *)
Lemma JacobiMethodGpu_loop_frame (A b : ptr) (conv_threshold : F)
    (x x_new d_sum : ptr) (p : ptr) (j : nat) :
  ~ (p = x /\ j < N_ROWS) -> ~ (p = x_new /\ j < N_ROWS) ->
  ~ (p = d_sum /\ j = 0) ->
  forall (fuel k : nat) (st : gstate) (sum : F),
    g_mem (res_state (JacobiMethodGpu_loop A b conv_threshold x x_new d_sum
                        fuel k st sum)) p j
    = g_mem st p j.
Proof.
  intros Hx Hxn Hs.
  assert (Hit : forall k st,
            g_mem (jacobi_iteration A b conv_threshold x x_new d_sum k st) p j
            = g_mem st p j).
  { intros k st. unfold jacobi_iteration, next_iterate, current_iterate.
    destruct (even_iteration k);
      rewrite launch_JacobiMethod_frame, memset_zero_other; auto;
      unfold ROWS_PER_CTA, nthreads; lia. }
  induction fuel as [|fuel IH]; intros k st sum; [reflexivity|].
  rewrite JacobiMethodGpu_loop_step.
  destruct (convergence_check _ _ _ _ _ _ _) as [r|] eqn:E.
  - apply (convergence_check_frame _ _ _ _ _ _ _ _ p j) in E; auto.
    now rewrite E.
  - now rewrite IH.
Qed.

End JacobiFrames.

Section JacobiFurther.
Context {F : Type} {AF : Arith F} {DEV : Device F} {JH : jacobi_h}.
Local Abbreviation gmem := (@gmem F).
Local Abbreviation gstate := (@gstate F).
Local Abbreviation lmem := (@lmem F).

(** X8.  A dispatch of [JacobiMethod] with the grid of the drivers
    ([N_ROWS / ROWS_PER_CTA + 2] work-groups of 256 work-items) is one Jacobi
    sweep: every row [i < N_ROWS] of [x_new] becomes [x[i] + dx_i], the
    accumulator grows by [Σ_i |dx_i|] over all the rows, and every other
    location of device memory keeps its value.  Exact arithmetic; [x_new]
    and [d_sum] are buffers of their own. *)
Theorem JacobiMethod_dispatch_is_a_jacobi_sweep {EA : ExactArith F}
    (A b : ptr) (conv_threshold : F) (x x_new d_sum : ptr) (st : gstate) :
  ~ In x_new [A; b; x; d_sum] -> ~ In d_sum [A; b; x] ->
  (forall i, i < N_ROWS ->
     g_mem (launch_JacobiMethod nblocks nthreads A b conv_threshold x x_new
              d_sum st) x_new i
     = g_mem st x i [+] jacobi_dx (g_mem st) A b x i) /\
  g_mem (launch_JacobiMethod nblocks nthreads A b conv_threshold x x_new
           d_sum st) d_sum 0
  = g_mem st d_sum 0 [+] residual (g_mem st) A b x /\
  (forall p j,
     ~ (p = x_new /\ j < N_ROWS) -> ~ (p = d_sum /\ j = 0) ->
     g_mem (launch_JacobiMethod nblocks nthreads A b conv_threshold x x_new
              d_sum st) p j
     = g_mem st p j).
Proof.
  intros Hxn Hs. simpl in Hxn, Hs.
  apply (launch_JacobiMethod_spec nblocks nthreads 8); auto;
    try apply nblocks_cover; try lia; intros E; subst; tauto.
Qed.

(** X9.  The shuffle reductions: after
    [for (offset = size / 2; offset > 0; offset /= 2) v += shift(v, offset)]
    the first lane of a sub-group of 32 lanes holds the sum of the values
    of the 32 lanes, and the first lane of [tile8] the sum of the values of
    its 8 lanes (exact arithmetic), whatever the device returns to the
    lanes that shift from outside the group. *)
Theorem shuffle_reductions_sum_all_lanes {EA : ExactArith F}
    (vals temps : list F) :
  length vals = SUB_GROUP_SIZE -> length temps = ROWS_PER_CTA ->
  nth 0 (sub_group_reduce vals) zero
  = sumF (fun l => nth l vals zero) SUB_GROUP_SIZE /\
  nth 0 (tile_reduce temps) zero
  = sumF (fun l => nth l temps zero) ROWS_PER_CTA.
Proof.
  intros Hv Ht.
  destruct (sub_group_reduce_head vals Hv) as (tl & ->).
  destruct (tile_reduce_head temps Ht) as (tl' & ->).
  split; reflexivity.
Qed.

(** X10.  A dispatch of [finalError] with [nb] work-groups of at least one
    work-item performs [nb] atomic additions on [g_sum[0]] and no store:
    every other location of device memory, the vector [x] included, keeps
    its value.  This holds in any arithmetic. *)
Theorem finalError_dispatch_only_adds_to_the_sum (nb nthr : nat)
    (x d_sum : ptr) (st : gstate) :
  0 < nthr ->
  g_trace (launch_finalError nb nthr x d_sum st)
  = g_trace st ++ repeat (EvAtomicAdd d_sum 0) nb /\
  (forall p j, ~ (p = d_sum /\ j = 0) ->
     g_mem (launch_finalError nb nthr x d_sum st) p j = g_mem st p j).
Proof.
  intros Hn. split; [|intros p j; apply launch_finalError_frame].
  unfold launch_finalError, parallel_for.
  assert (H : forall n m s,
            g_trace
              (fold_left
                 (fun s g =>
                    finalError x d_sum
                      {| get_group := g; get_local_range := nthr;
                         get_group_range := nb |} uninitialized_local s)
                 (seq m n) s)
            = g_trace s ++ repeat (EvAtomicAdd d_sum 0) n).
  { induction n as [|n IH]; intros m s; simpl.
    - now rewrite app_nil_r.
    - rewrite IH, finalError_trace by assumption.
      now rewrite <- app_assoc. }
  apply H.
Qed.

(** X11.  How [JacobiMethodGpu] ends, in any arithmetic: either the loop
    ran out of iterations, [k] is [max_iter] (0 when [max_iter] is
    negative) and nothing is printed; or the loop broke at an iteration
    [k < max_iter], the two values printed are [k + 1] and the returned
    value, and the returned value is what [finalError] left in the
    accumulator. *)
Theorem JacobiMethodGpu_iteration_count (A b : ptr) (conv_threshold : F)
    (max_iter : Z) (x x_new d_sum : ptr) (st : gstate) :
  (res_printed (JacobiMethodGpu A b conv_threshold max_iter x x_new d_sum st)
   = None /\
   Z.of_nat
     (res_k (JacobiMethodGpu A b conv_threshold max_iter x x_new d_sum st))
   = Z.max 0 max_iter) \/
  ((Z.of_nat
      (res_k (JacobiMethodGpu A b conv_threshold max_iter x x_new d_sum st))
    < max_iter)%Z /\
   res_printed (JacobiMethodGpu A b conv_threshold max_iter x x_new d_sum st)
   = Some
       (res_k (JacobiMethodGpu A b conv_threshold max_iter x x_new d_sum st)
        + 1,
        res_sum
          (JacobiMethodGpu A b conv_threshold max_iter x x_new d_sum st)) /\
   res_sum (JacobiMethodGpu A b conv_threshold max_iter x x_new d_sum st)
   = g_mem
       (res_state
          (JacobiMethodGpu A b conv_threshold max_iter x x_new d_sum st))
       d_sum 0).
Proof.
  unfold JacobiMethodGpu.
  destruct (JacobiMethodGpu_loop_ends A b conv_threshold x x_new d_sum
              (Z.to_nat max_iter) 0 st zero)
    as [[Hp Hk] | (Hk & Hp & Hs)].
  - left. split; [assumption | lia].
  - right. split; [lia|]. split; assumption.
Qed.

(** X12.  [JacobiMethodGpu] writes device memory only in the rows below
    [N_ROWS] of the two iterate buffers and in the accumulator: every other
    location, the matrix [A] and the right-hand side [b] included when they
    are other buffers, holds at the end the value it held at the start,
    however many iterations run.  This holds in any arithmetic. *)
Theorem JacobiMethodGpu_writes_only_iterates_and_accumulator
    (A b : ptr) (conv_threshold : F) (max_iter : Z) (x x_new d_sum : ptr)
    (st : gstate) (p : ptr) (j : nat) :
  ~ (p = x /\ j < N_ROWS) -> ~ (p = x_new /\ j < N_ROWS) ->
  ~ (p = d_sum /\ j = 0) ->
  g_mem
    (res_state (JacobiMethodGpu A b conv_threshold max_iter x x_new d_sum st))
    p j
  = g_mem st p j.
Proof.
  intros Hx Hxn Hs. unfold JacobiMethodGpu.
  now apply JacobiMethodGpu_loop_frame.
Qed.

(** X13.  A work-group of [JacobiMethod] whose rows all lie at or beyond
    [N_ROWS] (the drivers dispatch two work-groups more than the rows fill)
    stores nothing: its only write is the atomic addition to [sum], of a
    total that is zero, so that device memory is left as it was (exact
    arithmetic). *)
Theorem JacobiMethod_surplus_group_changes_nothing {EA : ExactArith F}
    (A b : ptr) (conv_threshold : F) (x x_new sum : ptr) (item : nd_item)
    (lm0 : lmem) (st : gstate) (nw : nat) :
  get_local_range item = SUB_GROUP_SIZE * nw -> 0 < nw ->
  A <> x_new -> sum <> x_new ->
  N_ROWS <= get_group item * ROWS_PER_CTA ->
  g_trace (JacobiMethod A b conv_threshold x x_new sum item lm0 st)
  = g_trace st ++ [EvAtomicAdd sum 0] /\
  (forall p j,
     g_mem (JacobiMethod A b conv_threshold x x_new sum item lm0 st) p j
     = g_mem st p j).
Proof.
  intros HL Hnw HA Hs Hg.
  assert (Hnone : owned_rows (get_group item) = []).
  { unfold owned_rows. apply filter_none. intros i Hi.
    apply in_seq in Hi. apply Nat.ltb_ge. lia. }
  destruct (JacobiMethod_group_spec A b conv_threshold x x_new sum item lm0
              st nw HL Hnw HA Hs) as (_ & Hsum & Hframe & Htrace).
  rewrite Hnone in *. split; [exact Htrace|].
  intros p j.
  destruct (Nat.eq_dec p sum) as [->|Hp];
    [destruct (Nat.eq_dec j 0) as [->|Hj]|].
  - rewrite Hsum. unfold group_residual. rewrite Hnone.
    apply add_zero_r.
  - apply Hframe; [intros [_ []] | intros [_ H]; auto].
  - apply Hframe; [intros [_ []] | intros [H _]; auto].
Qed.

End JacobiFurther.

(** ** The Jacobi solver in exact rational arithmetic *)

Section JacobiRational.
Context {DEV : Device Qc} {JH : jacobi_h}.
Local Abbreviation gmem := (@gmem Qc).
Local Abbreviation gstate := (@gstate Qc).

(** A row whose equation holds, with a diagonal coefficient that is not
    zero, needs no correction. *)
Lemma solved_row_dx (m : gmem) (A b x : ptr) (i : nat) :
  m A (i * N_ROWS + i) <> zero ->
  row_dot m A x i = m b i -> jacobi_dx m A b x i = zero.
Proof.
  intros Hdiag H. unfold jacobi_dx. rewrite H. simpl in *.
  field. exact Hdiag.
Qed.

Lemma solved_system_residual (m : gmem) (A b x : ptr) :
  (forall i, i < N_ROWS -> m A (i * N_ROWS + i) <> zero) ->
  (forall i, i < N_ROWS -> row_dot m A x i = m b i) ->
  residual m A b x = zero.
Proof.
  intros Hdiag H. unfold residual. apply sumF_all_zero. intros i Hi.
  rewrite solved_row_dx by auto. apply Qc_is_canon. reflexivity.
Qed.

Lemma sumF_nonnegative (f : nat -> Qc) (n : nat) :
  (forall i, i < n -> (0 <= f i)%Qc) -> (0 <= sumF f n)%Qc.
Proof.
  induction n as [|n IH]; intros H; simpl.
  - apply Qcle_refl.
  - replace (Q2Qc 0) with (Q2Qc 0 + Q2Qc 0)%Qc by ring.
    apply Qcplus_le_compat; auto.
Qed.

Lemma residual_nonnegative (m : gmem) (A b x : ptr) :
  (0 <= residual m A b x)%Qc.
Proof.
  unfold residual. apply sumF_nonnegative. intros i _. apply Qcabs_nonneg.
Qed.

Lemma Qc_leb_le (a b : Qc) : leb a b = true <-> (a <= b)%Qc.
Proof. unfold Qcle. apply Qle_bool_iff. Qed.

(** X14.  Started from a solution of the system ([Σ_j A[i][j]·x[j] = b[i]]
    for every row) whose matrix has no zero on its diagonal, with a
    threshold that is not negative and [max_iter > 0], [JacobiMethodGpu]
    stops in its first iteration: [k] is 0, the iterate written to [x_new]
    is [x] itself, and the value printed and returned is the final error
    [Σ_i |x[i] - 1|] of [x].  Exact rational arithmetic. *)
Theorem JacobiMethodGpu_stops_at_a_solution (A b : ptr)
    (conv_threshold : Qc) (max_iter : Z) (x x_new d_sum : ptr)
    (st : gstate) :
  NoDup [A; b; x; x_new; d_sum] ->
  (forall i, i < N_ROWS -> g_mem st A (i * N_ROWS + i) <> zero) ->
  (forall i, i < N_ROWS -> row_dot (g_mem st) A x i = g_mem st b i) ->
  leb zero conv_threshold = true ->
  (0 < max_iter)%Z ->
  res_k (JacobiMethodGpu A b conv_threshold max_iter x x_new d_sum st) = 0 /\
  res_printed (JacobiMethodGpu A b conv_threshold max_iter x x_new d_sum st)
  = Some (1, final_error (g_mem st) x) /\
  res_sum (JacobiMethodGpu A b conv_threshold max_iter x x_new d_sum st)
  = final_error (g_mem st) x /\
  (forall i, i < N_ROWS ->
     g_mem
       (res_state
          (JacobiMethodGpu A b conv_threshold max_iter x x_new d_sum st))
       x_new i
     = g_mem st x i).
Proof.
  intros Hd Hdiag Hsol Hthr Hmax.
  pose proof (distinct_pointers A b x x_new d_sum Hd)
    as (_ & _ & _ & _ & _ & _ & _ & _ & Hns).
  destruct (jacobi_iteration_spec A b conv_threshold x x_new d_sum Hd 0 st)
    as (_ & Hnew & _).
  change (next_iterate x x_new 0) with x_new in Hnew.
  change (current_iterate x x_new 0) with x in Hnew.
  assert (Hkeep : forall i, i < N_ROWS ->
            g_mem (jacobi_state A b conv_threshold x x_new d_sum 1 st) x_new i
            = g_mem st x i).
  { intros i Hi. cbn [jacobi_state]. rewrite (Hnew i Hi).
    rewrite solved_row_dx by auto. apply add_zero_r. }
  assert (Herr : final_error
                   (g_mem (jacobi_state A b conv_threshold x x_new d_sum 1
                             st)) (next_iterate x x_new 0)
                 = final_error (g_mem st) x).
  { change (next_iterate x x_new 0) with x_new. unfold final_error.
    apply sumF_ext. intros i Hi. now rewrite Hkeep. }
  rewrite (JacobiMethodGpu_converged A b conv_threshold x x_new d_sum
             max_iter st 0 Hd).
  - cbn [res_k res_printed res_sum res_state]. rewrite Herr.
    repeat split. intros i Hi.
    destruct (final_error_pass_spec A b x x_new d_sum Hd 0
                (jacobi_state A b conv_threshold x x_new d_sum 1 st))
      as [_ Hf].
    rewrite Hf by (intros [E _]; auto). now apply Hkeep.
  - lia.
  - intros j Hj. lia.
  - unfold iteration_residual. cbn [jacobi_state].
    change (current_iterate x x_new 0) with x.
    now rewrite solved_system_residual.
Qed.

(** X15.  A negative threshold is never met: the residual [Σ_i |dx_i|] is
    not negative, so that [JacobiMethodGpu] runs all its [max_iter]
    iterations, prints nothing and returns the residual of the last one.
    Exact rational arithmetic. *)
Theorem JacobiMethodGpu_negative_threshold_never_converges (A b : ptr)
    (conv_threshold : Qc) (max_iter : Z) (x x_new d_sum : ptr)
    (st : gstate) :
  NoDup [A; b; x; x_new; d_sum] ->
  leb zero conv_threshold = false ->
  (0 < max_iter)%Z ->
  Z.of_nat
    (res_k (JacobiMethodGpu A b conv_threshold max_iter x x_new d_sum st))
  = max_iter /\
  res_printed (JacobiMethodGpu A b conv_threshold max_iter x x_new d_sum st)
  = None /\
  res_sum (JacobiMethodGpu A b conv_threshold max_iter x x_new d_sum st)
  = iteration_residual A b conv_threshold x x_new d_sum
      (Z.to_nat max_iter - 1) st.
Proof.
  intros Hd Hthr Hmax.
  rewrite (JacobiMethodGpu_exhausted A b conv_threshold x x_new d_sum
             max_iter st Hd).
  - cbn [res_k res_printed res_sum]. split; [lia|]. split; [reflexivity|].
    destruct (Z.to_nat max_iter) as [|f] eqn:E; [lia|].
    now rewrite Nat.sub_1_r.
  - intros j _. unfold iteration_residual.
    destruct (leb (residual _ A b _) conv_threshold) eqn:E; [|reflexivity].
    apply Qc_leb_le in E.
    pose proof (residual_nonnegative
                  (g_mem (jacobi_state A b conv_threshold x x_new d_sum j
                            st)) A b (current_iterate x x_new j)) as H0.
    assert (Hle : leb zero conv_threshold = true).
    { apply Qc_leb_le. eapply Qcle_trans; eassumption. }
    rewrite Hle in Hthr. discriminate.
Qed.

(** A sum with one term that is not zero. *)
Lemma sumF_single (f : nat -> Qc) (n i : nat) :
  i < n -> (forall j, j < n -> j <> i -> f j = zero) -> sumF f n = f i.
Proof.
  induction n as [|n IH]; intros Hi Hz; [lia|]. simpl.
  destruct (Nat.eq_dec i n) as [->|Hne].
  - rewrite sumF_all_zero by (intros j Hj; apply Hz; lia).
    apply Qcplus_0_l.
  - rewrite IH by (try lia; intros j Hj; apply Hz; lia).
    rewrite (Hz n) by lia. apply Qcplus_0_r.
Qed.

(** X16.  For a diagonal matrix with no zero on its diagonal, one dispatch
    of [JacobiMethod] with the grid of the drivers writes the solution of
    the system into [x_new], whatever the iterate [x] it starts from:
    [x_new[i] = b[i] / A[i][i]] for every row.  Exact rational
    arithmetic. *)
Theorem JacobiMethod_solves_a_diagonal_system_in_one_sweep (A b : ptr)
    (conv_threshold : Qc) (x x_new d_sum : ptr) (st : gstate) (i : nat) :
  ~ In x_new [A; b; x; d_sum] -> ~ In d_sum [A; b; x] ->
  (forall r c, r < N_ROWS -> c < N_ROWS -> c <> r ->
     g_mem st A (r * N_ROWS + c) = zero) ->
  (forall r, r < N_ROWS -> g_mem st A (r * N_ROWS + r) <> zero) ->
  i < N_ROWS ->
  g_mem (launch_JacobiMethod nblocks nthreads A b conv_threshold x x_new
           d_sum st) x_new i
  = g_mem st b i [/] g_mem st A (i * N_ROWS + i).
Proof.
  intros Hxn Hs Hoff Hdiag Hi. simpl in Hxn, Hs.
  destruct (launch_JacobiMethod_spec nblocks nthreads 8 A b conv_threshold
              x x_new d_sum st) as (Hnew & _);
    auto; try apply nblocks_cover; try lia;
    try (intros E; subst; tauto).
  rewrite (Hnew i Hi). unfold jacobi_dx, row_dot.
  rewrite (sumF_single _ N_ROWS i Hi).
  - specialize (Hdiag i Hi). simpl in *. field. exact Hdiag.
  - intros c Hc Hne. rewrite Hoff by auto. simpl. apply Qcmult_0_l.
Qed.

End JacobiRational.

(** ** The further theorems on the concrete system *)

Section JacobiFurtherWitnesses.
Local Existing Instance system_512.
Local Existing Instance rational_device.

Lemma JacobiMethod_dispatch_is_a_jacobi_sweep_witness :
  (forall i, i < N_ROWS ->
     g_mem (launch_JacobiMethod nblocks nthreads 0 1 (Q2Qc 0) 2 3 4
              system_state) 3 i
     = g_mem system_state 2 i [+] jacobi_dx (g_mem system_state) 0 1 2 i) /\
  g_mem (launch_JacobiMethod nblocks nthreads 0 1 (Q2Qc 0) 2 3 4
           system_state) 4 0
  = g_mem system_state 4 0 [+] residual (g_mem system_state) 0 1 2 /\
  (forall p j,
     ~ (p = 3 /\ j < N_ROWS) -> ~ (p = 4 /\ j = 0) ->
     g_mem (launch_JacobiMethod nblocks nthreads 0 1 (Q2Qc 0) 2 3 4
              system_state) p j
     = g_mem system_state p j).
Proof.
  apply (JacobiMethod_dispatch_is_a_jacobi_sweep (EA := Qc_exact) 0 1
           (Q2Qc 0) 2 3 4 system_state); simpl; lia.
Defined.

Lemma shuffle_reductions_sum_all_lanes_witness :
  nth 0 (sub_group_reduce (repeat (Q2Qc 1) 32)) zero
  = sumF (fun l => nth l (repeat (Q2Qc 1) 32) zero) SUB_GROUP_SIZE /\
  nth 0 (tile_reduce (repeat (Q2Qc 1) 8)) zero
  = sumF (fun l => nth l (repeat (Q2Qc 1) 8) zero) ROWS_PER_CTA.
Proof.
  apply (shuffle_reductions_sum_all_lanes (EA := Qc_exact)
           (repeat (Q2Qc 1) 32) (repeat (Q2Qc 1) 8)); reflexivity.
Defined.

Lemma finalError_dispatch_only_adds_to_the_sum_witness :
  g_trace (launch_finalError 3 256 3 4 system_state)
  = g_trace system_state ++ repeat (EvAtomicAdd 4 0) 3 /\
  (forall p j, ~ (p = 4 /\ j = 0) ->
     g_mem (launch_finalError 3 256 3 4 system_state) p j
     = g_mem system_state p j).
Proof.
  apply (finalError_dispatch_only_adds_to_the_sum 3 256 3 4 system_state).
  lia.
Defined.

(** Element 5 of the matrix after a run of at most two iterations. *)
Lemma JacobiMethodGpu_writes_only_iterates_and_accumulator_witness :
  g_mem (res_state (JacobiMethodGpu 0 1 (Q2Qc 0) 2 2 3 4 system_state)) 0 5
  = g_mem system_state 0 5.
Proof.
  apply (JacobiMethodGpu_writes_only_iterates_and_accumulator 0 1 (Q2Qc 0)
           2 2 3 4 system_state 0 5);
    intros [E _]; discriminate E.
Defined.

Lemma JacobiMethod_surplus_group_changes_nothing_witness :
  g_trace (JacobiMethod 0 1 (Q2Qc 0) 2 3 4 last_group
             {| x_shared := uninitialized_local;
                b_shared := uninitialized_local |} system_state)
  = g_trace system_state ++ [EvAtomicAdd 4 0] /\
  (forall p j,
     g_mem (JacobiMethod 0 1 (Q2Qc 0) 2 3 4 last_group
              {| x_shared := uninitialized_local;
                 b_shared := uninitialized_local |} system_state) p j
     = g_mem system_state p j).
Proof.
  apply (JacobiMethod_surplus_group_changes_nothing (EA := Qc_exact) 0 1
           (Q2Qc 0) 2 3 4 last_group _ system_state 8).
  - reflexivity.
  - lia.
  - discriminate.
  - discriminate.
  - cbn. lia.
Defined.

Lemma solved_system_pointers_distinct : NoDup [0; 5; 2; 3; 4].
Proof. repeat constructor; simpl; lia. Qed.

(** With the right-hand side 0 (allocation 5) the initial guess 0 solves
    the system. *)
Lemma JacobiMethodGpu_stops_at_a_solution_witness :
  res_k (JacobiMethodGpu 0 5 (Q2Qc 0) 3 2 3 4 system_state) = 0 /\
  res_printed (JacobiMethodGpu 0 5 (Q2Qc 0) 3 2 3 4 system_state)
  = Some (1, final_error (g_mem system_state) 2) /\
  res_sum (JacobiMethodGpu 0 5 (Q2Qc 0) 3 2 3 4 system_state)
  = final_error (g_mem system_state) 2 /\
  (forall i, i < N_ROWS ->
     g_mem (res_state (JacobiMethodGpu 0 5 (Q2Qc 0) 3 2 3 4 system_state))
       3 i
     = g_mem system_state 2 i).
Proof.
  apply (JacobiMethodGpu_stops_at_a_solution 0 5 (Q2Qc 0) 3 2 3 4
           system_state).
  - exact solved_system_pointers_distinct.
  - intros r Hr. change (g_mem system_state) with system_mem.
    rewrite system_diagonal. intros E. apply (f_equal this) in E.
    discriminate E.
  - intros i _. unfold row_dot.
    change (g_mem system_state 5 i) with (@zero Qc Qc_Arith).
    apply sumF_all_zero. intros j _. simpl. apply Qcmult_0_r.
  - reflexivity.
  - lia.
Defined.

Lemma JacobiMethodGpu_negative_threshold_never_converges_witness :
  Z.of_nat (res_k (JacobiMethodGpu 0 1 (Q2Qc (-1)) 2 2 3 4 system_state))
  = 2%Z /\
  res_printed (JacobiMethodGpu 0 1 (Q2Qc (-1)) 2 2 3 4 system_state) = None /\
  res_sum (JacobiMethodGpu 0 1 (Q2Qc (-1)) 2 2 3 4 system_state)
  = iteration_residual 0 1 (Q2Qc (-1)) 2 3 4 (Z.to_nat 2 - 1) system_state.
Proof.
  apply (JacobiMethodGpu_negative_threshold_never_converges 0 1 (Q2Qc (-1))
           2 2 3 4 system_state).
  - exact system_pointers_distinct.
  - reflexivity.
  - lia.
Defined.

Lemma system_off_diagonal (r c : nat) :
  r < 512 -> c < 512 -> c <> r -> system_mem 0 (r * 512 + c) = Q2Qc 0.
Proof.
  intros Hr Hc Hne. unfold system_mem.
  destruct (Nat.eqb_spec ((r * 512 + c) mod 513) 0) as [E|]; auto.
  apply Nat.Div0.mod_divides in E as [q E]. nia.
Qed.

Lemma JacobiMethod_solves_a_diagonal_system_in_one_sweep_witness :
  g_mem (launch_JacobiMethod nblocks nthreads 0 1 (Q2Qc 0) 2 3 4
           system_state) 3 7
  = g_mem system_state 1 7 [/] g_mem system_state 0 (7 * N_ROWS + 7).
Proof.
  apply (JacobiMethod_solves_a_diagonal_system_in_one_sweep 0 1 (Q2Qc 0)
           2 3 4 system_state 7).
  - simpl. lia.
  - simpl. lia.
  - intros r c Hr Hc Hne. now apply system_off_diagonal.
  - intros r Hr. change (g_mem system_state) with system_mem.
    rewrite system_diagonal. intros E. apply (f_equal this) in E.
    discriminate E.
  - cbn. lia.
Defined.

End JacobiFurtherWitnesses.

(** ** The iterates of the driver *)

Section JacobiIterates.
Context {F : Type} {AF : Arith F} {DEV : Device F} {JH : jacobi_h}.
Context {EA : ExactArith F}.
Local Abbreviation gmem := (@gmem F).
Local Abbreviation gstate := (@gstate F).
Variables (A b : ptr) (conv_threshold : F) (x x_new d_sum : ptr).
Hypothesis Hdistinct : NoDup [A; b; x; x_new; d_sum].

Lemma current_iterate_succ (k : nat) :
  current_iterate x x_new (S k) = next_iterate x x_new k.
Proof.
  unfold current_iterate, next_iterate. rewrite !even_iteration_even.
  rewrite Nat.even_succ, <- Nat.negb_even. now destruct (Nat.even k).
Qed.

Lemma iterate_is_no_accumulator (k : nat) :
  current_iterate x x_new k <> d_sum.
Proof.
  pose proof (distinct_pointers A b x x_new d_sum Hdistinct)
    as (_ & _ & _ & _ & _ & _ & _ & Hx & Hn).
  unfold current_iterate. now destruct (even_iteration k).
Qed.

(** After [k] sweeps the matrix and the right-hand side are what they were
    and the buffer the next sweep reads holds the [k]-th Jacobi iterate. *)
Lemma jacobi_state_iterate (st : gstate) (k : nat) :
  (forall j, g_mem (jacobi_state A b conv_threshold x x_new d_sum k st) A j
             = g_mem st A j) /\
  (forall j, g_mem (jacobi_state A b conv_threshold x x_new d_sum k st) b j
             = g_mem st b j) /\
  (forall i, i < N_ROWS ->
     g_mem (jacobi_state A b conv_threshold x x_new d_sum k st)
       (current_iterate x x_new k) i
     = Nat.iter k (jacobi_sweep (g_mem st) A b) (g_mem st x) i).
Proof.
  pose proof (distinct_pointers A b x x_new d_sum Hdistinct)
    as (HAx & HAn & HAs & Hbx & Hbn & Hbs & _).
  induction k as [|k (IHA & IHb & IHx)].
  - repeat split; auto.
  - destruct (jacobi_iteration_spec A b conv_threshold x x_new d_sum
                Hdistinct k
                (jacobi_state A b conv_threshold x x_new d_sum k st))
      as (_ & Hnew & Hframe).
    cbn [jacobi_state]. split; [|split].
    + intros j. rewrite Hframe, IHA; auto.
      * intros [E _]. unfold next_iterate in E.
        destruct (even_iteration k); congruence.
      * intros [E _]. congruence.
    + intros j. rewrite Hframe, IHb; auto.
      * intros [E _]. unfold next_iterate in E.
        destruct (even_iteration k); congruence.
      * intros [E _]. congruence.
    + intros i Hi. rewrite current_iterate_succ, (Hnew i Hi).
      cbn [Nat.iter]. unfold jacobi_sweep at 1, jacobi_dx, row_dot.
      rewrite IHx, IHb, IHA by assumption.
      rewrite (sumF_ext
                 (fun j =>
                    g_mem (jacobi_state A b conv_threshold x x_new d_sum k
                             st) A (i * N_ROWS + j)
                    [*] g_mem (jacobi_state A b conv_threshold x x_new d_sum
                                 k st) (current_iterate x x_new k) j)
                 (fun j =>
                    g_mem st A (i * N_ROWS + j)
                    [*] Nat.iter k (jacobi_sweep (g_mem st) A b)
                          (g_mem st x) j));
        [reflexivity|].
      intros j Hj. now rewrite IHA, IHx.
Qed.

(** Device memory when the loop of the driver ends. *)
Lemma JacobiMethodGpu_loop_state (st0 : gstate) (fuel k : nat) (sum : F) :
  (res_printed
     (JacobiMethodGpu_loop A b conv_threshold x x_new d_sum fuel k
        (jacobi_state A b conv_threshold x x_new d_sum k st0) sum) = None /\
   res_state
     (JacobiMethodGpu_loop A b conv_threshold x x_new d_sum fuel k
        (jacobi_state A b conv_threshold x x_new d_sum k st0) sum)
   = jacobi_state A b conv_threshold x x_new d_sum
       (res_k (JacobiMethodGpu_loop A b conv_threshold x x_new d_sum fuel k
                 (jacobi_state A b conv_threshold x x_new d_sum k st0) sum))
       st0) \/
  (res_printed
     (JacobiMethodGpu_loop A b conv_threshold x x_new d_sum fuel k
        (jacobi_state A b conv_threshold x x_new d_sum k st0) sum) <> None /\
   res_state
     (JacobiMethodGpu_loop A b conv_threshold x x_new d_sum fuel k
        (jacobi_state A b conv_threshold x x_new d_sum k st0) sum)
   = final_error_pass x x_new d_sum
       (res_k (JacobiMethodGpu_loop A b conv_threshold x x_new d_sum fuel k
                 (jacobi_state A b conv_threshold x x_new d_sum k st0) sum))
       (jacobi_state A b conv_threshold x x_new d_sum
          (S (res_k (JacobiMethodGpu_loop A b conv_threshold x x_new d_sum
                       fuel k
                       (jacobi_state A b conv_threshold x x_new d_sum k st0)
                       sum)))
          st0)).
Proof.
  revert k sum. induction fuel as [|fuel IH]; intros k sum.
  - left. cbn. auto.
  - rewrite JacobiMethodGpu_loop_step, convergence_check_spec.
    destruct (leb _ conv_threshold).
    + right. cbn [res_printed res_state res_k jacobi_state].
      split; [discriminate | reflexivity].
    + apply (IH (S k)).
Qed.

End JacobiIterates.

Section JacobiIteratesTheorem.
Context {F : Type} {AF : Arith F} {DEV : Device F} {JH : jacobi_h}.
Local Abbreviation gstate := (@gstate F).

(** X17.  What [JacobiMethodGpu] computes: when it returns after [n]
    dispatches of [JacobiMethod] ([k + 1] if the loop broke at iteration
    [k], [max_iter] if it ran out of iterations), the buffer that holds the
    latest iterate ([x] for even [n], [x_new] for odd [n]) holds, in its
    rows below [N_ROWS], the [n]-th Jacobi iterate of the initial guess,
    for the matrix and the right-hand side given at the start.  Exact
    arithmetic; the five buffers are distinct. *)
Theorem JacobiMethodGpu_computes_the_jacobi_iterates {EA : ExactArith F}
    (A b : ptr) (conv_threshold : F) (max_iter : Z) (x x_new d_sum : ptr)
    (st : gstate) (i : nat) :
  NoDup [A; b; x; x_new; d_sum] ->
  i < N_ROWS ->
  g_mem
    (res_state (JacobiMethodGpu A b conv_threshold max_iter x x_new d_sum st))
    (current_iterate x x_new
       (sweeps_run
          (JacobiMethodGpu A b conv_threshold max_iter x x_new d_sum st)))
    i
  = Nat.iter
      (sweeps_run
         (JacobiMethodGpu A b conv_threshold max_iter x x_new d_sum st))
      (jacobi_sweep (g_mem st) A b) (g_mem st x) i.
Proof.
  intros Hd Hi. unfold JacobiMethodGpu, sweeps_run.
  destruct (JacobiMethodGpu_loop_state A b conv_threshold x x_new d_sum st
              (Z.to_nat max_iter) 0 zero) as [[Hp Hs] | [Hp Hs]];
    cbn [jacobi_state] in Hp, Hs.
  - rewrite Hp, Hs.
    now apply (jacobi_state_iterate A b conv_threshold x x_new d_sum Hd).
  - destruct (res_printed _) as [pr|]; [|congruence]. rewrite Hs.
    destruct (final_error_pass_spec A b x x_new d_sum Hd
                (res_k (JacobiMethodGpu_loop A b conv_threshold x x_new
                          d_sum (Z.to_nat max_iter) 0 st zero))
                (jacobi_state A b conv_threshold x x_new d_sum
                   (S (res_k (JacobiMethodGpu_loop A b conv_threshold x
                                x_new d_sum (Z.to_nat max_iter) 0 st zero)))
                   st)) as [_ Hf].
    rewrite Hf.
    + now apply (jacobi_state_iterate A b conv_threshold x x_new d_sum Hd).
    + intros [E _]. revert E.
      now apply (iterate_is_no_accumulator A b x x_new d_sum Hd).
Qed.

End JacobiIteratesTheorem.

Section JacobiIteratesWitness.
Local Existing Instance system_512.
Local Existing Instance rational_device.

Lemma JacobiMethodGpu_computes_the_jacobi_iterates_witness :
  g_mem (res_state (JacobiMethodGpu 0 1 (Q2Qc 0) 2 2 3 4 system_state))
    (current_iterate 2 3
       (sweeps_run (JacobiMethodGpu 0 1 (Q2Qc 0) 2 2 3 4 system_state)))
    7
  = Nat.iter (sweeps_run (JacobiMethodGpu 0 1 (Q2Qc 0) 2 2 3 4 system_state))
      (jacobi_sweep (g_mem system_state) 0 1) (g_mem system_state 2) 7.
Proof.
  apply (JacobiMethodGpu_computes_the_jacobi_iterates (EA := Qc_exact) 0 1
           (Q2Qc 0) 2 2 3 4 system_state 7).
  - exact system_pointers_distinct.
  - cbn. lia.
Defined.

End JacobiIteratesWitness.
